(** * kamui-yaml-visualizer: the YAML tree flattener and the layered layout

    A shallow embedding of [utils/yamlParser.ts] (the recursive flattener
    [processDirectory] / [generateNodesAndEdges], the layout
    [calculateNodePositions] with its inner [calculateLevel], the helpers
    [getFileExtension] and [getExtensionColor]) together with the second
    [yamlParser.ts] of the repository, which builds the [structure.yaml]
    node first and points its edges the other way.

    Conventions of the embedding.
    - A JavaScript [number] is a rational ([Q]); every coordinate the layout
      computes is an integer or a half integer, so the arithmetic is exact.
    - A JavaScript object used as a dictionary ([levels], [positions]) is a
      finite map of its own properties ([gmap string _]); [nodesPerLevel],
      whose keys are array indices, is an association list kept in
      ascending key order, the order in which [Object.entries] lists such
      keys.
      A key that names a member of [Object.prototype] would read an
      inherited value there ([levels[nodeId]] is then not [undefined] on the
      first visit, and an assignment to [positions["__proto__"]] sets the
      prototype and adds no entry); the ids of the layout are taken not to
      be such names.  Every path the flatteners build starts with [src];
      for the other ids the layout meets, the entries of a [dependency],
      the theorems exclude these names where a dictionary is read at them.
      The lookup of [getExtensionColor], whose key is free, models them.
    - Recursion that JavaScript bounds only by its call stack takes a
      [fuel] argument, the permitted call depth; running out of fuel is the
      model of [RangeError: Maximum call stack size exceeded].
    - The random start position of a node is read from an oracle
      [random : nat -> Q] indexed by the number of draws made so far:
      [random k] is the double that the [k]-th evaluation of
      [Math.random() * 500] yields, rounding included. *)

From Stdlib Require Import Ascii QArith Lqa.
From stdpp Require Import base strings list gmap pretty sorting.

Set Warnings "-register-all".

Open Scope string_scope.
Open Scope list_scope.
Open Scope nat_scope.

(** ** Values produced by the YAML parser *)

(** What [load] of js-yaml hands to the flattener, plus [undefined] (the
    result of reading a missing property).  The properties of an object are
    listed in the order [Object.entries] enumerates them.  Sequences hold
    strings, as the [dependency] and [api] lists of [YamlFile] do. *)
Inductive JsValue : Type :=
  | JUndefined
  | JNull
  | JBool (b : bool)
  | JNum (n : Q)
  | JStr (s : string)
  | JArr (items : list string)
  | JObj (props : list (string * JsValue)).

(** ** types/yaml.ts *)

Module Position.
Record t : Type := mk { x : Q; y : Q }.
End Position.

Module NodeData.
Record t : Type := mk {
  label : string;
  content : JsValue;
  agent : JsValue;
  extension : string
}.
End NodeData.

Module NodeStyle.
Record t : Type := mk { border : string; width : string }.
End NodeStyle.

Module FileNode.
Record t : Type := mk {
  id : string;
  type : string;
  data : NodeData.t;
  position : Position.t;
  style : NodeStyle.t
}.
End FileNode.

Module FileEdge.
Record t : Type := mk { id : string; source : string; target : string }.
End FileEdge.

(** ** constant/constant.ts *)

Module Constant.
Definition jsColor := "#f7df1e".
Definition tsColor := "#3178c6".
Definition jsxColor := "#00d8ff".
Definition tsxColor := "#61dafb".
Definition dartColor := "#00b4ab".
Definition pythonColor := "#3572A5".
Definition cssColor := "#264de4".
Definition htmlColor := "#e34c26".
Definition yamlColor := "#cb171e".
Definition pngColor := "#4CAF50".
Definition glbColor := "#9C27B0".
Definition mp4Color := "#F44336".
Definition mp3Color := "#E91E63".
Definition marpColor := "#FF9800".
Definition mmdColor := "#795548".
Definition mdColor := "#607D8B".
Definition defaultColor := "#808080".
Definition defaultNodeWidth := "300px".
Definition defaultHorizontalSpacing : Q := 400.
Definition defaultVerticalSpacing : Q := 200.
End Constant.

(** ** The layout: [calculateNodePositions] *)

(** The two copies of [calculateNodePositions] differ only in the spacing
    constants they read. *)
Record Spacing : Type := {
  VERTICAL_SPACING : Q;
  HORIZONTAL_SPACING : Q
}.

(** [utils/yamlParser.ts]: the constants of [constant/constant.ts]. *)
Definition spacing_constant : Spacing :=
  {| VERTICAL_SPACING := Constant.defaultVerticalSpacing;
     HORIZONTAL_SPACING := Constant.defaultHorizontalSpacing |}.

(** The second [yamlParser.ts]: literals 250 and 500. *)
Definition spacing_literal : Spacing :=
  {| VERTICAL_SPACING := 250; HORIZONTAL_SPACING := 500 |}.

Definition STAGGER_OFFSET : Q := 100.

(** The two dictionaries [calculateLevel] mutates. *)
Record LevelState : Type := {
  levels : gmap string nat;
  nodesPerLevel : list (nat * list string)
}.

Definition emptyLevelState : LevelState :=
  {| levels := ∅; nodesPerLevel := [] |}.

(** [edges.some((edge) => edge.target === nodeId)] *)
Definition isTarget (edges : list FileEdge.t) (nodeId : string) : bool :=
  existsb (λ edge, bool_decide (FileEdge.target edge = nodeId)) edges.

(** [nodes.filter((node) => !edges.some(...)).map((node) => node.id)] *)
Definition startNodes (nodes : list FileNode.t) (edges : list FileEdge.t)
  : list string :=
  FileNode.id <$>
    filter (λ node, isTarget edges (FileNode.id node) = false) nodes.

(** [levels[nodeId] = levels[nodeId] !== undefined
       ? Math.max(levels[nodeId], level) : level], for a [nodeId] that
    names no member of [Object.prototype].  (At such a name the read of the
    empty dictionary yields the inherited member, so the maximum taken on
    the first visit is not a number; the theorems that read [levels] at an
    id the flatteners do not build exclude these names.) *)
Definition setLevel (nodeId : string) (level : nat)
    (lv : gmap string nat) : gmap string nat :=
  match lv !! nodeId with
  | Some old => <[nodeId := Nat.max old level]> lv
  | None => <[nodeId := level]> lv
  end.

(** [if (!nodesPerLevel[level]) nodesPerLevel[level] = [];
     nodesPerLevel[level].push(nodeId)], on the key-ordered listing. *)
Fixpoint pushAtLevel (level : nat) (nodeId : string)
    (npl : list (nat * list string)) : list (nat * list string) :=
  match npl with
  | [] => [(level, [nodeId])]
  | (k, ids) :: rest =>
      if decide (level = k) then (k, ids ++ [nodeId]) :: rest
      else if decide (level < k) then (level, [nodeId]) :: npl
      else (k, ids) :: pushAtLevel level nodeId rest
  end.

Definition visit (nodeId : string) (level : nat) (st : LevelState)
  : LevelState :=
  {| levels := setLevel nodeId level (levels st);
     nodesPerLevel := pushAtLevel level nodeId (nodesPerLevel st) |}.

(** [xs.forEach(f)] for a callback that may fail to return. *)
Fixpoint forEachM {A S : Type} (f : A → S → option S) (xs : list A) (s : S)
  : option S :=
  match xs with
  | [] => Some s
  | a :: rest =>
      match f a s with
      | Some s' => forEachM f rest s'
      | None => None
      end
  end.

(** The inner function [calculateLevel(nodeId, level)]; [fuel] bounds the
    depth of the call stack. *)
Fixpoint calculateLevel (fuel : nat) (edges : list FileEdge.t)
    (nodeId : string) (level : nat) (st : LevelState) : option LevelState :=
  match fuel with
  | O => None
  | S fuel' =>
      let st1 := visit nodeId level st in
      let childEdges :=
        filter (λ edge, FileEdge.source edge = nodeId) edges in
      forEachM
        (λ edge, calculateLevel fuel' edges (FileEdge.target edge) (level + 1))
        childEdges st1
  end.

(** [startNodes.forEach((nodeId) => calculateLevel(nodeId, 0))] *)
Definition calculateLevels (fuel : nat) (nodes : list FileNode.t)
    (edges : list FileEdge.t) : option LevelState :=
  forEachM (λ nodeId, calculateLevel fuel edges nodeId 0)
    (startNodes nodes edges) emptyLevelState.

(** A count or an index read as a JavaScript number. *)
Definition num (n : nat) : Q := inject_Z (Z.of_nat n).

(** [staggerX = levelNum % 2 === 0 ? 0 : STAGGER_OFFSET] *)
Definition staggerX (levelNum : nat) : Q :=
  if Nat.even levelNum then 0%Q else STAGGER_OFFSET.

(** [startX = -totalWidth / 2] with
    [totalWidth = (nodeIds.length - 1) * HORIZONTAL_SPACING] *)
Definition startX (cfg : Spacing) (count : nat) : Q :=
  let totalWidth := ((num count - 1) * HORIZONTAL_SPACING cfg)%Q in
  (- totalWidth / 2)%Q.

(** The object assigned to [positions[nodeId]] for the node at [index] of a
    level holding [count] ids. *)
Definition slot (cfg : Spacing) (levelNum count index : nat) : Position.t :=
  {| Position.x :=
       (startX cfg count + num index * HORIZONTAL_SPACING cfg
        + staggerX levelNum)%Q;
     Position.y := (num levelNum * VERTICAL_SPACING cfg)%Q |}.

(** [nodeIds.forEach((nodeId, index) => { positions[nodeId] = ... })],
    started at [index], for ids other than [__proto__].  (An assignment to
    [positions["__proto__"]] sets the prototype of the map and adds no
    entry; the theorems that read [positions] at an id the flatteners do
    not build exclude that name.) *)
Fixpoint placeFrom (cfg : Spacing) (levelNum count index : nat)
    (nodeIds : list string) (positions : gmap string Position.t)
  : gmap string Position.t :=
  match nodeIds with
  | [] => positions
  | nodeId :: rest =>
      placeFrom cfg levelNum count (S index) rest
        (<[nodeId := slot cfg levelNum count index]> positions)
  end.

Definition placeLevel (cfg : Spacing) (positions : gmap string Position.t)
    (entry : nat * list string) : gmap string Position.t :=
  placeFrom cfg (fst entry) (length (snd entry)) 0 (snd entry) positions.

(** [Object.entries(nodesPerLevel).forEach(([level, nodeIds]) => ...)] *)
Definition placeNodes (cfg : Spacing) (npl : list (nat * list string))
  : gmap string Position.t :=
  foldl (placeLevel cfg) ∅ npl.

Definition calculateNodePositions (cfg : Spacing) (fuel : nat)
    (nodes : list FileNode.t) (edges : list FileEdge.t)
  : option (gmap string Position.t) :=
  match calculateLevels fuel nodes edges with
  | Some st => Some (placeNodes cfg (nodesPerLevel st))
  | None => None
  end.

(** ** String helpers of the JavaScript runtime *)

(** [s.split(sep)] for a separator of one character: never empty. *)
Fixpoint split (sep : ascii) (s : string) : list string :=
  match s with
  | EmptyString => [""]
  | String c rest =>
      if decide (c = sep) then "" :: split sep rest
      else match split sep rest with
           | piece :: pieces => String c piece :: pieces
           | [] => [String c ""]
           end
  end.

(** The value of [xs.pop()]: the last element, [undefined] when there is
    none. *)
Definition pop (xs : list string) : option string := last xs.

(** [v || ""] for [v] a string or [undefined]: the empty string is falsy. *)
Definition orEmpty (v : option string) : string :=
  match v with
  | Some s => if decide (s = "") then "" else s
  | None => ""
  end.

(** [path.split(".").pop() || ""] *)
Definition getFileExtension (path : string) : string :=
  orEmpty (pop (split "." path)).

Definition lowerChar (c : ascii) : ascii :=
  let n := nat_of_ascii c in
  if (65 <=? n)%nat && (n <=? 90)%nat then ascii_of_nat (n + 32) else c.

(** [s.toLowerCase()] on the letters A-Z.  The characters outside ASCII that
    JavaScript also folds never fold to a letter of a key of [colorMap]. *)
Fixpoint toLowerCase (s : string) : string :=
  match s with
  | EmptyString => EmptyString
  | String c rest => String (lowerChar c) (toLowerCase rest)
  end.

(** ** [getExtensionColor] *)

(** The names every object literal inherits from [Object.prototype]; each of
    them reads as a function or an object, hence as a truthy value. *)
Definition objectPrototypeMembers : list string :=
  [ "constructor"; "__defineGetter__"; "__defineSetter__"; "hasOwnProperty";
    "__lookupGetter__"; "__lookupSetter__"; "isPrototypeOf";
    "propertyIsEnumerable"; "toString"; "valueOf"; "__proto__";
    "toLocaleString" ].

(** What [getExtensionColor] can return: a colour string of the table (or
    the default), or, for a key that names an inherited member, that member
    of [Object.prototype]. *)
Inductive ColorValue : Type :=
  | Color (hex : string)
  | PrototypeMember (name : string).

(** [table[key] || fallback] for an object literal [table] of strings. *)
Definition lookupOr (table : list (string * string)) (key fallback : string)
  : ColorValue :=
  match list_find (λ kv, fst kv = key) table with
  | Some (_, (_, hex)) =>
      if decide (hex = "") then Color fallback else Color hex
  | None =>
      if bool_decide (key ∈ objectPrototypeMembers) then PrototypeMember key
      else Color fallback
  end.

Definition colorMap : list (string * string) :=
  [ ("js", Constant.jsColor); ("ts", Constant.tsColor);
    ("jsx", Constant.jsxColor); ("tsx", Constant.tsxColor);
    ("css", Constant.cssColor); ("html", Constant.htmlColor);
    ("yaml", Constant.yamlColor); ("dart", Constant.dartColor);
    ("python", Constant.pythonColor);
    ("png", Constant.pngColor); ("glb", Constant.glbColor);
    ("mp4", Constant.mp4Color); ("mp3", Constant.mp3Color);
    ("marp", Constant.marpColor); ("mmd", Constant.mmdColor);
    ("md", Constant.mdColor) ].

(** [getExtensionColor(extension = "")]: [None] is a call without the
    argument (or with [undefined]). *)
Definition getExtensionColor (extension : option string) : ColorValue :=
  let extension := default "" extension in
  lookupOr colorMap (toLowerCase extension) Constant.defaultColor.

(** ** The recursive flattener: [processDirectory] *)

(** How a call ends: it returns, it throws a [TypeError], or the recursion
    exceeds the call stack. *)
Inductive Outcome (A : Type) : Type :=
  | Returned (a : A)
  | TypeError
  | RangeError.
Arguments Returned {A} a.
Arguments TypeError {A}.
Arguments RangeError {A}.

(** The three containers [generateNodesAndEdges] allocates, and the number
    of calls of [Math.random()] made so far. *)
Record FlatState : Type := {
  nodes : list FileNode.t;
  edges : list FileEdge.t;
  agents : list JsValue;
  randomCalls : nat
}.

Definition emptyFlatState : FlatState :=
  {| nodes := []; edges := []; agents := []; randomCalls := 0 |}.

(** [key in value] for an object of the parsed tree and a key that is not
    inherited. *)
Definition hasProperty (key : string) (value : JsValue) : bool :=
  match value with
  | JObj props => bool_decide (key ∈ props.*1)
  | _ => false
  end.

(** [value[key]] for a value that is neither [null] nor [undefined] and a
    key that is neither inherited nor an index. *)
Definition getProperty (key : string) (value : JsValue) : JsValue :=
  match value with
  | JObj props =>
      match list_find (λ kv, fst kv = key) props with
      | Some (_, (_, v)) => v
      | None => JUndefined
      end
  | _ => JUndefined
  end.

(** The type guard [isYamlFile]. *)
Definition isYamlFile (value : JsValue) : bool :=
  match value with
  | JObj _ =>
      hasProperty "content" value && hasProperty "dependency" value
      && hasProperty "agent" value && hasProperty "api" value
  | _ => false
  end.

(** [Object.entries(value)]; [None] is the [TypeError] on [null] and
    [undefined].  A string lists its characters under their indices, a
    number or a boolean lists nothing. *)
Definition objectEntries (value : JsValue) : option (list (string * JsValue)) :=
  match value with
  | JUndefined | JNull => None
  | JBool _ | JNum _ => Some []
  | JStr s =>
      Some (imap (λ i c, (pretty i, JStr (String c ""))) (String.list_ascii_of_string s))
  | JArr items => Some (imap (λ i item, (pretty i, JStr item)) items)
  | JObj props => Some props
  end.

(** The equality of [Set.prototype.add] (SameValueZero): by value on
    primitives, by reference on arrays and objects, and two values met at
    two places of the tree are two references. *)
Definition sameValueZero (a b : JsValue) : bool :=
  match a, b with
  | JUndefined, JUndefined => true
  | JNull, JNull => true
  | JBool p, JBool q => bool_decide (p = q)
  | JNum p, JNum q => Qeq_bool p q
  | JStr s, JStr t => bool_decide (s = t)
  | _, _ => false
  end.

(** [agents.add(value)] *)
Definition setAdd (value : JsValue) (set : list JsValue) : list JsValue :=
  if existsb (sameValueZero value) set then set else set ++ [value].

(** [xs.forEach(f)] for a callback that may throw. *)
Fixpoint forEachO {A S : Type} (f : A → S → Outcome S) (xs : list A) (s : S)
  : Outcome S :=
  match xs with
  | [] => Returned s
  | a :: rest =>
      match f a s with
      | Returned s' => forEachO f rest s'
      | TypeError => TypeError
      | RangeError => RangeError
      end
  end.

(** The node a leaf at [filePath] pushes.  Its position is
    [{x: Math.random() * 500, y: Math.random() * 500}]: the next two values
    of the oracle, [x] drawn first. *)
Definition leafNode (random : nat → Q) (content : JsValue) (filePath : string)
    (calls : nat) : FileNode.t :=
  let fileName := orEmpty (pop (split "/" filePath)) in
  {| FileNode.id := filePath;
     FileNode.type := "default";
     FileNode.data :=
       {| NodeData.label := fileName;
          NodeData.content := getProperty "content" content;
          NodeData.agent := getProperty "agent" content;
          NodeData.extension := getFileExtension fileName |};
     FileNode.position :=
       {| Position.x := random calls; Position.y := random (S calls) |};
     FileNode.style :=
       {| NodeStyle.border := "1px solid #ddd";
          NodeStyle.width := Constant.defaultNodeWidth |} |}.

(** The edge pushed for one entry of [content.dependency]. *)
Definition dependencyEdge (filePath dep : string) : FileEdge.t :=
  {| FileEdge.id := filePath +:+ "-" +:+ dep;
     FileEdge.source := filePath;
     FileEdge.target := dep |}.

(** [parentPath ? `${parentPath}/${key}` : key] *)
Definition childPath (parentPath key : string) : string :=
  if decide (parentPath = "") then key else parentPath +:+ "/" +:+ key.

Fixpoint processDirectory (random : nat → Q) (fuel : nat) (content : JsValue)
    (parentPath : string) (st : FlatState) : Outcome FlatState :=
  match fuel with
  | O => RangeError
  | S fuel' =>
      if isYamlFile content then
        let filePath := parentPath in
        let node := leafNode random content filePath (randomCalls st) in
        match getProperty "dependency" content with
        | JArr dependency =>
            Returned
              {| nodes := nodes st ++ [node];
                 edges := edges st ++ (dependencyEdge filePath <$> dependency);
                 agents := setAdd (getProperty "agent" content) (agents st);
                 randomCalls := S (S (randomCalls st)) |}
        | _ => TypeError
        end
      else
        match objectEntries content with
        | None => TypeError
        | Some entries =>
            forEachO
              (λ '(key, value),
                 processDirectory random fuel' value (childPath parentPath key))
              entries st
        end
  end.

(** [nodes.forEach((node) => { if (positions[node.id]) node.position =
    positions[node.id] })] *)
Definition applyPositions (positions : gmap string Position.t)
    (node : FileNode.t) : FileNode.t :=
  match positions !! FileNode.id node with
  | Some p =>
      {| FileNode.id := FileNode.id node;
         FileNode.type := FileNode.type node;
         FileNode.data := FileNode.data node;
         FileNode.position := p;
         FileNode.style := FileNode.style node |}
  | None => node
  end.

(** What [generateNodesAndEdges] returns. *)
Record Graph : Type := {
  graphNodes : list FileNode.t;
  graphEdges : list FileEdge.t;
  graphAgents : list JsValue
}.

(** [yamlData.src] *)
Definition readSrc (yamlData : JsValue) : option JsValue :=
  match yamlData with
  | JUndefined | JNull => None
  | _ => Some (getProperty "src" yamlData)
  end.

Definition generateNodesAndEdges (random : nat → Q) (fuel : nat)
    (yamlData : JsValue) : Outcome Graph :=
  match readSrc yamlData with
  | None => TypeError
  | Some src =>
      match processDirectory random fuel src "src" emptyFlatState with
      | Returned st =>
          match calculateNodePositions spacing_constant fuel (nodes st) (edges st) with
          | Some positions =>
              Returned
                {| graphNodes := applyPositions positions <$> nodes st;
                   graphEdges := edges st;
                   graphAgents := agents st |}
          | None => RangeError
          end
      | TypeError => TypeError
      | RangeError => RangeError
      end
  end.

(** ** The second [yamlParser.ts]: the [structure.yaml] node first *)

(** This copy reads its input through the interfaces [YamlFile],
    [YamlStructure] and [YamlData] of its [types/yaml.ts]; the embedding
    takes an input of that type. *)
Module StructureFirst.

Record YamlFile : Type := {
  content : string;
  dependency : list string;
  agent : string;
  api : list string;
  dependency_wait : option bool
}.

(** A value of [src]: a single file, or a directory of files. *)
Inductive SrcEntry : Type :=
  | SingleFile (fileData : YamlFile)
  | Directory (files : list (string * YamlFile)).

(** [structureYaml] is [src["structure.yaml"]] ([None]: the key is
    missing, which the [?.] of the code tolerates) and [src] lists the
    other entries in the order of [Object.entries]. *)
Record YamlData : Type := {
  structureYaml : option YamlFile;
  src : list (string * SrcEntry)
}.

Definition fileNode (id label : string) (content agent : JsValue)
    (extension : string) : FileNode.t :=
  {| FileNode.id := id;
     FileNode.type := "default";
     FileNode.data :=
       {| NodeData.label := label;
          NodeData.content := content;
          NodeData.agent := agent;
          NodeData.extension := extension |};
     FileNode.position := {| Position.x := 0; Position.y := 0 |};
     FileNode.style :=
       {| NodeStyle.border := "none"; NodeStyle.width := "420px" |} |}.

(** [fileData?.content] and [fileData?.agent] *)
Definition contentOf (fileData : option YamlFile) : JsValue :=
  match fileData with Some f => JStr (content f) | None => JUndefined end.
Definition agentOf (fileData : option YamlFile) : JsValue :=
  match fileData with Some f => JStr (agent f) | None => JUndefined end.

Definition structureNode (yamlData : YamlData) : FileNode.t :=
  fileNode "src/structure.yaml" "structure.yaml"
    (contentOf (structureYaml yamlData)) (agentOf (structureYaml yamlData))
    "yaml".

(** The edge pushed for [dep]: from the dependency to the file. *)
Definition dependencyEdge (fullPath dep : string) : FileEdge.t :=
  {| FileEdge.id := fullPath +:+ "-" +:+ dep;
     FileEdge.source := dep;
     FileEdge.target := fullPath |}.

(** The branch for a single file under [src].  The guard
    [fileData.dependency && fileData.dependency.length > 0] around the
    [forEach] changes nothing for a list: over the empty list the loop does
    nothing. *)
Definition addSingleFile (key : string) (fileData : YamlFile)
    (st : FlatState) : FlatState :=
  let fullPath := "src/" +:+ key in
  {| nodes := nodes st ++
       [fileNode fullPath key (JStr (content fileData))
          (JStr (agent fileData)) (orEmpty (pop (split "." key)))];
     edges := edges st ++ (dependencyEdge fullPath <$> dependency fileData);
     agents := setAdd (JStr (agent fileData)) (agents st);
     randomCalls := randomCalls st |}.

(** The callback for one file of a directory: only the dependencies that
    start with [src/] become edges. *)
Definition addDirectoryFile (key : string) (entry : string * YamlFile)
    (st : FlatState) : FlatState :=
  let '(filename, fileData) := entry in
  let fullPath := "src/" +:+ key +:+ "/" +:+ filename in
  {| nodes := nodes st ++
       [fileNode fullPath filename (JStr (content fileData))
          (JStr (agent fileData)) (orEmpty (pop (split "." filename)))];
     edges := edges st ++
       (dependencyEdge fullPath <$>
          filter (λ dep, String.prefix "src/" dep = true) (dependency fileData));
     agents := setAdd (JStr (agent fileData)) (agents st);
     randomCalls := randomCalls st |}.

(** The callback of [Object.entries(yamlData.src).forEach]. *)
Definition addEntry (st : FlatState) (entry : string * SrcEntry) : FlatState :=
  let '(key, value) := entry in
  if decide (key = "structure.yaml") then st
  else match value with
       | SingleFile fileData => addSingleFile key fileData st
       | Directory files =>
           foldl (λ st entry, addDirectoryFile key entry st) st files
       end.

Definition flatten (yamlData : YamlData) : FlatState :=
  foldl addEntry
    {| nodes := [structureNode yamlData];
       edges := [];
       agents := setAdd (agentOf (structureYaml yamlData)) [];
       randomCalls := 0 |}
    (src yamlData).

Definition generateNodesAndEdges (fuel : nat) (yamlData : YamlData)
  : Outcome Graph :=
  let st := flatten yamlData in
  match calculateNodePositions spacing_literal fuel (nodes st) (edges st) with
  | Some positions =>
      Returned
        {| graphNodes := applyPositions positions <$> nodes st;
           graphEdges := edges st;
           graphAgents := agents st |}
  | None => RangeError
  end.

Definition colors : list (string * string) :=
  [ ("png", "#4CAF50"); ("glb", "#2196F3"); ("css", "#9C27B0");
    ("marp", "#FF9800"); ("mmd", "#795548"); ("mp4", "#F44336");
    ("mp3", "#E91E63"); ("md", "#607D8B"); ("yaml", "#FFC107") ].

(** [colors[extension] || "#9E9E9E"] *)
Definition getExtensionColor (extension : string) : ColorValue :=
  lookupOr colors extension "#9E9E9E".

End StructureFirst.

(** ** Paths of the edge list *)

(** [walk edges a k b]: [k] edges of the list lead from [a] to [b]. *)
Inductive walk (edges : list FileEdge.t) : string → nat → string → Prop :=
  | walk_here a : walk edges a 0 a
  | walk_edge a e k b :
      e ∈ edges → FileEdge.source e = a →
      walk edges (FileEdge.target e) k b →
      walk edges a (S k) b.

(** A dependency cycle through [c]. *)
Definition onCycle (edges : list FileEdge.t) (c : string) : Prop :=
  ∃ k, walk edges c (S k) c.

(** A cycle that the walk from a root node meets. *)
Definition cycleFromRoot (nodes : list FileNode.t) (edges : list FileEdge.t)
  : Prop :=
  ∃ r k c, r ∈ startNodes nodes edges ∧ walk edges r k c ∧ onCycle edges c.

(** [reachedAt nodes edges n d]: the walk from some root node arrives at [n]
    at depth [d]. *)
Definition reachedAt (nodes : list FileNode.t) (edges : list FileEdge.t)
    (n : string) (d : nat) : Prop :=
  ∃ r, r ∈ startNodes nodes edges ∧ walk edges r d n.

(** ** The visits of the level walk *)

(** The calls [calculateLevel(nodeId, level)] that one call sets off, in the
    order they are made; the state a call leaves is the fold of [visit]
    over this list ([calculateLevel_visits] below). *)
Fixpoint visitsFrom (fuel : nat) (edges : list FileEdge.t) (nodeId : string)
    (level : nat) : option (list (string * nat)) :=
  match fuel with
  | O => None
  | S fuel' =>
      match mapM (λ edge, visitsFrom fuel' edges (FileEdge.target edge) (level + 1))
                 (filter (λ edge, FileEdge.source edge = nodeId) edges) with
      | Some below => Some ((nodeId, level) :: concat below)
      | None => None
      end
  end.

Definition applyVisits (st : LevelState) (vs : list (string * nat))
  : LevelState :=
  foldl (λ st v, visit v.1 v.2 st) st vs.

Definition allVisits (fuel : nat) (nodes : list FileNode.t)
    (edges : list FileEdge.t) : option (list (string * nat)) :=
  (λ vss, concat vss) <$>
    mapM (λ r, visitsFrom fuel edges r 0) (startNodes nodes edges).

(** The ids listed under key [level] of [nodesPerLevel]. *)
Fixpoint idsAt (npl : list (nat * list string)) (level : nat) : list string :=
  match npl with
  | [] => []
  | (k, ids) :: rest => if decide (k = level) then ids else idsAt rest level
  end.

(** The walk from [n] meets a dependency cycle. *)
Definition meetsCycle (edges : list FileEdge.t) (n : string) : Prop :=
  ∃ k c, walk edges n k c ∧ onCycle edges c.

(** The index of the last occurrence of [n] in a level's list: the index
    whose assignment to [positions[n]] is the last one of that level. *)
Fixpoint lastIndex (n : string) (ids : list string) : option nat :=
  match ids with
  | [] => None
  | a :: rest =>
      match lastIndex n rest with
      | Some j => Some (S j)
      | None => if decide (a = n) then Some 0 else None
      end
  end.

(** The last object assigned to [positions[n]] while the levels are placed
    in the order of the listing. *)
Fixpoint finalSlot (cfg : Spacing) (npl : list (nat * list string))
    (n : string) : option Position.t :=
  match npl with
  | [] => None
  | (levelNum, ids) :: rest =>
      match finalSlot cfg rest n with
      | Some p => Some p
      | None =>
          match lastIndex n ids with
          | Some j => Some (slot cfg levelNum (length ids) j)
          | None => None
          end
      end
  end.

(** The keys of the listing ascend strictly. *)
Definition keysAscend (npl : list (nat * list string)) : Prop :=
  StronglySorted lt npl.*1.

(** ** The extent of a level in the returned position map *)

(** [xmin] is the least x-coordinate among the nodes whose position has the
    vertical coordinate [yv]; [xmax] is the greatest. *)
Definition levelMinX (positions : gmap string Position.t) (yv xmin : Q)
  : Prop :=
  (∃ n p, positions !! n = Some p ∧ (Position.y p == yv)%Q
          ∧ (Position.x p == xmin)%Q) ∧
  ∀ n p, positions !! n = Some p → (Position.y p == yv)%Q →
         (xmin <= Position.x p)%Q.

Definition levelMaxX (positions : gmap string Position.t) (yv xmax : Q)
  : Prop :=
  (∃ n p, positions !! n = Some p ∧ (Position.y p == yv)%Q
          ∧ (Position.x p == xmax)%Q) ∧
  ∀ n p, positions !! n = Some p → (Position.y p == yv)%Q →
         (Position.x p <= xmax)%Q.

(** Every edge of the state points at a node of the state. *)
Definition targetsAreNodes (st : FlatState) : Prop :=
  ∀ e, e ∈ edges st → FileEdge.target e ∈ FileNode.id <$> nodes st.

(** ** Values the flattener passes over *)


(** [leafAt content parentPath path leaf]: the traversal of [content],
    started at [parentPath], arrives at the leaf-shaped value [leaf] with
    the accumulated path [path]. *)
Inductive leafAt : JsValue → string → string → JsValue → Prop :=
  | leafAt_here content path :
      isYamlFile content = true → leafAt content path path content
  | leafAt_below content parentPath entries key value path leaf :
      isYamlFile content = false →
      objectEntries content = Some entries →
      (key, value) ∈ entries →
      leafAt value (childPath parentPath key) path leaf →
      leafAt content parentPath path leaf.

(** A node without its position, and a state or a graph without the
    positions of its nodes. *)
Definition withoutPosition (node : FileNode.t) : FileNode.t :=
  {| FileNode.id := FileNode.id node;
     FileNode.type := FileNode.type node;
     FileNode.data := FileNode.data node;
     FileNode.position := {| Position.x := 0; Position.y := 0 |};
     FileNode.style := FileNode.style node |}.

Definition stateWithoutPositions (st : FlatState) : FlatState :=
  {| nodes := withoutPosition <$> nodes st;
     edges := edges st;
     agents := agents st;
     randomCalls := randomCalls st |}.


Definition mapOutcome {A B : Type} (f : A → B) (o : Outcome A) : Outcome B :=
  match o with
  | Returned a => Returned (f a)
  | TypeError => TypeError
  | RangeError => RangeError
  end.

(** ** Sample inputs *)

(** A well-formed leaf of the tree. *)
Definition yamlFile (content : string) (dependency : list string)
    (agent : string) : JsValue :=
  JObj [ ("content", JStr content); ("dependency", JArr dependency);
         ("agent", JStr agent); ("api", JArr []) ].

(** A node as the layout reads it: only [id] matters there. *)
Definition nodeWithId (id : string) : FileNode.t :=
  StructureFirst.fileNode id id JUndefined JUndefined "".

(** [main.ts] depends on [a.ts], and [a.ts] and [b.ts] on each other. *)
Definition cyclicNodes : list FileNode.t :=
  [nodeWithId "src/main.ts"; nodeWithId "src/a.ts"; nodeWithId "src/b.ts"].
Definition cyclicEdges : list FileEdge.t :=
  [ dependencyEdge "src/main.ts" "src/a.ts";
    dependencyEdge "src/a.ts" "src/b.ts";
    dependencyEdge "src/b.ts" "src/a.ts" ].

(** [main.ts] depends on [a.ts] and [util.ts], and [a.ts] on [util.ts]:
    the walk reaches [util.ts] at depth 1 and at depth 2. *)
Definition diamondNodes : list FileNode.t :=
  [nodeWithId "src/main.ts"; nodeWithId "src/a.ts"; nodeWithId "src/util.ts"].
Definition diamondEdges : list FileEdge.t :=
  [ dependencyEdge "src/main.ts" "src/a.ts";
    dependencyEdge "src/main.ts" "src/util.ts";
    dependencyEdge "src/a.ts" "src/util.ts" ].

(** [main.ts] depends on [a.ts], nothing else. *)
Definition chainNodes : list FileNode.t :=
  [nodeWithId "src/main.ts"; nodeWithId "src/a.ts"].
Definition chainEdges : list FileEdge.t :=
  [dependencyEdge "src/main.ts" "src/a.ts"].

(** The empty tree [{src: {}}], for either flattener. *)
Definition emptyTree : JsValue := JObj [("src", JObj [])].
Definition emptyYamlData : StructureFirst.YamlData :=
  {| StructureFirst.structureYaml := None; StructureFirst.src := [] |}.



(** [{src: {"a.ts": {..., dependency: ["src/missing.ts"], ...}}}] *)
Definition danglingTree : JsValue :=
  JObj [("src", JObj [("a.ts", yamlFile "x" ["src/missing.ts"] "B")])].


(** Two oracles: every draw yields 0, and every draw yields 0.5. *)
Definition randomZero : nat → Q := λ _, 0%Q.

(** ** components/YamlVisualizer.tsx *)

(** [xs.join(sep)] for an array of strings. *)
Fixpoint join (sep : string) (xs : list string) : string :=
  match xs with
  | [] => ""
  | x :: rest =>
      match rest with
      | [] => x
      | _ :: _ => x +:+ sep +:+ join sep rest
      end
  end.

Definition newline : ascii := "010"%char.

(** What [CustomNode] prints of a node's content:
    [data.content?.split("\n").slice(0, 2).join("\n")].  The optional chain
    yields [undefined] on [undefined] and [null]; a value that is neither
    these nor a string has no method [split]. *)
Definition contentPreview (content : JsValue) : Outcome (option string) :=
  match content with
  | JUndefined | JNull => Returned None
  | JStr s => Returned (Some (join (String newline "") (take 2 (split newline s))))
  | JBool _ | JNum _ | JArr _ | JObj _ => TypeError
  end.

(** The truthiness of a value, as [filter((agent) => agent)] tests it. *)
Definition truthy (value : JsValue) : bool :=
  match value with
  | JUndefined | JNull => false
  | JBool b => b
  | JNum n => negb (Qeq_bool n 0)
  | JStr s => negb (bool_decide (s = ""))
  | JArr _ | JObj _ => true
  end.

(** [Array.from(agents).filter((agent) => agent)]: the agents listed below
    the graph. *)
Definition shownAgents (agents : list JsValue) : list JsValue :=
  List.filter truthy agents.

(** The position [handleAutoLayout] gives to the node at [index]: three
    columns, [column = index % 3] and [row = Math.floor(index / 3)]. *)
Definition gridPosition (index : nat) : Position.t :=
  {| Position.x := (num (index mod 3) * Constant.defaultHorizontalSpacing)%Q;
     Position.y := (num (index / 3) * Constant.defaultVerticalSpacing)%Q |}.

(** [nodes.map((node, index) => ({ ...node, position: ... }))] of
    [handleAutoLayout]. *)
Definition autoLayout (nodes : list FileNode.t) : list FileNode.t :=
  imap (λ index node,
          {| FileNode.id := FileNode.id node;
             FileNode.type := FileNode.type node;
             FileNode.data := FileNode.data node;
             FileNode.position := gridPosition index;
             FileNode.style := FileNode.style node |}) nodes.

(** ** app/page.tsx: the state of [Home] *)

(** The three [useState] cells; [yamlData] holds [null] ([JNull]) when
    there is nothing to show. *)
Record PageState : Type := {
  yamlData : JsValue;
  yamlText : string;
  parseError : option string
}.

Definition initialPageState : PageState :=
  {| yamlData := JNull; yamlText := ""; parseError := None |}.

Definition parseFailureMessage : string :=
  "YAMLの解析に失敗しました。内容を確認してください。".

(** What the user or the timer does: typing ([handleYamlChange], which
    stores the text and arms the debounced parse), the debounced call of
    [parseInputYaml] with the text it was armed with, and a click on either
    reset button. *)
Inductive PageEvent : Type :=
  | Typed (text : string)
  | ParseDue (text : string)
  | ResetClicked.

Section Page.

(** [parseYaml] of js-yaml ([None]: it throws) and the test
    [text.trim() === ""] are the runtime's. *)
Variable parseYaml : string → option JsValue.
Variable isBlank : string → bool.

Definition parseInputYaml (text : string) (st : PageState) : PageState :=
  if isBlank text then
    {| yamlData := JNull; yamlText := yamlText st; parseError := None |}
  else
    match parseYaml text with
    | Some data =>
        {| yamlData := data; yamlText := yamlText st; parseError := None |}
    | None =>
        {| yamlData := JNull; yamlText := yamlText st;
           parseError := Some parseFailureMessage |}
    end.

Definition handleReset (st : PageState) : PageState :=
  {| yamlData := JNull; yamlText := ""; parseError := None |}.

Definition pageStep (st : PageState) (event : PageEvent) : PageState :=
  match event with
  | Typed text =>
      {| yamlData := yamlData st; yamlText := text;
         parseError := parseError st |}
  | ParseDue text => parseInputYaml text st
  | ResetClicked => handleReset st
  end.

(** The two panes of the page: the error line is there when [parseError] is
    set, the graph when [yamlData] is truthy. *)
Definition errorShown (st : PageState) : bool :=
  match parseError st with Some _ => true | None => false end.
Definition graphShown (st : PageState) : bool := truthy (yamlData st).

End Page.

(** ** Values the traversal of [processDirectory] arrives at *)

(** [visitedAt content parentPath path value]: the traversal of [content],
    started at [parentPath], calls [processDirectory(value, path)]. *)
Inductive visitedAt : JsValue → string → string → JsValue → Prop :=
  | visitedAt_here content path : visitedAt content path path content
  | visitedAt_below content parentPath entries key value path v :
      isYamlFile content = false →
      objectEntries content = Some entries →
      (key, value) ∈ entries →
      visitedAt value (childPath parentPath key) path v →
      visitedAt content parentPath path v.

(** A value on which a call of [processDirectory] cannot return: [null] or
    [undefined], a non-empty string, or a leaf whose [dependency] is not a
    sequence. *)
Definition failsAt (value : JsValue) : Prop :=
  match value with
  | JUndefined | JNull => True
  | JStr s => s ≠ ""
  | JObj _ =>
      isYamlFile value = true ∧
      ∀ dependency, getProperty "dependency" value ≠ JArr dependency
  | JBool _ | JNum _ | JArr _ => False
  end.

(** The paths of the tree under [src]. *)
Definition underSrc (path : string) : Prop :=
  path = "src" ∨ String.prefix "src/" path = true.

(** ** The agent set and the node list *)

(** What holds between the node list and the agent set while the flattener
    pushes nodes: every node's agent is in the set (itself, or an entry
    [Set.prototype.add] takes for the same value), every entry is the agent
    of a node, no two entries are the same value, and the set is no larger
    than the list. *)
Definition agentsRecorded (nodes : list FileNode.t) (agents : list JsValue)
  : Prop :=
  (∀ node, node ∈ nodes →
     ∃ b, b ∈ agents ∧
          (b = NodeData.agent (FileNode.data node)
           ∨ sameValueZero (NodeData.agent (FileNode.data node)) b = true)) ∧
  (∀ b, b ∈ agents →
     ∃ node, node ∈ nodes ∧ NodeData.agent (FileNode.data node) = b) ∧
  (∀ i j a b, agents !! i = Some a → agents !! j = Some b →
     sameValueZero a b = true → i = j) ∧
  length agents ≤ length nodes.

(** How deep the values the traversal of [value] descends into are nested:
    one less than the call depth the traversal needs.  A leaf is not
    descended into. *)
Fixpoint nesting (value : JsValue) : nat :=
  match value with
  | JObj props =>
      if isYamlFile value then 0
      else S ((fix below (props : list (string * JsValue)) : nat :=
                 match props with
                 | [] => 0
                 | (_, v) :: rest => Nat.max (nesting v) (below rest)
                 end) props)
  | JArr _ => 1
  | JUndefined | JNull | JBool _ | JNum _ | JStr _ => 0
  end.

(** ** The state of the flattener that starts with [structure.yaml] *)

(** What the node list and the edge list of that flattener look like at any
    time: the [structure.yaml] node, then nodes whose ids start with [src/]
    and differ from [src/structure.yaml]; every edge ends at one of these
    and is named after its target and its source. *)
Definition structureFirstShape (yamlData : StructureFirst.YamlData)
    (st : FlatState) : Prop :=
  ∃ rest,
    nodes st = StructureFirst.structureNode yamlData :: rest ∧
    (∀ node, node ∈ rest →
       String.prefix "src/" (FileNode.id node) = true ∧
       FileNode.id node ≠ "src/structure.yaml") ∧
    (∀ e, e ∈ edges st →
       FileEdge.target e ∈ FileNode.id <$> rest ∧
       FileEdge.id e = FileEdge.target e +:+ "-" +:+ FileEdge.source e).

(** [{src: {"structure.yaml": ..., "README.md": ..., docs: {"guide.md":
    ...}}}]: [README.md] depends on [structure.yaml], and [guide.md] on
    [README.md] and on a path outside [src]. *)
Definition plainFile (content : string) (dependency : list string)
    (agent : string) : StructureFirst.YamlFile :=
  {| StructureFirst.content := content;
     StructureFirst.dependency := dependency;
     StructureFirst.agent := agent;
     StructureFirst.api := [];
     StructureFirst.dependency_wait := None |}.
Definition docsYamlData : StructureFirst.YamlData :=
  {| StructureFirst.structureYaml := Some (plainFile "tree" [] "");
     StructureFirst.src :=
       [ ("structure.yaml", StructureFirst.SingleFile (plainFile "tree" [] ""));
         ("README.md",
          StructureFirst.SingleFile
            (plainFile "readme" ["src/structure.yaml"] "writer"));
         ("docs",
          StructureFirst.Directory
            [("guide.md",
              plainFile "guide" ["src/README.md"; "lib/util.ts"] "writer")]) ] |}.

(** [{src: {"structure.yaml": ..., "README.md": ...}}]: [README.md], a file
    directly under [src], depends on [structure.yaml] and on a path that is
    no node. *)
Definition outsideYamlData : StructureFirst.YamlData :=
  {| StructureFirst.structureYaml := Some (plainFile "tree" [] "");
     StructureFirst.src :=
       [ ("structure.yaml", StructureFirst.SingleFile (plainFile "tree" [] ""));
         ("README.md",
          StructureFirst.SingleFile
            (plainFile "readme" ["src/structure.yaml"; "lib/util.ts"]
               "writer")) ] |}.

(** [main.ts] depends on [a.ts] and on [b.ts]: two nodes on level 1. *)
Definition fanNodes : list FileNode.t :=
  [nodeWithId "src/main.ts"; nodeWithId "src/a.ts"; nodeWithId "src/b.ts"].
Definition fanEdges : list FileEdge.t :=
  [ dependencyEdge "src/main.ts" "src/a.ts";
    dependencyEdge "src/main.ts" "src/b.ts" ].

(** [{src: {"main.ts": ..., "a.ts": ...}}]: [main.ts] depends on [a.ts]. *)
Definition chainTree : JsValue :=
  JObj [("src", JObj [ ("main.ts", yamlFile "m" ["src/a.ts"] "A");
                       ("a.ts", yamlFile "a" [] "B") ])].

(** ** The leaves of the tree and what the flattener pushes *)

(** [leafIn entries parentPath path leaf]: the traversal of some entry of a
    directory at [parentPath] arrives at the leaf [leaf] with path
    [path]. *)
Definition leafIn (entries : list (string * JsValue)) (parentPath : string)
    (path : string) (leaf : JsValue) : Prop :=
  ∃ key value,
    (key, value) ∈ entries ∧ leafAt value (childPath parentPath key) path leaf.

(** The node [node] stands for the leaf [leaf] at [path]. *)
Definition nodeOfLeaf (node : FileNode.t) (path : string) (leaf : JsValue)
  : Prop :=
  FileNode.id node = path ∧
  NodeData.content (FileNode.data node) = getProperty "content" leaf ∧
  NodeData.agent (FileNode.data node) = getProperty "agent" leaf.

(** The nodes and edges pushed are those of the leaves [isLeaf] holds of:
    a node for every leaf and no other node, and edges only from a leaf to
    an entry of its [dependency]. *)
Definition leavesFlattened (isLeaf : string → JsValue → Prop)
    (newNodes : list FileNode.t) (newEdges : list FileEdge.t) : Prop :=
  (∀ node, node ∈ newNodes →
     ∃ leaf, isLeaf (FileNode.id node) leaf ∧
             nodeOfLeaf node (FileNode.id node) leaf) ∧
  (∀ path leaf, isLeaf path leaf →
     ∃ node, node ∈ newNodes ∧ nodeOfLeaf node path leaf) ∧
  (∀ e, e ∈ newEdges →
     ∃ leaf dependency,
       isLeaf (FileEdge.source e) leaf ∧
       getProperty "dependency" leaf = JArr dependency ∧
       FileEdge.target e ∈ dependency).

(** * Theorems *)

(** ** The walk as a list of visits *)

Lemma applyVisits_app st vs ws :
  applyVisits st (vs ++ ws) = applyVisits (applyVisits st vs) ws.
Proof. unfold applyVisits. apply foldl_app. Qed.

Lemma forEachM_visits {A : Type} (f : A → LevelState → option LevelState)
    (g : A → option (list (string * nat))) (xs : list A) :
  (∀ a s, a ∈ xs → f a s = applyVisits s <$> g a) →
  ∀ s, forEachM f xs s = (λ vss, applyVisits s (concat vss)) <$> mapM g xs.
Proof.
  induction xs as [|a xs IH]; intros Hfg s; [done|].
  cbn. rewrite Hfg by left.
  destruct (g a) as [vs|]; cbn; [|done].
  rewrite IH by (intros; apply Hfg; by right).
  destruct (mapM g xs) as [vss|]; cbn; [|done].
  by rewrite applyVisits_app.
Qed.

Lemma calculateLevel_visits edges fuel :
  ∀ nodeId level st,
    calculateLevel fuel edges nodeId level st
    = applyVisits st <$> visitsFrom fuel edges nodeId level.
Proof.
  induction fuel as [|fuel IH]; intros nodeId level st; [done|].
  cbn [calculateLevel visitsFrom].
  rewrite (forEachM_visits _
    (λ edge, visitsFrom fuel edges (FileEdge.target edge) (level + 1)))
    by (intros; apply IH).
  by destruct (mapM _ _).
Qed.

Lemma calculateLevels_visits fuel nodes edges :
  calculateLevels fuel nodes edges
  = applyVisits emptyLevelState <$> allVisits fuel nodes edges.
Proof.
  unfold calculateLevels, allVisits.
  rewrite (forEachM_visits _ (λ r, visitsFrom fuel edges r 0))
    by (intros; apply calculateLevel_visits).
  by destruct (mapM _ _).
Qed.

(** ** Walks *)

Lemma walk_app edges a j b k c :
  walk edges a j b → walk edges b k c → walk edges a (j + k) c.
Proof.
  induction 1 as [a|a e j b He Hs _ IH]; intros Hbc; [done|].
  cbn. eapply walk_edge; eauto.
Qed.

Lemma walk_snoc edges a j b e :
  walk edges a j b → e ∈ edges → FileEdge.source e = b →
  walk edges a (S j) (FileEdge.target e).
Proof.
  intros Hab He Hs. replace (S j) with (j + 1) by lia.
  eapply walk_app; [done|]. eapply walk_edge; [done..|]. constructor.
Qed.

Lemma meetsCycle_step edges n :
  meetsCycle edges n →
  ∃ e, e ∈ edges ∧ FileEdge.source e = n ∧ meetsCycle edges (FileEdge.target e).
Proof.
  intros (k & c & Hw & Hc). inversion Hw as [|a e k' b He Hs Hw']; subst.
  - destruct Hc as [j Hj]. inversion Hj as [|a e k' b He Hs Hw']; subst.
    exists e. repeat split; [done|]. exists j, (FileEdge.source e).
    split; [done|]. by exists j.
  - exists e. repeat split; [done|]. by exists k', c.
Qed.

Lemma meetsCycle_back edges e :
  e ∈ edges → meetsCycle edges (FileEdge.target e) →
  meetsCycle edges (FileEdge.source e).
Proof.
  intros He (k & c & Hw & Hc). exists (S k), c. split; [|done].
  by eapply walk_edge.
Qed.

Lemma cycleFromRoot_meets nodes edges :
  cycleFromRoot nodes edges ↔
  ∃ r, r ∈ startNodes nodes edges ∧ meetsCycle edges r.
Proof.
  unfold cycleFromRoot, meetsCycle. split.
  - intros (r & k & c & ? & ? & ?). eauto 6.
  - intros (r & ? & k & c & ? & ?). eauto 6.
Qed.

(** ** Which visits are made, and when the walk returns *)

Lemma elem_of_concat {A : Type} (x : A) (ls : list (list A)) :
  x ∈ concat ls ↔ ∃ l, l ∈ ls ∧ x ∈ l.
Proof.
  rewrite list_elem_of_In, in_concat. split.
  - intros (l & ? & ?). exists l. by rewrite !list_elem_of_In.
  - intros (l & ? & ?). exists l. by rewrite <- !list_elem_of_In.
Qed.

Lemma visitsFrom_walk edges fuel :
  ∀ n l vs, visitsFrom fuel edges n l = Some vs →
    ∀ m d, (m, d) ∈ vs ↔ ∃ k, d = l + k ∧ walk edges n k m.
Proof.
  induction fuel as [|fuel IH]; intros n l vs Hvs m d; [done|].
  cbn in Hvs.
  destruct (mapM _ _) as [below|] eqn:Hbelow; [|done].
  injection Hvs as <-. apply mapM_Some in Hbelow.
  rewrite elem_of_cons, elem_of_concat. split.
  - intros [[= -> ->]|(vs' & Hin & Hmd)].
    + exists 0. split; [lia|constructor].
    + apply list_elem_of_lookup in Hin as [i Hi].
      destruct (Forall2_lookup_r _ _ _ _ _ Hbelow Hi) as (e & He & Hev).
      apply list_elem_of_lookup_2, list_elem_of_filter in He as [Hs He].
      destruct (proj1 (IH _ _ _ Hev m d) Hmd) as (k & -> & Hw).
      exists (S k). split; [lia|]. by eapply walk_edge.
  - intros (k & -> & Hw).
    inversion Hw as [|a e k' b He Hs Hw']; subst.
    + left. f_equal. lia.
    + right.
      assert (e ∈ filter (λ edge, FileEdge.source edge = FileEdge.source e) edges)
        as Hin by (by apply list_elem_of_filter).
      apply list_elem_of_lookup in Hin as [i Hi].
      destruct (Forall2_lookup_l _ _ _ _ _ Hbelow Hi) as (vs' & Hvs' & Hev).
      exists vs'. split; [by eapply list_elem_of_lookup_2|].
      apply (IH _ _ _ Hev). exists k'. split; [lia|done].
Qed.

Lemma visitsFrom_mono edges fuel :
  ∀ fuel' n l vs, visitsFrom fuel edges n l = Some vs → fuel ≤ fuel' →
    visitsFrom fuel' edges n l = Some vs.
Proof.
  induction fuel as [|fuel IH]; intros fuel' n l vs Hvs Hle; [done|].
  destruct fuel' as [|fuel']; [lia|]. cbn in *.
  destruct (mapM _ _) as [below|] eqn:Hbelow; [|done].
  apply mapM_Some in Hbelow.
  assert (mapM (λ edge, visitsFrom fuel' edges (FileEdge.target edge) (l + 1))
            (filter (λ edge, FileEdge.source edge = n) edges) = Some below)
    as ->; [|done].
  apply mapM_Some. eapply Forall2_impl; [done|].
  intros e vs' Hev. cbn in *. apply IH; [done|lia].
Qed.

Lemma visitsFrom_diverges edges fuel :
  ∀ n l, meetsCycle edges n → visitsFrom fuel edges n l = None.
Proof.
  induction fuel as [|fuel IH]; intros n l Hn; [done|].
  cbn. destruct (mapM _ _) as [below|] eqn:Hbelow; [|done].
  exfalso. apply mapM_Some in Hbelow.
  destruct (meetsCycle_step _ _ Hn) as (e & He & Hs & Ht).
  assert (e ∈ filter (λ edge, FileEdge.source edge = n) edges)
    as Hin by (by apply list_elem_of_filter).
  apply list_elem_of_lookup in Hin as [i Hi].
  destruct (Forall2_lookup_l _ _ _ _ _ Hbelow Hi) as (vs' & _ & Hev).
  cbn in Hev. by rewrite IH in Hev.
Qed.

(** A call of [calculateLevel] whose ancestors on the stack are [p]: the
    ancestors are distinct sources of edges, so a stack deeper than the edge
    list is long needs a cycle. *)
Lemma visitsFrom_returns_under edges fuel :
  ∀ n l (p : list string),
    NoDup p →
    (∀ a, a ∈ p → a ∈ (FileEdge.source <$> edges) ∧ ∃ k, walk edges a (S k) n) →
    ¬ meetsCycle edges n →
    length edges < fuel + length p →
    is_Some (visitsFrom fuel edges n l).
Proof.
  induction fuel as [|fuel IH]; intros n l p Hnd Hp Hn Hlen.
  - exfalso.
    assert (p ⊆+ FileEdge.source <$> edges) as Hsub
      by (apply NoDup_submseteq; [done|]; intros a Ha; by apply Hp).
    apply submseteq_length in Hsub. rewrite length_fmap in Hsub. lia.
  - cbn.
    assert (is_Some (mapM
      (λ edge, visitsFrom fuel edges (FileEdge.target edge) (l + 1))
      (filter (λ edge, FileEdge.source edge = n) edges))) as [below ->];
      [|done].
    apply mapM_is_Some, Forall_forall. intros e [Hs He]%list_elem_of_filter.
    cbn. apply (IH _ _ (n :: p)).
    + constructor; [|done]. intros Hin.
      destruct (Hp _ Hin) as [_ [k Hk]].
      apply Hn. exists 0, n. split; [constructor|by exists k].
    + intros a [->|Ha]%elem_of_cons.
      * split; [rewrite <- Hs; by apply list_elem_of_fmap_2|].
        exists 0. eapply walk_edge; [done..|constructor].
      * destruct (Hp _ Ha) as [Hsrc [k Hk]]. split; [done|].
        exists (S k). by eapply walk_snoc.
    + intros Ht. apply Hn. rewrite <- Hs. by apply meetsCycle_back.
    + cbn. lia.
Qed.

Lemma visitsFrom_returns edges n l :
  ¬ meetsCycle edges n → is_Some (visitsFrom (S (length edges)) edges n l).
Proof.
  intros Hn. apply (visitsFrom_returns_under _ _ _ _ []); [constructor| |done|].
  - intros a Ha. by apply elem_of_nil in Ha.
  - cbn. lia.
Qed.

Lemma allVisits_returns nodes edges :
  ¬ cycleFromRoot nodes edges →
  is_Some (allVisits (S (length edges)) nodes edges).
Proof.
  intros Hno. unfold allVisits.
  assert (is_Some (mapM (λ r, visitsFrom (S (length edges)) edges r 0)
                     (startNodes nodes edges))) as [vss ->]; [|done].
  apply mapM_is_Some, Forall_forall. intros r Hr.
  apply visitsFrom_returns. intros Hm. apply Hno, cycleFromRoot_meets. eauto.
Qed.

Lemma allVisits_diverges fuel nodes edges :
  cycleFromRoot nodes edges → allVisits fuel nodes edges = None.
Proof.
  intros (r & Hr & Hm)%cycleFromRoot_meets. unfold allVisits.
  destruct (mapM _ _) as [vss|] eqn:Hvss; [|done]. exfalso.
  apply mapM_Some in Hvss.
  apply list_elem_of_lookup in Hr as [i Hi].
  destruct (Forall2_lookup_l _ _ _ _ _ Hvss Hi) as (vs & _ & Hev).
  cbn in Hev. by rewrite visitsFrom_diverges in Hev.
Qed.

Lemma allVisits_mono fuel fuel' nodes edges vs :
  allVisits fuel nodes edges = Some vs → fuel ≤ fuel' →
  allVisits fuel' nodes edges = Some vs.
Proof.
  unfold allVisits. intros Hvs Hle.
  destruct (mapM _ _) as [vss|] eqn:Hvss; [|done].
  injection Hvs as <-. apply mapM_Some in Hvss.
  assert (mapM (λ r, visitsFrom fuel' edges r 0) (startNodes nodes edges)
          = Some vss) as ->; [|done].
  apply mapM_Some. eapply Forall2_impl; [done|].
  intros r vs' Hev. cbn in Hev. eapply visitsFrom_mono; [exact Hev|exact Hle].
Qed.

Lemma allVisits_reached fuel nodes edges vs :
  allVisits fuel nodes edges = Some vs →
  ∀ m d, (m, d) ∈ vs ↔ reachedAt nodes edges m d.
Proof.
  unfold allVisits, reachedAt. intros Hvs m d.
  destruct (mapM _ _) as [vss|] eqn:Hvss; [|done].
  injection Hvs as <-. apply mapM_Some in Hvss.
  rewrite elem_of_concat. split.
  - intros (vs & Hin & Hmd).
    apply list_elem_of_lookup in Hin as [i Hi].
    destruct (Forall2_lookup_r _ _ _ _ _ Hvss Hi) as (r & Hr & Hev).
    exists r. split; [by eapply list_elem_of_lookup_2|].
    destruct (proj1 (visitsFrom_walk _ _ _ _ _ Hev m d) Hmd) as (k & -> & Hw).
    done.
  - intros (r & Hr & Hw).
    apply list_elem_of_lookup in Hr as [i Hi].
    destruct (Forall2_lookup_l _ _ _ _ _ Hvss Hi) as (vs & Hvs & Hev).
    exists vs. split; [by eapply list_elem_of_lookup_2|].
    apply (visitsFrom_walk _ _ _ _ _ Hev). by exists d.
Qed.

(** ** The state the visits leave *)

Lemma setLevel_lookup n l lv m :
  setLevel n l lv !! m
  = if decide (n = m)
    then Some (match lv !! n with Some old => Nat.max old l | None => l end)
    else lv !! m.
Proof.
  unfold setLevel. case_decide as Hnm.
  - subst m. destruct (lv !! n); by rewrite lookup_insert_eq.
  - destruct (lv !! n); by rewrite lookup_insert_ne.
Qed.

Lemma levels_applyVisits_sound vs :
  ∀ st n d, levels (applyVisits st vs) !! n = Some d →
    levels st !! n = Some d ∨ (n, d) ∈ vs.
Proof.
  induction vs as [|[m l] vs IH]; intros st n d Hd; [by left|].
  cbn in Hd. destruct (IH _ _ _ Hd) as [Hv|Hin]; [|right; by right].
  cbn in Hv. rewrite setLevel_lookup in Hv. case_decide as Hmn; [|by left].
  subst m. destruct (levels st !! n) as [old|] eqn:Hold.
  - injection Hv as <-. destruct (Nat.max_spec old l) as [[_ ->]|[_ ->]].
    + right. left.
    + by left.
  - injection Hv as <-. right. left.
Qed.

Lemma levels_applyVisits_bound vs :
  ∀ st n d', levels st !! n = Some d' ∨ (n, d') ∈ vs →
    ∃ d, levels (applyVisits st vs) !! n = Some d ∧ d' ≤ d.
Proof.
  induction vs as [|[m l] vs IH]; intros st n d' Hd'.
  - destruct Hd' as [Hd'|Hd']; [by exists d'|by apply elem_of_nil in Hd'].
  - cbn.
    assert (∃ d, levels (visit m l st) !! n = Some d ∧ d' ≤ d ∨ (n, d') ∈ vs)
      as [d [[Hd Hle]|Hin]].
    { cbn. setoid_rewrite setLevel_lookup.
      destruct Hd' as [Hd'|[[= -> ->]|Hin]%elem_of_cons].
      - case_decide as Hmn.
        + subst m. rewrite Hd'. exists (Nat.max d' l). left. split; [done|lia].
        + exists d'. by left.
      - rewrite decide_True by done.
        destruct (levels st !! m) as [old|].
        + exists (Nat.max old l). left. split; [done|lia].
        + exists l. by left.
      - exists 0. by right. }
    + destruct (IH (visit m l st) n d (or_introl Hd)) as (d2 & Hd2 & Hle2).
      exists d2. split; [done|lia].
    + by apply IH; right.
Qed.

Lemma pushAtLevel_keys L n npl k :
  k ∈ (pushAtLevel L n npl).*1 ↔ k = L ∨ k ∈ npl.*1.
Proof.
  induction npl as [|[k' ids] npl IH]; cbn.
  - rewrite list_elem_of_singleton. split; [by left|].
    by intros [?|?%elem_of_nil].
  - destruct (decide (L = k')) as [->|?]; [cbn; rewrite !elem_of_cons; tauto|].
    destruct (decide (L < k')); cbn; rewrite !elem_of_cons; [done|].
    rewrite IH. tauto.
Qed.

Lemma pushAtLevel_ascend L n npl :
  keysAscend npl → keysAscend (pushAtLevel L n npl).
Proof.
  unfold keysAscend.
  induction npl as [|[k ids] npl IH]; cbn; intros Hs.
  - repeat constructor.
  - apply StronglySorted_inv in Hs as [Hs Hk].
    repeat case_decide; subst; cbn.
    + by constructor.
    + constructor; [by constructor|].
      constructor; [done|]. eapply Forall_impl; [done|]. cbn. lia.
    + constructor; [by apply IH|].
      apply Forall_forall. intros k' [->|Hk']%pushAtLevel_keys; [lia|].
      by eapply Forall_forall in Hk.
Qed.

Lemma idsAt_absent npl L : L ∉ npl.*1 → idsAt npl L = [].
Proof.
  induction npl as [|[k ids] npl IH]; cbn; [done|].
  rewrite not_elem_of_cons. intros [? ?]. by rewrite decide_False, IH.
Qed.

Lemma idsAt_pushAtLevel L n npl L' :
  keysAscend npl →
  idsAt (pushAtLevel L n npl) L'
  = if decide (L = L') then idsAt npl L ++ [n] else idsAt npl L'.
Proof.
  unfold keysAscend.
  induction npl as [|[k ids] npl IH]; cbn; intros Hs.
  - by repeat case_decide.
  - apply StronglySorted_inv in Hs as [Hs Hk].
    destruct (decide (L = k)) as [->|HLk]; cbn.
    { repeat case_decide; subst; done. }
    destruct (decide (L < k)) as [Hlt|Hge]; cbn.
    + destruct (decide (L = L')) as [->|HLL'].
      * rewrite decide_False by lia.
        rewrite idsAt_absent; [done|]. intros Hin.
        eapply Forall_forall in Hk; [|done]. lia.
      * done.
    + rewrite IH by done. by repeat case_decide; subst.
Qed.

Lemma idsAt_entry npl L ids :
  keysAscend npl → (L, ids) ∈ npl → idsAt npl L = ids.
Proof.
  unfold keysAscend.
  induction npl as [|[k ids'] npl IH]; cbn; intros Hs Hin.
  - by apply elem_of_nil in Hin.
  - apply StronglySorted_inv in Hs as [Hs Hk].
    apply elem_of_cons in Hin as [[= -> ->]|Hin]; [by rewrite decide_True|].
    rewrite decide_False; [by apply IH|].
    intros ->. eapply Forall_forall in Hk; [|by apply (list_elem_of_fmap_2 fst) in Hin].
    cbn in Hk. lia.
Qed.

Lemma idsAt_elem npl L n : n ∈ idsAt npl L → (L, idsAt npl L) ∈ npl.
Proof.
  induction npl as [|[k ids] npl IH]; cbn; [by intros ?%elem_of_nil|].
  case_decide; subst; [left|right; by apply IH].
Qed.

Lemma applyVisits_nodesPerLevel vs :
  ∀ st, keysAscend (nodesPerLevel st) →
    keysAscend (nodesPerLevel (applyVisits st vs)) ∧
    ∀ L, idsAt (nodesPerLevel (applyVisits st vs)) L
         = idsAt (nodesPerLevel st) L ++ (filter (λ v, v.2 = L) vs).*1.
Proof.
  induction vs as [|[m l] vs IH]; intros st Hs.
  - split; [done|]. intros L. cbn. by rewrite app_nil_r.
  - cbn. destruct (IH (visit m l st)) as [Hs' Hids].
    { by apply pushAtLevel_ascend. }
    split; [done|]. intros L. rewrite Hids. cbn.
    rewrite idsAt_pushAtLevel by done.
    destruct (decide (l = L)) as [->|?]; [|done].
    cbn. by rewrite <- app_assoc.
Qed.

(** ** The positions the listing yields *)

Lemma lastIndex_lookup n ids :
  ∀ j, lastIndex n ids = Some j → ids !! j = Some n.
Proof.
  induction ids as [|a ids IH]; intros j; cbn; [done|].
  destruct (lastIndex n ids) as [j'|].
  - intros [= <-]. cbn. by apply IH.
  - case_decide; [|done]. intros [= <-]. by subst.
Qed.

Lemma lastIndex_None n ids : lastIndex n ids = None ↔ n ∉ ids.
Proof.
  induction ids as [|a ids IH]; cbn.
  - split; [intros _; apply not_elem_of_nil|done].
  - rewrite not_elem_of_cons. destruct (lastIndex n ids) as [j|].
    + split; [done|]. intros [_ Hn]. by apply IH in Hn.
    + case_decide; subst; split; try done; [by intros [? _]|].
      intros _. split; [done|]. by apply IH.
Qed.

Lemma lastIndex_is_Some n ids : n ∈ ids → is_Some (lastIndex n ids).
Proof.
  intros Hin. destruct (lastIndex n ids) eqn:Hl; [done|].
  by apply lastIndex_None in Hl.
Qed.

Lemma lastIndex_NoDup n ids :
  NoDup ids → ∀ j, ids !! j = Some n → lastIndex n ids = Some j.
Proof.
  induction 1 as [|a ids Ha Hnd IH]; intros j Hj; [done|]. cbn.
  destruct j as [|j]; cbn in Hj.
  - injection Hj as ->.
    apply lastIndex_None in Ha. rewrite Ha. by rewrite decide_True.
  - by rewrite (IH _ Hj).
Qed.

Lemma placeFrom_lookup cfg L c ids :
  ∀ i m n,
    placeFrom cfg L c i ids m !! n
    = match lastIndex n ids with
      | Some j => Some (slot cfg L c (i + j))
      | None => m !! n
      end.
Proof.
  induction ids as [|a ids IH]; intros i m n; cbn; [done|].
  rewrite IH. destruct (lastIndex n ids) as [j|].
  - by replace (S i + j) with (i + S j) by lia.
  - case_decide as Han.
    + subst a. by rewrite lookup_insert_eq, Nat.add_0_r.
    + by rewrite lookup_insert_ne.
Qed.

Lemma foldl_placeLevel_lookup cfg npl :
  ∀ m n,
    foldl (placeLevel cfg) m npl !! n
    = match finalSlot cfg npl n with Some p => Some p | None => m !! n end.
Proof.
  induction npl as [|[L ids] npl IH]; intros m n; cbn; [done|].
  rewrite IH. destruct (finalSlot cfg npl n); [done|].
  unfold placeLevel. cbn. rewrite placeFrom_lookup.
  by destruct (lastIndex n ids).
Qed.

Lemma placeNodes_lookup cfg npl n :
  placeNodes cfg npl !! n = finalSlot cfg npl n.
Proof.
  unfold placeNodes. rewrite foldl_placeLevel_lookup.
  by destruct (finalSlot cfg npl n).
Qed.

Lemma finalSlot_is_Some cfg npl L ids n :
  (L, ids) ∈ npl → n ∈ ids → is_Some (finalSlot cfg npl n).
Proof.
  induction npl as [|[k ids'] npl IH]; intros Hin Hn.
  - by apply elem_of_nil in Hin.
  - cbn. destruct (finalSlot cfg npl n) eqn:Hf; [done|].
    apply elem_of_cons in Hin as [[= <- <-]|Hin].
    + by destruct (lastIndex_is_Some _ _ Hn) as [j ->].
    + destruct (IH Hin Hn) as [? ?]. done.
Qed.

Lemma finalSlot_Some cfg npl n p :
  keysAscend npl → finalSlot cfg npl n = Some p →
  ∃ L ids j,
    (L, ids) ∈ npl ∧ lastIndex n ids = Some j ∧
    p = slot cfg L (length ids) j ∧
    ∀ L' ids', (L', ids') ∈ npl → n ∈ ids' → L' ≤ L.
Proof.
  unfold keysAscend.
  induction npl as [|[k ids] npl IH]; cbn; intros Hs Hp; [done|].
  apply StronglySorted_inv in Hs as [Hs Hk].
  destruct (finalSlot cfg npl n) as [q|] eqn:Hq.
  - injection Hp as ->.
    destruct (IH Hs eq_refl) as (L & ids0 & j & Hin & Hj & -> & Hmax).
    exists L, ids0, j. repeat split; [by right|done|].
    intros L' ids' [[= -> ->]|Hin']%elem_of_cons Hn; [|by eapply Hmax].
    eapply Forall_forall in Hk; [|by apply (list_elem_of_fmap_2 fst) in Hin].
    cbn in Hk. lia.
  - destruct (lastIndex n ids) as [j|] eqn:Hj; [|done].
    injection Hp as <-. exists k, ids, j. repeat split; [left|done|].
    intros L' ids' [[= -> ->]|Hin']%elem_of_cons Hn; [done|].
    destruct (finalSlot_is_Some cfg _ _ _ _ Hin' Hn) as [q' Hq'].
    congruence.
Qed.

(** ** What a returned level computation has recorded *)

Section Computed.
Context {fuel : nat} {nodes : list FileNode.t} {edges : list FileEdge.t}
        {st : LevelState}.
Hypothesis Hrun : calculateLevels fuel nodes edges = Some st.

Lemma computed_visits :
  ∃ vs, allVisits fuel nodes edges = Some vs
        ∧ st = applyVisits emptyLevelState vs.
Proof using Hrun.
  rewrite calculateLevels_visits in Hrun.
  destruct (allVisits fuel nodes edges) as [vs|]; [|done].
  exists vs. split; [done|]. by injection Hrun.
Qed.

Lemma levels_reached n d :
  levels st !! n = Some d → reachedAt nodes edges n d.
Proof using Hrun.
  destruct computed_visits as (vs & Hvs & ->). intros Hd.
  apply levels_applyVisits_sound in Hd as [Hd|Hd]; [done|].
  by apply (allVisits_reached _ _ _ _ Hvs).
Qed.

Lemma reached_levels n d' :
  reachedAt nodes edges n d' → ∃ d, levels st !! n = Some d ∧ d' ≤ d.
Proof using Hrun.
  destruct computed_visits as (vs & Hvs & ->). intros Hd.
  apply levels_applyVisits_bound. right.
  by apply (allVisits_reached _ _ _ _ Hvs).
Qed.

Lemma levels_max n d :
  levels st !! n = Some d ↔
  reachedAt nodes edges n d ∧ ∀ d', reachedAt nodes edges n d' → d' ≤ d.
Proof using Hrun.
  split.
  - intros Hd. split; [by apply levels_reached|].
    intros d' (d2 & Hd2 & Hle)%reached_levels. congruence.
  - intros [Hd Hmax]. destruct (reached_levels _ _ Hd) as (d2 & Hd2 & Hle).
    pose proof (Hmax _ (levels_reached _ _ Hd2)).
    by replace d with d2 by lia.
Qed.

Lemma nodesPerLevel_ascend : keysAscend (nodesPerLevel st).
Proof using Hrun.
  destruct computed_visits as (vs & Hvs & ->).
  apply applyVisits_nodesPerLevel. constructor.
Qed.

Lemma idsAt_reached L n :
  n ∈ idsAt (nodesPerLevel st) L ↔ reachedAt nodes edges n L.
Proof using Hrun.
  destruct computed_visits as (vs & Hvs & ->).
  rewrite <- (allVisits_reached _ _ _ _ Hvs).
  destruct (applyVisits_nodesPerLevel vs emptyLevelState) as [_ ->];
    [constructor|].
  cbn. rewrite list_elem_of_fmap. split.
  - intros ([m l] & -> & [Hl Hin]%list_elem_of_filter). cbn in *. by subst.
  - intros Hin. exists (n, L). split; [done|]. by apply list_elem_of_filter.
Qed.

Lemma entry_idsAt L ids :
  (L, ids) ∈ nodesPerLevel st → ids = idsAt (nodesPerLevel st) L.
Proof using Hrun.
  intros Hin. symmetry. apply idsAt_entry; [apply nodesPerLevel_ascend|done].
Qed.

Lemma placed_level cfg n p :
  placeNodes cfg (nodesPerLevel st) !! n = Some p →
  ∃ d j,
    levels st !! n = Some d ∧
    lastIndex n (idsAt (nodesPerLevel st) d) = Some j ∧
    p = slot cfg d (length (idsAt (nodesPerLevel st) d)) j.
Proof using Hrun.
  rewrite placeNodes_lookup. intros Hp.
  apply finalSlot_Some in Hp as (L & ids & j & Hin & Hj & -> & Hmax);
    [|apply nodesPerLevel_ascend].
  pose proof (entry_idsAt _ _ Hin) as ->.
  exists L, j. repeat split; [|done].
  apply levels_max. pose proof (lastIndex_lookup _ _ _ Hj) as Hn.
  apply list_elem_of_lookup_2 in Hn. split; [by apply idsAt_reached|].
  intros d' Hd'%idsAt_reached. eapply Hmax; [|done]. by eapply idsAt_elem.
Qed.

Lemma reached_placed cfg n d :
  reachedAt nodes edges n d →
  is_Some (placeNodes cfg (nodesPerLevel st) !! n).
Proof using Hrun.
  intros Hd%idsAt_reached. rewrite placeNodes_lookup.
  eapply finalSlot_is_Some; [by eapply idsAt_elem|done].
Qed.

End Computed.

(** ** Termination of the level computation *)

Lemma calculateLevels_diverges fuel nodes edges :
  cycleFromRoot nodes edges → calculateLevels fuel nodes edges = None.
Proof.
  intros Hc. by rewrite calculateLevels_visits, allVisits_diverges.
Qed.

Lemma calculateLevels_returns nodes edges :
  ¬ cycleFromRoot nodes edges →
  is_Some (calculateLevels (S (length edges)) nodes edges).
Proof.
  intros Hc. rewrite calculateLevels_visits.
  by destruct (allVisits_returns _ _ Hc) as [vs ->].
Qed.

Lemma calculateLevels_mono fuel fuel' nodes edges st :
  calculateLevels fuel nodes edges = Some st → fuel ≤ fuel' →
  calculateLevels fuel' nodes edges = Some st.
Proof.
  rewrite !calculateLevels_visits. intros Hst Hle.
  destruct (allVisits fuel nodes edges) as [vs|] eqn:Hvs; [|done].
  by rewrite (allVisits_mono _ _ _ _ _ Hvs Hle).
Qed.

Lemma returned_no_cycle fuel nodes edges st :
  calculateLevels fuel nodes edges = Some st → ¬ cycleFromRoot nodes edges.
Proof.
  intros Hst Hc. by rewrite calculateLevels_diverges in Hst.
Qed.

Lemma calculateNodePositions_levels cfg fuel nodes edges :
  calculateNodePositions cfg fuel nodes edges
  = (λ st, placeNodes cfg (nodesPerLevel st)) <$> calculateLevels fuel nodes edges.
Proof. unfold calculateNodePositions. by destruct (calculateLevels _ _ _). Qed.

Lemma cyclic_cycleFromRoot : cycleFromRoot cyclicNodes cyclicEdges.
Proof.
  exists "src/main.ts", 1, "src/a.ts". split; [|split].
  - vm_compute. left.
  - eapply (walk_edge _ _ (dependencyEdge "src/main.ts" "src/a.ts"));
      [left|done|constructor].
  - exists 1.
    eapply (walk_edge _ _ (dependencyEdge "src/a.ts" "src/b.ts"));
      [right; left|done|].
    eapply (walk_edge _ _ (dependencyEdge "src/b.ts" "src/a.ts"));
      [right; right; left|done|constructor].
Qed.

(** C1, as stated, fails: [main.ts] is a root node, the cycle between
    [a.ts] and [b.ts] is reachable from it, and no call-stack depth lets the
    level computation (hence the layout) return. *)
Lemma cyclic_layout_never_returns :
  cycleFromRoot cyclicNodes cyclicEdges ∧
  ¬ (∃ fuel st, calculateLevels fuel cyclicNodes cyclicEdges = Some st) ∧
  ¬ (∃ fuel positions,
       calculateNodePositions spacing_constant fuel cyclicNodes cyclicEdges
       = Some positions).
Proof.
  pose proof cyclic_cycleFromRoot as Hc. split; [done|]. split.
  - intros (fuel & st & Hst). by rewrite calculateLevels_diverges in Hst.
  - intros (fuel & positions & Hp).
    rewrite calculateNodePositions_levels, calculateLevels_diverges in Hp; done.
Qed.

(** C1, amended: the level computation (and the layout with it) returns
    exactly when no dependency cycle is reachable from a root node, and then
    a call stack one deeper than the edge list is long suffices; when such a
    cycle exists it exceeds every call-stack depth. *)
Theorem calculateLevels_returns_iff_no_cycle cfg nodes edges :
  ((∃ fuel st, calculateLevels fuel nodes edges = Some st)
   ↔ ¬ cycleFromRoot nodes edges) ∧
  (¬ cycleFromRoot nodes edges
   ↔ is_Some (calculateNodePositions cfg (S (length edges)) nodes edges)) ∧
  (cycleFromRoot nodes edges
   → ∀ fuel, calculateNodePositions cfg fuel nodes edges = None).
Proof.
  split; [|split].
  - split.
    + intros (fuel & st & Hst). by eapply returned_no_cycle.
    + intros Hc. destruct (calculateLevels_returns _ _ Hc) as [st Hst]. eauto.
  - split.
    + intros Hc. rewrite calculateNodePositions_levels.
      by destruct (calculateLevels_returns _ _ Hc) as [st ->].
    + rewrite calculateNodePositions_levels. intros [p Hp].
      destruct (calculateLevels _ _ _) as [st|] eqn:Hst; [|done].
      by eapply returned_no_cycle.
  - intros Hc fuel.
    by rewrite calculateNodePositions_levels, calculateLevels_diverges.
Qed.

(** ** Root nodes *)

Lemma isTarget_true edges n :
  isTarget edges n = true ↔ ∃ e, e ∈ edges ∧ FileEdge.target e = n.
Proof.
  unfold isTarget. rewrite existsb_exists. split.
  - intros (e & He & Ht). exists e.
    split; [by apply list_elem_of_In|by apply bool_decide_eq_true in Ht].
  - intros (e & He & Ht). exists e.
    split; [by apply list_elem_of_In|by apply bool_decide_eq_true].
Qed.

Lemma startNodes_elem nodes edges r :
  r ∈ startNodes nodes edges ↔
  ∃ node, node ∈ nodes ∧ FileNode.id node = r ∧ isTarget edges r = false.
Proof.
  unfold startNodes. rewrite list_elem_of_fmap. split.
  - intros (node & -> & [Ht Hn]%list_elem_of_filter). by exists node.
  - intros (node & Hn & <- & Ht). exists node.
    split; [done|]. by apply list_elem_of_filter.
Qed.

Lemma walk_last edges a k b :
  walk edges a k b → k ≠ 0 → ∃ e, e ∈ edges ∧ FileEdge.target e = b.
Proof.
  induction 1 as [a|a e k b He Hs Hw IH]; intros Hk; [done|].
  destruct k as [|k].
  - inversion Hw; subst. by exists e.
  - by apply IH.
Qed.

Lemma root_reached_at_0 nodes edges n d :
  isTarget edges n = false → reachedAt nodes edges n d → d = 0.
Proof.
  intros Ht (r & _ & Hw). destruct d as [|d]; [done|].
  destruct (walk_last _ _ _ _ Hw) as (e & He & Hte); [done|].
  assert (isTarget edges n = true) by (apply isTarget_true; eauto).
  congruence.
Qed.

Lemma slot_y_0 cfg c j : (Position.y (slot cfg 0 c j) == 0)%Q.
Proof. cbn. apply Qmult_0_l. Qed.

(** C3, as stated, fails: in the cyclic sample [main.ts] is never the target
    of an edge, yet the layout returns no position map at any call-stack
    depth, so [main.ts] gets no position at all. *)
Lemma cyclic_root_without_position :
  nodeWithId "src/main.ts" ∈ cyclicNodes ∧
  isTarget cyclicEdges "src/main.ts" = false ∧
  ¬ (∃ fuel positions,
       calculateNodePositions spacing_constant fuel cyclicNodes cyclicEdges
       = Some positions).
Proof.
  split; [left|]. split; [done|].
  intros (fuel & positions & Hp).
  rewrite calculateNodePositions_levels in Hp.
  by rewrite (calculateLevels_diverges _ _ _ cyclic_cycleFromRoot) in Hp.
Qed.

(** C3, amended: for every node/edge set with no dependency cycle reachable
    from a root node the layout returns, and every node that never appears
    as the target of an edge has level 0 and vertical position [y = 0] in
    what it returns. *)
Theorem roots_on_level_zero cfg nodes edges :
  ¬ cycleFromRoot nodes edges →
  (∃ st, calculateLevels (S (length edges)) nodes edges = Some st) ∧
  ∀ fuel st, calculateLevels fuel nodes edges = Some st →
    calculateNodePositions cfg fuel nodes edges
    = Some (placeNodes cfg (nodesPerLevel st)) ∧
    ∀ node, node ∈ nodes → isTarget edges (FileNode.id node) = false →
      levels st !! FileNode.id node = Some 0 ∧
      ∃ p, placeNodes cfg (nodesPerLevel st) !! FileNode.id node = Some p
           ∧ (Position.y p == 0)%Q.
Proof.
  intros Hc. split; [by apply calculateLevels_returns|].
  intros fuel st Hst.
  split; [by rewrite calculateNodePositions_levels, Hst|].
  intros node Hnode Ht.
  assert (reachedAt nodes edges (FileNode.id node) 0) as Hr.
  { exists (FileNode.id node). split; [|constructor].
    apply startNodes_elem. by exists node. }
  assert (levels st !! FileNode.id node = Some 0) as H0.
  { apply (levels_max Hst). split; [done|].
    intros d' Hd'. by rewrite (root_reached_at_0 _ _ _ _ Ht Hd'). }
  split; [done|].
  destruct (reached_placed Hst cfg _ _ Hr) as [p Hp].
  exists p. split; [done|].
  destruct (placed_level Hst _ _ _ Hp) as (d & j & Hd & _ & ->).
  replace d with 0 by congruence. apply slot_y_0.
Qed.

Lemma roots_on_level_zero_witness :
  ¬ cycleFromRoot diamondNodes diamondEdges ∧
  (∃ st, calculateLevels 4 diamondNodes diamondEdges = Some st) ∧
  ∀ fuel st, calculateLevels fuel diamondNodes diamondEdges = Some st →
    calculateNodePositions spacing_constant fuel diamondNodes diamondEdges
    = Some (placeNodes spacing_constant (nodesPerLevel st)) ∧
    ∀ node, node ∈ diamondNodes →
      isTarget diamondEdges (FileNode.id node) = false →
      levels st !! FileNode.id node = Some 0 ∧
      ∃ p, placeNodes spacing_constant (nodesPerLevel st) !! FileNode.id node
           = Some p ∧ (Position.y p == 0)%Q.
Proof.
  assert (¬ cycleFromRoot diamondNodes diamondEdges) as Hc.
  { eapply (returned_no_cycle 4). vm_compute. reflexivity. }
  split; [exact Hc|].
  exact (roots_on_level_zero spacing_constant diamondNodes diamondEdges Hc).
Defined.

(** ** Levels along edges *)

(** C2, as stated, fails: the flattener that starts with [structure.yaml]
    turns every dependency of a file directly under [src] into an edge from
    the dependency to the file.  In [outsideYamlData] the edges hold no
    cycle and every node is reached from the root [structure.yaml], but the
    edge from [lib/util.ts] to [README.md] starts at a path that is no node
    and that the walk never visits: [levels] has no entry for it, so the
    level at the target (1) is not greater than a level at the source. *)
Lemma edge_source_without_level :
  ∃ st,
    calculateLevels 3 (nodes (StructureFirst.flatten outsideYamlData))
      (edges (StructureFirst.flatten outsideYamlData)) = Some st ∧
    (∀ c, ¬ onCycle (edges (StructureFirst.flatten outsideYamlData)) c) ∧
    (∀ node, node ∈ nodes (StructureFirst.flatten outsideYamlData) →
       ∃ d, reachedAt (nodes (StructureFirst.flatten outsideYamlData))
              (edges (StructureFirst.flatten outsideYamlData))
              (FileNode.id node) d) ∧
    StructureFirst.dependencyEdge "src/README.md" "lib/util.ts"
    ∈ edges (StructureFirst.flatten outsideYamlData) ∧
    levels st !! "lib/util.ts" = None ∧
    levels st !! "src/README.md" = Some 1.
Proof.
  eexists. split; [vm_compute; reflexivity|].
  match goal with |- context [levels ?st !! _] => set (ls := st) end.
  assert (calculateLevels 3 (nodes (StructureFirst.flatten outsideYamlData))
            (edges (StructureFirst.flatten outsideYamlData)) = Some ls) as Hst
    by (vm_compute; reflexivity).
  split; [|split; [|split]].
  - intros c [k Hk].
    inversion Hk as [|? e ? ? He Hsource Hrest]; subst.
    assert (FileEdge.target e = "src/README.md") as Htarget.
    { cbn in He. apply elem_of_cons in He as [->|He]; [done|].
      apply list_elem_of_singleton in He. by subst e. }
    rewrite Htarget in Hrest.
    inversion Hrest as [Hc|? e' ? ? He' Hsource' _]; subst.
    + cbn in He. apply elem_of_cons in He as [->|He]; [done|].
      apply list_elem_of_singleton in He. by subst e.
    + cbn in He'. apply elem_of_cons in He' as [->|He']; [done|].
      apply list_elem_of_singleton in He'. by subst e'.
  - intros node Hnode. cbn in Hnode.
    apply elem_of_cons in Hnode as [->|Hnode].
    + exists 0. by apply (levels_reached Hst).
    + apply list_elem_of_singleton in Hnode as ->.
      exists 1. by apply (levels_reached Hst).
  - cbn. right. left.
  - by vm_compute.
Qed.

(** C2, amended: on an edge set with no dependency cycle reachable from a
    root in which every node is reachable from some root node, the layout
    returns; in what it returns every node has a level and a position; the
    level of an edge's target is strictly greater than the level of its
    source for every edge whose source is a node or is otherwise reached by
    the walk; an edge whose source is not reached has no level at its
    source; the level of an id is the maximum of the depths at which the
    walk reaches it; and the vertical position of a placed id is its level
    times the vertical spacing.  All this for ids that name no member of
    [Object.prototype], where [levels] and [positions] are read as plain
    dictionaries. *)
Theorem levels_increase_along_edges cfg nodes edges :
  ¬ cycleFromRoot nodes edges →
  (∀ node, node ∈ nodes → ∃ d, reachedAt nodes edges (FileNode.id node) d) →
  (∃ st, calculateLevels (S (length edges)) nodes edges = Some st) ∧
  ∀ fuel st, calculateLevels fuel nodes edges = Some st →
    calculateNodePositions cfg fuel nodes edges
    = Some (placeNodes cfg (nodesPerLevel st)) ∧
    (∀ node, node ∈ nodes → FileNode.id node ∉ objectPrototypeMembers →
       is_Some (levels st !! FileNode.id node) ∧
       is_Some (placeNodes cfg (nodesPerLevel st) !! FileNode.id node)) ∧
    (∀ e, e ∈ edges →
       FileEdge.source e ∉ objectPrototypeMembers →
       FileEdge.target e ∉ objectPrototypeMembers →
       FileEdge.source e ∈ FileNode.id <$> nodes
       ∨ (∃ d, reachedAt nodes edges (FileEdge.source e) d) →
       ∃ la lb, levels st !! FileEdge.source e = Some la ∧
                levels st !! FileEdge.target e = Some lb ∧ la < lb) ∧
    (∀ e, e ∈ edges →
       FileEdge.source e ∉ objectPrototypeMembers →
       ¬ (∃ d, reachedAt nodes edges (FileEdge.source e) d) →
       levels st !! FileEdge.source e = None) ∧
    (∀ n d, n ∉ objectPrototypeMembers →
       (levels st !! n = Some d ↔
        reachedAt nodes edges n d ∧
        ∀ d', reachedAt nodes edges n d' → d' ≤ d)) ∧
    (∀ n p, n ∉ objectPrototypeMembers →
       placeNodes cfg (nodesPerLevel st) !! n = Some p →
       ∃ d, levels st !! n = Some d
            ∧ (Position.y p == num d * VERTICAL_SPACING cfg)%Q).
Proof.
  intros Hc Hall. split; [by apply calculateLevels_returns|].
  intros fuel st Hst.
  split; [by rewrite calculateNodePositions_levels, Hst|].
  split; [|split; [|split; [|split]]].
  - intros node [d Hd]%Hall _. split.
    + destruct (reached_levels Hst _ _ Hd) as (d2 & Hd2 & _). by exists d2.
    + by eapply reached_placed.
  - intros e He _ _ Hsrc.
    assert (∃ d, reachedAt nodes edges (FileEdge.source e) d) as [d Hd].
    { destruct Hsrc as [Hin|Hd]; [|done].
      apply list_elem_of_fmap in Hin as (node & -> & Hnode). by apply Hall. }
    destruct (reached_levels Hst _ _ Hd) as (la & Hla & _).
    pose proof (levels_reached Hst _ _ Hla) as (r & Hr & Hw).
    assert (reachedAt nodes edges (FileEdge.target e) (S la)) as Hb.
    { exists r. split; [done|]. by eapply walk_snoc. }
    destruct (reached_levels Hst _ _ Hb) as (lb & Hlb & Hle).
    exists la, lb. split; [done|]. split; [done|lia].
  - intros e He _ Hnot.
    destruct (levels st !! FileEdge.source e) as [d|] eqn:Hd; [|done].
    exfalso. apply Hnot. exists d. by apply (levels_reached Hst).
  - intros n d _. apply (levels_max Hst).
  - intros n p _ Hp.
    destruct (placed_level Hst _ _ _ Hp) as (d & j & Hd & _ & ->).
    exists d. split; [done|]. cbn. reflexivity.
Qed.

Lemma diamond_levels :
  ∃ st, calculateLevels 4 diamondNodes diamondEdges = Some st ∧
        levels st !! "src/main.ts" = Some 0 ∧
        levels st !! "src/a.ts" = Some 1 ∧
        levels st !! "src/util.ts" = Some 2.
Proof. eexists. split; [vm_compute; reflexivity|]. by vm_compute. Qed.

Lemma diamond_all_reached node :
  node ∈ diamondNodes →
  ∃ d, reachedAt diamondNodes diamondEdges (FileNode.id node) d.
Proof.
  destruct diamond_levels as (st & Hst & Hmain & Ha & Hutil).
  unfold diamondNodes. rewrite !elem_of_cons.
  intros [->|[->|[->|Hnode]]]; [..|by apply elem_of_nil in Hnode];
    eexists; by eapply levels_reached.
Qed.

Lemma levels_increase_along_edges_witness :
  (¬ cycleFromRoot diamondNodes diamondEdges ∧
   ∀ node, node ∈ diamondNodes →
     ∃ d, reachedAt diamondNodes diamondEdges (FileNode.id node) d) ∧
  (∃ st, calculateLevels 4 diamondNodes diamondEdges = Some st) ∧
  ∀ fuel st, calculateLevels fuel diamondNodes diamondEdges = Some st →
    calculateNodePositions spacing_constant fuel diamondNodes diamondEdges
    = Some (placeNodes spacing_constant (nodesPerLevel st)) ∧
    (∀ node, node ∈ diamondNodes →
       FileNode.id node ∉ objectPrototypeMembers →
       is_Some (levels st !! FileNode.id node) ∧
       is_Some (placeNodes spacing_constant (nodesPerLevel st)
                  !! FileNode.id node)) ∧
    (∀ e, e ∈ diamondEdges →
       FileEdge.source e ∉ objectPrototypeMembers →
       FileEdge.target e ∉ objectPrototypeMembers →
       FileEdge.source e ∈ FileNode.id <$> diamondNodes
       ∨ (∃ d, reachedAt diamondNodes diamondEdges (FileEdge.source e) d) →
       ∃ la lb, levels st !! FileEdge.source e = Some la ∧
                levels st !! FileEdge.target e = Some lb ∧ la < lb) ∧
    (∀ e, e ∈ diamondEdges →
       FileEdge.source e ∉ objectPrototypeMembers →
       ¬ (∃ d, reachedAt diamondNodes diamondEdges (FileEdge.source e) d) →
       levels st !! FileEdge.source e = None) ∧
    (∀ n d, n ∉ objectPrototypeMembers →
       (levels st !! n = Some d ↔
        reachedAt diamondNodes diamondEdges n d ∧
        ∀ d', reachedAt diamondNodes diamondEdges n d' → d' ≤ d)) ∧
    (∀ n p, n ∉ objectPrototypeMembers →
       placeNodes spacing_constant (nodesPerLevel st) !! n = Some p →
       ∃ d, levels st !! n = Some d
            ∧ (Position.y p == num d * VERTICAL_SPACING spacing_constant)%Q).
Proof.
  assert (¬ cycleFromRoot diamondNodes diamondEdges) as Hc.
  { eapply (returned_no_cycle 4). vm_compute. reflexivity. }
  split; [split; [exact Hc|exact diamond_all_reached]|].
  exact (levels_increase_along_edges spacing_constant diamondNodes
           diamondEdges Hc diamond_all_reached).
Defined.

(** ** Coordinates within a level *)

Lemma num_inj i j : (num i == num j)%Q → i = j.
Proof. unfold num. intros H. apply Nat2Z.inj. by apply inject_Z_injective. Qed.

Lemma num_le i j : i ≤ j → (num i <= num j)%Q.
Proof. unfold num. intros H. rewrite <- Zle_Qle. lia. Qed.

Lemma num_pred c : 1 ≤ c → (num (c - 1) == num c - 1)%Q.
Proof.
  unfold num. intros H. rewrite Nat2Z.inj_sub by done.
  rewrite <- Z.add_opp_r, inject_Z_plus, inject_Z_opp. reflexivity.
Qed.

Lemma slot_y_inj cfg L c j L' c' j' :
  (0 < VERTICAL_SPACING cfg)%Q →
  (Position.y (slot cfg L c j) == Position.y (slot cfg L' c' j'))%Q → L = L'.
Proof.
  cbn. intros Hv H. apply num_inj. apply Qmult_inj_r in H; [done|lra].
Qed.

Lemma slot_x_inj cfg L c i j :
  (0 < HORIZONTAL_SPACING cfg)%Q →
  (Position.x (slot cfg L c i) == Position.x (slot cfg L c j))%Q → i = j.
Proof.
  cbn. intros Hh H. apply num_inj.
  apply (Qmult_inj_r _ _ (HORIZONTAL_SPACING cfg)); [lra|]. lra.
Qed.

Lemma slot_x_mono cfg L c i j :
  (0 < HORIZONTAL_SPACING cfg)%Q → i ≤ j →
  (Position.x (slot cfg L c i) <= Position.x (slot cfg L c j))%Q.
Proof.
  cbn. intros Hh Hij. apply num_le in Hij.
  assert (num i * HORIZONTAL_SPACING cfg <= num j * HORIZONTAL_SPACING cfg)%Q
    by (apply Qmult_le_compat_r; lra).
  lra.
Qed.

Lemma slot_x_sum cfg L c :
  1 ≤ c →
  (Position.x (slot cfg L c 0) + Position.x (slot cfg L c (c - 1))
   == 2 * staggerX L)%Q.
Proof.
  intros Hc. cbn. rewrite (num_pred c Hc). unfold startX.
  change (num 0) with 0%Q. field.
Qed.

Lemma placed_at_index fuel nodes edges st cfg L j n :
  calculateLevels fuel nodes edges = Some st →
  NoDup (idsAt (nodesPerLevel st) L) →
  idsAt (nodesPerLevel st) L !! j = Some n →
  levels st !! n = Some L →
  placeNodes cfg (nodesPerLevel st) !! n
  = Some (slot cfg L (length (idsAt (nodesPerLevel st) L)) j).
Proof.
  intros Hst Hnd Hj HL.
  assert (reachedAt nodes edges n L) as Hr
    by (apply (idsAt_reached Hst); by eapply list_elem_of_lookup_2).
  destruct (reached_placed Hst cfg _ _ Hr) as [p Hp]. rewrite Hp.
  destruct (placed_level Hst _ _ _ Hp) as (d & j' & Hd & Hj' & ->).
  assert (d = L) as -> by congruence.
  rewrite (lastIndex_NoDup _ _ Hnd _ Hj) in Hj'. by injection Hj' as <-.
Qed.

Lemma chain_nodesPerLevel :
  nodesPerLevel <$> calculateLevels 2 chainNodes chainEdges
  = Some [(0, ["src/main.ts"]); (1, ["src/a.ts"])].
Proof. vm_compute. reflexivity. Qed.

Lemma chain_positions :
  calculateNodePositions spacing_constant 2 chainNodes chainEdges
  = Some (placeNodes spacing_constant
            [(0, ["src/main.ts"]); (1, ["src/a.ts"])]).
Proof.
  rewrite calculateNodePositions_levels.
  pose proof chain_nodesPerLevel as Hn.
  destruct (calculateLevels 2 chainNodes chainEdges) as [st|]; [|done].
  cbn in *. by injection Hn as ->.
Qed.

Lemma chain_level_one n p :
  placeNodes spacing_constant [(0, ["src/main.ts"]); (1, ["src/a.ts"])] !! n
  = Some p →
  (Position.y p == 200)%Q → (Position.x p == 100)%Q.
Proof.
  rewrite placeNodes_lookup. cbn [finalSlot lastIndex].
  destruct (decide ("src/a.ts" = n)) as [_|_].
  - intros [= <-] _. by vm_compute.
  - destruct (decide ("src/main.ts" = n)) as [_|_]; [|done].
    intros [= <-] Hy. by vm_compute in Hy.
Qed.

(** C5, as stated, fails: in the layout of [main.ts -> a.ts] the level drawn
    at [y = 200] holds the single node [a.ts] at [x = 100] (the stagger
    offset of an odd level), so the least and the greatest x-coordinate of
    that level are both 100 and their sum is 200. *)
Lemma odd_level_not_centred :
  ∃ positions,
    calculateNodePositions spacing_constant 2 chainNodes chainEdges
    = Some positions ∧
    levelMinX positions 200 100 ∧ levelMaxX positions 200 100 ∧
    ¬ (100 + 100 == 0)%Q.
Proof.
  eexists. split; [apply chain_positions|].
  assert (∃ n p,
    placeNodes spacing_constant [(0, ["src/main.ts"]); (1, ["src/a.ts"])] !! n
    = Some p ∧ (Position.y p == 200)%Q ∧ (Position.x p == 100)%Q) as Hex.
  { exists "src/a.ts", (slot spacing_constant 1 1 0).
    split; [by rewrite placeNodes_lookup|]. by vm_compute. }
  split; [|split].
  - split; [done|]. intros n p Hp Hy.
    rewrite (chain_level_one _ _ Hp Hy). apply Qle_refl.
  - split; [done|]. intros n p Hp Hy.
    rewrite (chain_level_one _ _ Hp Hy). apply Qle_refl.
  - by vm_compute.
Qed.

Lemma fan_nodesPerLevel :
  nodesPerLevel <$> calculateLevels 2 fanNodes fanEdges
  = Some [(0, ["src/main.ts"]); (1, ["src/a.ts"; "src/b.ts"])].
Proof. vm_compute. reflexivity. Qed.

Lemma fan_level_one n p :
  placeNodes spacing_constant
    [(0, ["src/main.ts"]); (1, ["src/a.ts"; "src/b.ts"])] !! n = Some p →
  (Position.y p == 200)%Q →
  (Position.x p == -100)%Q ∨ (Position.x p == 300)%Q.
Proof.
  rewrite placeNodes_lookup. cbn [finalSlot lastIndex].
  destruct (decide ("src/b.ts" = n)) as [_|_].
  - intros [= <-] _. right. by vm_compute.
  - destruct (decide ("src/a.ts" = n)) as [_|_].
    + intros [= <-] _. left. by vm_compute.
    + destruct (decide ("src/main.ts" = n)) as [_|_]; [|done].
      intros [= <-] Hy. by vm_compute in Hy.
Qed.

(** C5, amended: in the position map the layout returns, two different
    nodes on one level never share an x-coordinate; and the least and the
    greatest x-coordinate of a level add up to twice the stagger offset of
    that level, that is to 0 on an even level and to 200 on an odd one,
    whenever every id listed at that level names no member of
    [Object.prototype] and is listed there once and at no deeper level. *)
Theorem level_x_distinct_and_centred cfg fuel nodes edges st :
  (0 < VERTICAL_SPACING cfg)%Q → (0 < HORIZONTAL_SPACING cfg)%Q →
  calculateLevels fuel nodes edges = Some st →
  calculateNodePositions cfg fuel nodes edges
  = Some (placeNodes cfg (nodesPerLevel st)) ∧
  (∀ n1 n2 p1 p2,
     placeNodes cfg (nodesPerLevel st) !! n1 = Some p1 →
     placeNodes cfg (nodesPerLevel st) !! n2 = Some p2 →
     n1 ≠ n2 → (Position.y p1 == Position.y p2)%Q →
     ¬ (Position.x p1 == Position.x p2)%Q) ∧
  (∀ L ids xmin xmax,
     (L, ids) ∈ nodesPerLevel st → NoDup ids →
     (∀ n, n ∈ ids →
        (n ∉ objectPrototypeMembers) ∧ levels st !! n = Some L) →
     levelMinX (placeNodes cfg (nodesPerLevel st))
       (num L * VERTICAL_SPACING cfg) xmin →
     levelMaxX (placeNodes cfg (nodesPerLevel st))
       (num L * VERTICAL_SPACING cfg) xmax →
     (xmin + xmax == if Nat.even L then 0 else 200)%Q).
Proof.
  intros Hv Hh Hst.
  split; [by rewrite calculateNodePositions_levels, Hst|]. split.
  - intros n1 n2 p1 p2 Hp1 Hp2 Hne Hy Hx.
    destruct (placed_level Hst _ _ _ Hp1) as (d1 & j1 & _ & Hj1 & ->).
    destruct (placed_level Hst _ _ _ Hp2) as (d2 & j2 & _ & Hj2 & ->).
    pose proof (slot_y_inj _ _ _ _ _ _ _ Hv Hy) as <-.
    pose proof (slot_x_inj _ _ _ _ _ Hh Hx) as <-.
    apply lastIndex_lookup in Hj1, Hj2. congruence.
  - intros L ids xmin xmax Hin Hnd Hfinal [(n0 & p0 & Hp0 & Hy0 & Hx0) Hmin]
      [(n1 & p1 & Hp1 & Hy1 & Hx1) Hmax].
    pose proof (entry_idsAt Hst _ _ Hin) as Hids. subst ids.
    set (ids := idsAt (nodesPerLevel st) L) in *.
    destruct (placed_level Hst _ _ _ Hp0) as (d0 & j0 & _ & Hj0 & ->).
    destruct (placed_level Hst _ _ _ Hp1) as (d1 & j1 & _ & Hj1 & ->).
    assert (d0 = L) as ->
      by (eapply (slot_y_inj cfg _ _ _ L 0 0); [done|exact Hy0]).
    assert (d1 = L) as ->
      by (eapply (slot_y_inj cfg _ _ _ L 0 0); [done|exact Hy1]).
    fold ids in Hj0, Hj1, Hx0, Hx1.
    apply lastIndex_lookup, lookup_lt_Some in Hj0, Hj1.
    destruct (lookup_lt_is_Some_2 ids 0) as [a Ha]; [lia|].
    destruct (lookup_lt_is_Some_2 ids (length ids - 1)) as [b Hb]; [lia|].
    pose proof (placed_at_index _ _ _ _ cfg _ _ _ Hst Hnd Ha) as Hpa.
    pose proof (placed_at_index _ _ _ _ cfg _ _ _ Hst Hnd Hb) as Hpb.
    fold ids in Hpa, Hpb.
    specialize (Hpa (proj2 (Hfinal _ (list_elem_of_lookup_2 _ _ _ Ha)))).
    specialize (Hpb (proj2 (Hfinal _ (list_elem_of_lookup_2 _ _ _ Hb)))).
    pose proof (Hmin _ _ Hpa (reflexivity _)) as Hlo.
    pose proof (Hmax _ _ Hpb (reflexivity _)) as Hhi.
    pose proof (slot_x_mono cfg L (length ids) 0 j0 Hh ltac:(lia)) as Hlo'.
    pose proof (slot_x_mono cfg L (length ids) j1 (length ids - 1) Hh
                  ltac:(lia)) as Hhi'.
    pose proof (slot_x_sum cfg L (length ids) ltac:(lia)) as Hsum.
    assert (2 * staggerX L == if Nat.even L then 0 else 200)%Q as Hst2
      by (unfold staggerX; destruct (Nat.even L); by vm_compute).
    lra.
Qed.

(** The layout of [main.ts -> a.ts, main.ts -> b.ts]: level 1, an odd level,
    holds [a.ts] at [x = -100] and [b.ts] at [x = 300], both at [y = 200];
    the theorem gives that the two differ in [x] and that the least and the
    greatest [x] of the level add up to 200. *)
Lemma level_x_distinct_and_centred_witness :
  ((0 < VERTICAL_SPACING spacing_constant)%Q ∧
   (0 < HORIZONTAL_SPACING spacing_constant)%Q) ∧
  ∃ st pa pb,
    calculateLevels 2 fanNodes fanEdges = Some st ∧
    (calculateNodePositions spacing_constant 2 fanNodes fanEdges
     = Some (placeNodes spacing_constant (nodesPerLevel st)) ∧
     (∀ n1 n2 p1 p2,
        placeNodes spacing_constant (nodesPerLevel st) !! n1 = Some p1 →
        placeNodes spacing_constant (nodesPerLevel st) !! n2 = Some p2 →
        n1 ≠ n2 → (Position.y p1 == Position.y p2)%Q →
        ¬ (Position.x p1 == Position.x p2)%Q) ∧
     (∀ L ids xmin xmax,
        (L, ids) ∈ nodesPerLevel st → NoDup ids →
        (∀ n, n ∈ ids →
           (n ∉ objectPrototypeMembers) ∧ levels st !! n = Some L) →
        levelMinX (placeNodes spacing_constant (nodesPerLevel st))
          (num L * VERTICAL_SPACING spacing_constant) xmin →
        levelMaxX (placeNodes spacing_constant (nodesPerLevel st))
          (num L * VERTICAL_SPACING spacing_constant) xmax →
        (xmin + xmax == if Nat.even L then 0 else 200)%Q)) ∧
    (1, ["src/a.ts"; "src/b.ts"]) ∈ nodesPerLevel st ∧
    placeNodes spacing_constant (nodesPerLevel st) !! "src/a.ts" = Some pa ∧
    placeNodes spacing_constant (nodesPerLevel st) !! "src/b.ts" = Some pb ∧
    (Position.y pa == Position.y pb)%Q ∧
    ¬ (Position.x pa == Position.x pb)%Q ∧
    levelMinX (placeNodes spacing_constant (nodesPerLevel st))
      (num 1 * VERTICAL_SPACING spacing_constant) (-100) ∧
    levelMaxX (placeNodes spacing_constant (nodesPerLevel st))
      (num 1 * VERTICAL_SPACING spacing_constant) 300 ∧
    (-100 + 300 == 200)%Q.
Proof.
  split; [split; reflexivity|].
  eexists _, (slot spacing_constant 1 2 0), (slot spacing_constant 1 2 1).
  split; [vm_compute; reflexivity|].
  match goal with |- context [nodesPerLevel ?st0] => set (st := st0) end.
  assert (calculateLevels 2 fanNodes fanEdges = Some st) as Hst
    by (vm_compute; reflexivity).
  pose proof (level_x_distinct_and_centred spacing_constant 2 fanNodes
                fanEdges st eq_refl eq_refl Hst) as Hthm.
  split; [exact Hthm|].
  destruct Hthm as (_ & Hdistinct & Hcentred).
  assert ((1, ["src/a.ts"; "src/b.ts"]) ∈ nodesPerLevel st) as Hlevel
    by (right; left).
  assert (placeNodes spacing_constant (nodesPerLevel st) !! "src/a.ts"
          = Some (slot spacing_constant 1 2 0)) as Hpa
    by (by rewrite placeNodes_lookup).
  assert (placeNodes spacing_constant (nodesPerLevel st) !! "src/b.ts"
          = Some (slot spacing_constant 1 2 1)) as Hpb
    by (by rewrite placeNodes_lookup).
  assert (Position.y (slot spacing_constant 1 2 0)
          == Position.y (slot spacing_constant 1 2 1))%Q as Hy
    by reflexivity.
  assert (levelMinX (placeNodes spacing_constant (nodesPerLevel st))
            (num 1 * VERTICAL_SPACING spacing_constant) (-100)) as Hmin.
  { split.
    - exists "src/a.ts", (slot spacing_constant 1 2 0).
      split; [exact Hpa|]. by vm_compute.
    - intros n p Hp Hyp.
      destruct (fan_level_one n p Hp) as [Hx|Hx];
        [by vm_compute in Hyp|..]; rewrite Hx; by vm_compute. }
  assert (levelMaxX (placeNodes spacing_constant (nodesPerLevel st))
            (num 1 * VERTICAL_SPACING spacing_constant) 300) as Hmax.
  { split.
    - exists "src/b.ts", (slot spacing_constant 1 2 1).
      split; [exact Hpb|]. by vm_compute.
    - intros n p Hp Hyp.
      destruct (fan_level_one n p Hp) as [Hx|Hx];
        [by vm_compute in Hyp|..]; rewrite Hx; by vm_compute. }
  split; [exact Hlevel|]. split; [exact Hpa|]. split; [exact Hpb|].
  split; [exact Hy|]. split.
  - by apply (Hdistinct "src/a.ts" "src/b.ts" _ _ Hpa Hpb).
  - split; [exact Hmin|]. split; [exact Hmax|].
    apply (Hcentred 1 ["src/a.ts"; "src/b.ts"] _ _ Hlevel); [|..|exact Hmin|exact Hmax].
    + apply (bool_decide_unpack _). by vm_compute.
    + intros n Hn. split.
      * intros Hm. revert Hn Hm. rewrite !elem_of_cons, !elem_of_nil.
        unfold objectPrototypeMembers. rewrite !elem_of_cons, elem_of_nil.
        intros [->|[->|[]]]; intros Hm; repeat (destruct Hm as [Hm|Hm]; [done|]);
          done.
      * revert Hn. rewrite !elem_of_cons, elem_of_nil.
        intros [->|[->|[]]]; by vm_compute.
Defined.

(** ** Values that are not leaves *)


Lemma processDirectory_directory random fuel content entries parentPath st :
  isYamlFile content = false → objectEntries content = Some entries →
  processDirectory random (S fuel) content parentPath st
  = forEachO
      (λ '(key, value),
         processDirectory random fuel value (childPath parentPath key))
      entries st.
Proof. intros Hleaf Hentries. cbn [processDirectory]. by rewrite Hleaf, Hentries. Qed.

Lemma processDirectory_leaf random fuel content parentPath st :
  isYamlFile content = true →
  processDirectory random (S fuel) content parentPath st
  = match getProperty "dependency" content with
    | JArr dependency =>
        Returned
          {| nodes := nodes st ++
               [leafNode random content parentPath (randomCalls st)];
             edges := edges st ++ (dependencyEdge parentPath <$> dependency);
             agents := setAdd (getProperty "agent" content) (agents st);
             randomCalls := S (S (randomCalls st)) |}
    | _ => TypeError
    end.
Proof. intros Hleaf. cbn [processDirectory]. by rewrite Hleaf. Qed.

Lemma processDirectory_string_overflows random fuel :
  ∀ c rest parentPath st,
    processDirectory random fuel (JStr (String c rest)) parentPath st
    = RangeError.
Proof.
  induction fuel as [|fuel IH]; intros c rest parentPath st; [done|].
  cbn [processDirectory isYamlFile objectEntries String.list_ascii_of_string
       imap forEachO].
  by rewrite IH.
Qed.







(** ** The empty tree *)

(** C8, as stated, fails for the flattener that builds the [structure.yaml]
    node first: on [{src: {}}] it returns that node, the agent set
    [{undefined}] and, from the layout, a position for the node. *)
Lemma empty_tree_structure_node :
  ∃ g positions,
    StructureFirst.generateNodesAndEdges 1 emptyYamlData = Returned g ∧
    FileNode.id <$> graphNodes g = ["src/structure.yaml"] ∧
    graphAgents g = [JUndefined] ∧
    calculateNodePositions spacing_literal 1
      (nodes (StructureFirst.flatten emptyYamlData))
      (edges (StructureFirst.flatten emptyYamlData)) = Some positions ∧
    is_Some (positions !! "src/structure.yaml").
Proof.
  eexists _, _. split; [vm_compute; reflexivity|].
  split; [reflexivity|]. split; [reflexivity|].
  split; [vm_compute; reflexivity|]. vm_compute. eauto.
Qed.

(** C8, amended: for the empty input tree [{src: {}}] the recursive
    flattener ([processDirectory]) returns an empty node list, an empty edge
    list and an empty agent set, and the layout returns an empty position
    map; the flattener that builds the [structure.yaml] node first returns
    that one node, placed at the origin, no edge, and the agent set
    [{undefined}]. *)
Theorem empty_tree_flattened :
  (∀ random fuel,
     generateNodesAndEdges random (S fuel) emptyTree
     = Returned {| graphNodes := []; graphEdges := []; graphAgents := [] |}) ∧
  (∀ cfg fuel, calculateNodePositions cfg fuel [] [] = Some ∅) ∧
  (∀ fuel, ∃ node,
     StructureFirst.generateNodesAndEdges (S fuel) emptyYamlData
     = Returned {| graphNodes := [node]; graphEdges := [];
                   graphAgents := [JUndefined] |} ∧
     FileNode.id node = "src/structure.yaml" ∧
     (Position.x (FileNode.position node) == 0)%Q ∧
     (Position.y (FileNode.position node) == 0)%Q).
Proof.
  split; [|split].
  - intros random fuel. reflexivity.
  - intros cfg fuel. reflexivity.
  - intros fuel. eexists. split; [vm_compute; reflexivity|].
    split; [reflexivity|]. split; reflexivity.
Qed.

(** ** The flattener and [Math.random] *)

Lemma startNodes_filter nodes edges :
  startNodes nodes edges
  = filter (λ nodeId, isTarget edges nodeId = false) (FileNode.id <$> nodes).
Proof.
  unfold startNodes. induction nodes as [|node nodes IH]; [done|].
  rewrite fmap_cons, !filter_cons.
  destruct (decide (isTarget edges (FileNode.id node) = false));
    [rewrite fmap_cons|]; by rewrite IH.
Qed.

Lemma calculateNodePositions_ids cfg fuel nodes nodes' edges :
  FileNode.id <$> nodes = FileNode.id <$> nodes' →
  calculateNodePositions cfg fuel nodes edges
  = calculateNodePositions cfg fuel nodes' edges.
Proof.
  intros Hids. unfold calculateNodePositions, calculateLevels.
  by rewrite !startNodes_filter, Hids.
Qed.

Lemma withoutPosition_leafNode random random' content filePath calls calls' :
  withoutPosition (leafNode random content filePath calls)
  = withoutPosition (leafNode random' content filePath calls').
Proof. done. Qed.


Lemma withoutPosition_id node :
  FileNode.id (withoutPosition node) = FileNode.id node.
Proof. done. Qed.

Lemma withoutPosition_ids (nodes nodes' : list FileNode.t) :
  withoutPosition <$> nodes = withoutPosition <$> nodes' →
  FileNode.id <$> nodes = FileNode.id <$> nodes'.
Proof.
  intros H. apply (f_equal (fmap FileNode.id)) in H.
  by rewrite <- !list_fmap_compose in H.
Qed.

Lemma forEachO_withoutPositions {A : Type}
    (f g : A → FlatState → Outcome FlatState) (xs : list A) :
  (∀ a s s', a ∈ xs →
     stateWithoutPositions s = stateWithoutPositions s' →
     mapOutcome stateWithoutPositions (f a s)
     = mapOutcome stateWithoutPositions (g a s')) →
  ∀ s s', stateWithoutPositions s = stateWithoutPositions s' →
    mapOutcome stateWithoutPositions (forEachO f xs s)
    = mapOutcome stateWithoutPositions (forEachO g xs s').
Proof.
  induction xs as [|a xs IH]; intros Hfg s s' Hs.
  - cbn. by rewrite Hs.
  - cbn. pose proof (Hfg a s s' ltac:(left) Hs) as Ha.
    destruct (f a s) as [s1| |], (g a s') as [s1'| |]; try done.
    apply IH; [|cbn in Ha; congruence].
    intros a' t t' Ha'. apply Hfg. by right.
Qed.

Lemma processDirectory_withoutPositions random random' fuel :
  ∀ content parentPath st st',
    stateWithoutPositions st = stateWithoutPositions st' →
    mapOutcome stateWithoutPositions
      (processDirectory random fuel content parentPath st)
    = mapOutcome stateWithoutPositions
        (processDirectory random' fuel content parentPath st').
Proof.
  induction fuel as [|fuel IH]; intros content parentPath st st' Hs; [done|].
  destruct (isYamlFile content) eqn:Hleaf.
  - rewrite !processDirectory_leaf by done.
    destruct (getProperty "dependency" content); try done.
    cbn. unfold stateWithoutPositions in *. cbn.
    injection Hs as Hn He Ha Hc.
    rewrite !fmap_app, Hn, He, Ha, Hc. cbn.
    by rewrite (withoutPosition_leafNode random random' _ _
                  (randomCalls st') (randomCalls st')).
  - destruct (objectEntries content) as [entries|] eqn:Hentries.
    + rewrite !(processDirectory_directory _ _ _ entries) by done.
      apply forEachO_withoutPositions; [|done].
      intros [key value] s s' _ Hss. by apply IH.
    + cbn [processDirectory]. by rewrite Hleaf, Hentries.
Qed.



(** ** Dependencies that name no node *)

Lemma forEachO_edges_grow {A : Type}
    (f : A → FlatState → Outcome FlatState) (xs : list A) :
  (∀ a s s', a ∈ xs → f a s = Returned s' → edges s ⊆ edges s') →
  ∀ s s', forEachO f xs s = Returned s' → edges s ⊆ edges s'.
Proof.
  induction xs as [|a xs IH]; intros Hf s s' Hs.
  - by injection Hs as <-.
  - cbn in Hs. destruct (f a s) as [s1| |] eqn:Ha; try done.
    trans (edges s1); [by eapply Hf; [left|]|].
    eapply IH; [|done]. intros a' t t' Ha'. apply Hf. by right.
Qed.

Lemma processDirectory_edges_grow random fuel :
  ∀ content parentPath st st',
    processDirectory random fuel content parentPath st = Returned st' →
    edges st ⊆ edges st'.
Proof.
  induction fuel as [|fuel IH]; intros content parentPath st st' Hst; [done|].
  destruct (isYamlFile content) eqn:Hleaf.
  - rewrite processDirectory_leaf in Hst by done.
    destruct (getProperty "dependency" content); try done.
    injection Hst as <-. cbn. intros e He. apply elem_of_app. by left.
  - destruct (objectEntries content) as [entries|] eqn:Hentries.
    + rewrite (processDirectory_directory _ _ _ entries) in Hst by done.
      eapply forEachO_edges_grow; [|done].
      intros [key value] s s' _ Hs. by eapply IH.
    + cbn [processDirectory] in Hst. by rewrite Hleaf, Hentries in Hst.
Qed.

Lemma forEachO_elem {A : Type}
    (f : A → FlatState → Outcome FlatState) (xs : list A) a :
  a ∈ xs →
  (∀ a s s', a ∈ xs → f a s = Returned s' → edges s ⊆ edges s') →
  ∀ s s', forEachO f xs s = Returned s' →
    ∃ s1 s2, f a s1 = Returned s2 ∧ edges s2 ⊆ edges s'.
Proof.
  induction xs as [|a' xs IH]; intros Hin Hf s s' Hs.
  - by apply elem_of_nil in Hin.
  - cbn in Hs. destruct (f a' s) as [s1| |] eqn:Ha'; try done.
    apply elem_of_cons in Hin as [->|Hin].
    + exists s, s1. split; [done|].
      eapply forEachO_edges_grow; [|done].
      intros b t t' Hb. apply Hf. by right.
    + eapply IH; [done| |done]. intros b t t' Hb. apply Hf. by right.
Qed.

Lemma processDirectory_leaf_edges random fuel :
  ∀ content parentPath st st' path leaf dependency dep,
    processDirectory random fuel content parentPath st = Returned st' →
    leafAt content parentPath path leaf →
    getProperty "dependency" leaf = JArr dependency →
    dep ∈ dependency →
    dependencyEdge path dep ∈ edges st'.
Proof.
  induction fuel as [|fuel IH];
    intros content parentPath st st' path leaf dependency dep Hst Hleaf Hdeps Hdep;
    [done|].
  inversion Hleaf as [c p Hc|c p entries key value p' l Hc Hentries Hin Hbelow];
    subst.
  - rewrite processDirectory_leaf in Hst by done. rewrite Hdeps in Hst.
    injection Hst as <-. cbn. apply elem_of_app. right.
    by apply list_elem_of_fmap_2.
  - rewrite (processDirectory_directory _ _ _ entries) in Hst by done.
    eapply (forEachO_elem _ _ _ Hin) in Hst as (s1 & s2 & Hs12 & Hsub).
    + apply Hsub. by eapply (IH value).
    + intros [k v] s s' _ Hs. by eapply processDirectory_edges_grow.
Qed.

Lemma placed_target cfg fuel nodes edges st e :
  calculateLevels fuel nodes edges = Some st → e ∈ edges →
  is_Some (placeNodes cfg (nodesPerLevel st) !! FileEdge.source e) →
  is_Some (placeNodes cfg (nodesPerLevel st) !! FileEdge.target e).
Proof.
  intros Hst He [p Hp].
  destruct (placed_level Hst _ _ _ Hp) as (d & _ & Hd & _).
  apply (levels_reached Hst) in Hd as (r & Hr & Hw).
  apply (reached_placed Hst cfg _ (S d)). exists r.
  split; [done|]. by eapply walk_snoc.
Qed.

(** C4, as stated, fails: in the example of the specification the edge from
    [src/a.ts] to the absent [src/missing.ts] is emitted and the layout
    returns, but the walk follows that edge and the position map does
    contain an entry keyed by [src/missing.ts]. *)
Lemma absent_path_gets_a_position :
  ∃ g st positions,
    generateNodesAndEdges randomZero 2 danglingTree = Returned g ∧
    processDirectory randomZero 2
      (JObj [("a.ts", yamlFile "x" ["src/missing.ts"] "B")]) "src"
      emptyFlatState = Returned st ∧
    FileNode.id <$> nodes st = ["src/a.ts"] ∧
    edges st = [dependencyEdge "src/a.ts" "src/missing.ts"] ∧
    calculateNodePositions spacing_constant 2 (nodes st) (edges st)
    = Some positions ∧
    is_Some (positions !! "src/missing.ts").
Proof.
  eexists _, _, _. split; [vm_compute; reflexivity|].
  split; [vm_compute; reflexivity|]. split; [reflexivity|].
  split; [reflexivity|]. split; [vm_compute; reflexivity|].
  vm_compute. eauto.
Qed.

(** C4, amended: if a leaf declares a dependency path that matches no
    flattened node, the flattener emits the edge from the leaf to that
    absent path; the layout returns unless a dependency cycle is reachable
    from a root node; and the position map it returns has an entry keyed by
    the absent path whenever it has one for the declaring leaf (the walk
    follows the edge to the absent path), provided the absent path is not
    [__proto__]: an assignment to that key of the map sets the prototype
    of the map and adds no entry. *)
Theorem dangling_dependency_is_placed
    cfg random fuel src st path leaf dependency dep :
  processDirectory random fuel src "src" emptyFlatState = Returned st →
  leafAt src "src" path leaf →
  getProperty "dependency" leaf = JArr dependency →
  dep ∈ dependency →
  dep ∉ FileNode.id <$> nodes st →
  dependencyEdge path dep ∈ edges st ∧
  (¬ cycleFromRoot (nodes st) (edges st) →
   is_Some (calculateNodePositions cfg (S (length (edges st)))
              (nodes st) (edges st))) ∧
  (dep ≠ "__proto__" →
   ∀ depth positions,
     calculateNodePositions cfg depth (nodes st) (edges st) = Some positions →
     is_Some (positions !! path) → is_Some (positions !! dep)).
Proof.
  intros Hst Hleaf Hdeps Hdep _.
  pose proof (processDirectory_leaf_edges _ _ _ _ _ _ _ _ _ _
                Hst Hleaf Hdeps Hdep) as Hedge.
  split; [done|]. split.
  - intros Hc. rewrite calculateNodePositions_levels.
    by destruct (calculateLevels_returns _ _ Hc) as [lv ->].
  - intros _ depth positions Hpos Hpath.
    rewrite calculateNodePositions_levels in Hpos.
    destruct (calculateLevels depth (nodes st) (edges st)) as [lv|] eqn:Hlv;
      [|done].
    injection Hpos as <-.
    by apply (placed_target _ _ _ _ _ _ Hlv Hedge).
Qed.

Lemma dangling_dependency_is_placed_witness :
  ∃ st,
    (processDirectory randomZero 2
       (JObj [("a.ts", yamlFile "x" ["src/missing.ts"] "B")]) "src"
       emptyFlatState = Returned st ∧
     leafAt (JObj [("a.ts", yamlFile "x" ["src/missing.ts"] "B")]) "src"
       "src/a.ts" (yamlFile "x" ["src/missing.ts"] "B") ∧
     getProperty "dependency" (yamlFile "x" ["src/missing.ts"] "B")
     = JArr ["src/missing.ts"] ∧
     "src/missing.ts" ∈ ["src/missing.ts"] ∧
     "src/missing.ts" ∉ FileNode.id <$> nodes st) ∧
    dependencyEdge "src/a.ts" "src/missing.ts" ∈ edges st ∧
    (¬ cycleFromRoot (nodes st) (edges st) →
     is_Some (calculateNodePositions spacing_constant (S (length (edges st)))
                (nodes st) (edges st))) ∧
    ("src/missing.ts" ≠ "__proto__" →
     ∀ depth positions,
       calculateNodePositions spacing_constant depth (nodes st) (edges st)
       = Some positions →
       is_Some (positions !! "src/a.ts") →
       is_Some (positions !! "src/missing.ts")).
Proof.
  assert (leafAt (JObj [("a.ts", yamlFile "x" ["src/missing.ts"] "B")]) "src"
            "src/a.ts" (yamlFile "x" ["src/missing.ts"] "B")) as Hleaf.
  { eapply (leafAt_below _ "src" _ "a.ts");
      [reflexivity|reflexivity|left|].
    by apply (leafAt_here _ "src/a.ts"). }
  eexists.
  assert (processDirectory randomZero 2
            (JObj [("a.ts", yamlFile "x" ["src/missing.ts"] "B")]) "src"
            emptyFlatState = Returned _) as Hst by (vm_compute; reflexivity).
  assert ("src/missing.ts" ∈ ["src/missing.ts"]) as Hin by left.
  match type of Hst with _ = Returned ?st =>
    assert ("src/missing.ts" ∉ FileNode.id <$> nodes st) as Hout
  end.
  { cbn. intros [?|?%elem_of_nil]%elem_of_cons; done. }
  split; [done|].
  exact (dangling_dependency_is_placed spacing_constant _ _ _ _ _ _ _ _
           Hst Hleaf eq_refl Hin Hout).
Defined.

(** ** [getExtensionColor] *)

Lemma lookupOr_absent table key fallback :
  key ∉ table.*1 → key ∉ objectPrototypeMembers →
  lookupOr table key fallback = Color fallback.
Proof.
  intros Hkey Hproto. unfold lookupOr.
  destruct (list_find _ table) as [[i [k hex]]|] eqn:Hfind.
  - apply list_find_Some in Hfind as (Hi & Hk & _). cbn in Hk. subst k.
    exfalso. apply Hkey.
    by apply list_elem_of_lookup_2, (list_elem_of_fmap_2 fst) in Hi.
  - by rewrite bool_decide_eq_false_2.
Qed.

(** C9, as stated, fails: ["JS"] is none of the sixteen extensions, yet it
    is mapped to the colour of [js], not to the default, because the
    argument is lower-cased before the table is read. *)
Lemma other_extensions_not_all_default :
  ("JS" ∉ colorMap.*1) ∧
  getExtensionColor (Some "JS") = Color "#f7df1e" ∧
  getExtensionColor (Some "JS") ≠ Color Constant.defaultColor.
Proof.
  split; [apply (bool_decide_unpack _); by vm_compute|].
  split; [reflexivity|done].
Qed.

(** C9, amended: [getExtensionColor] lower-cases its argument; it maps each
    of the sixteen extensions to its colour of the table, and so every
    string whose lower-case form is one of them; every other string whose
    lower-case form names no member of [Object.prototype] is mapped to the
    default colour [#808080], as is a missing argument.  The second
    [getExtensionColor] knows nine extensions, folds no case and defaults
    to [#9E9E9E].  (What the lookup yields for the name of a member of
    [Object.prototype] is no part of the statement.) *)
Theorem getExtensionColor_table :
  (getExtensionColor (Some "js") = Color "#f7df1e" ∧
   getExtensionColor (Some "ts") = Color "#3178c6" ∧
   getExtensionColor (Some "jsx") = Color "#00d8ff" ∧
   getExtensionColor (Some "tsx") = Color "#61dafb" ∧
   getExtensionColor (Some "css") = Color "#264de4" ∧
   getExtensionColor (Some "html") = Color "#e34c26" ∧
   getExtensionColor (Some "yaml") = Color "#cb171e" ∧
   getExtensionColor (Some "dart") = Color "#00b4ab" ∧
   getExtensionColor (Some "python") = Color "#3572A5" ∧
   getExtensionColor (Some "png") = Color "#4CAF50" ∧
   getExtensionColor (Some "glb") = Color "#9C27B0" ∧
   getExtensionColor (Some "mp4") = Color "#F44336" ∧
   getExtensionColor (Some "mp3") = Color "#E91E63" ∧
   getExtensionColor (Some "marp") = Color "#FF9800" ∧
   getExtensionColor (Some "mmd") = Color "#795548" ∧
   getExtensionColor (Some "md") = Color "#607D8B") ∧
  (∀ extension key hex,
     (key, hex) ∈ colorMap → toLowerCase extension = key →
     getExtensionColor (Some extension) = Color hex) ∧
  (∀ extension,
     toLowerCase extension ∉ colorMap.*1 →
     toLowerCase extension ∉ objectPrototypeMembers →
     getExtensionColor (Some extension) = Color "#808080") ∧
  getExtensionColor None = Color "#808080" ∧
  (∀ key hex,
     (key, hex) ∈ StructureFirst.colors →
     StructureFirst.getExtensionColor key = Color hex) ∧
  (∀ extension,
     extension ∉ StructureFirst.colors.*1 →
     extension ∉ objectPrototypeMembers →
     StructureFirst.getExtensionColor extension = Color "#9E9E9E").
Proof.
  split; [repeat split; reflexivity|].
  split; [|split; [|split; [|split]]].
  - intros extension key hex Hin Hlow.
    change (getExtensionColor (Some extension))
      with (lookupOr colorMap (toLowerCase extension) Constant.defaultColor).
    rewrite Hlow. clear Hlow.
    unfold colorMap in Hin.
    repeat (apply elem_of_cons in Hin as [[= -> ->]|Hin]; [reflexivity|]).
    by apply elem_of_nil in Hin.
  - intros extension Hkey Hproto. by apply lookupOr_absent.
  - reflexivity.
  - intros key hex Hin. unfold StructureFirst.colors in Hin.
    repeat (apply elem_of_cons in Hin as [[= -> ->]|Hin]; [reflexivity|]).
    by apply elem_of_nil in Hin.
  - intros extension Hkey Hproto. by apply lookupOr_absent.
Qed.

(** ** [getFileExtension] *)

Lemma split_cons sep c rest :
  split sep (String c rest)
  = if decide (c = sep) then "" :: split sep rest
    else match split sep rest with
         | piece :: pieces => String c piece :: pieces
         | [] => [String c ""]
         end.
Proof. done. Qed.

Lemma split_nonempty sep s : ∃ piece pieces, split sep s = piece :: pieces.
Proof.
  destruct s as [|c rest]; [by eexists _, _|].
  rewrite split_cons. case_decide; [eauto|]. destruct (split sep rest); eauto.
Qed.

Lemma split_without sep s :
  sep ∉ String.list_ascii_of_string s → split sep s = [s].
Proof.
  induction s as [|c rest IH]; [done|].
  cbn [String.list_ascii_of_string]. rewrite not_elem_of_cons.
  intros [Hc Hrest]. rewrite split_cons, decide_False by done.
  by rewrite IH.
Qed.

Lemma split_at_last sep p q :
  sep ∉ String.list_ascii_of_string q →
  split sep (p +:+ String sep q) = split sep p ++ [q].
Proof.
  intros Hq. induction p as [|c p IH].
  - change ("" +:+ String sep q) with (String sep q).
    rewrite split_cons, decide_True by done. by rewrite split_without.
  - change (String c p +:+ String sep q) with (String c (p +:+ String sep q)).
    rewrite !split_cons, IH. case_decide; [done|].
    by destruct (split_nonempty sep p) as (piece & pieces & ->).
Qed.

Lemma last_separator sep s :
  sep ∉ String.list_ascii_of_string s ∨
  ∃ p q, s = p +:+ String sep q ∧ sep ∉ String.list_ascii_of_string q.
Proof.
  induction s as [|c rest [IH|(p & q & -> & Hq)]].
  - left. apply not_elem_of_nil.
  - destruct (decide (c = sep)) as [->|Hc].
    + right. by exists "", rest.
    + left. cbn [String.list_ascii_of_string]. by apply not_elem_of_cons.
  - right. by exists (String c p), q.
Qed.

Lemma getFileExtension_without path :
  "."%char ∉ String.list_ascii_of_string path → getFileExtension path = path.
Proof.
  intros Hdot. unfold getFileExtension. rewrite split_without by done.
  cbn. by case_decide.
Qed.

Lemma getFileExtension_after p q :
  "."%char ∉ String.list_ascii_of_string q →
  getFileExtension (p +:+ String "." q) = q.
Proof.
  intros Hdot. unfold getFileExtension, pop.
  rewrite split_at_last by done. rewrite last_snoc. cbn. by case_decide.
Qed.

(** C10, as stated, fails in its last clause: the path ["a."] is not empty,
    and its extension is the empty string. *)
Lemma trailing_dot_gives_empty_extension :
  getFileExtension "a." = "" ∧ "a." ≠ "".
Proof. split; [reflexivity|done]. Qed.

(** C10, amended: [getFileExtension] returns what follows the last ['.'] of
    its argument, and the whole argument when it contains no ['.']; so for
    every non-empty file name without a ['.'] the extension is the entire
    file name, and the empty string is produced exactly for the empty path
    and for a path that ends in ['.']. *)
Theorem getFileExtension_after_last_dot :
  (∀ name,
     "."%char ∉ String.list_ascii_of_string name →
     getFileExtension name = name) ∧
  (∀ name,
     "."%char ∉ String.list_ascii_of_string name → name ≠ "" →
     getFileExtension name = name ∧ getFileExtension name ≠ "") ∧
  (∀ prefix rest,
     "."%char ∉ String.list_ascii_of_string rest →
     getFileExtension (prefix +:+ String "." rest) = rest) ∧
  (∀ path,
     getFileExtension path = "" ↔ path = "" ∨ ∃ prefix, path = prefix +:+ ".").
Proof.
  split; [apply getFileExtension_without|].
  split; [intros name Hdot Hne; by rewrite getFileExtension_without|].
  split; [apply getFileExtension_after|].
  intros path. split.
  - intros Hext. destruct (last_separator "." path) as [Hdot|(p & q & -> & Hq)].
    + left. by rewrite getFileExtension_without in Hext.
    + right. exists p. rewrite getFileExtension_after in Hext by done.
      by subst q.
  - intros [->|[p ->]]; [reflexivity|].
    apply getFileExtension_after. apply not_elem_of_nil.
Qed.

(** ** The flattener whose edges run from the dependency to the file *)

Lemma placed_is_node_or_target cfg fuel nodes edges st n :
  calculateLevels fuel nodes edges = Some st →
  is_Some (placeNodes cfg (nodesPerLevel st) !! n) →
  n ∈ FileNode.id <$> nodes ∨ ∃ e, e ∈ edges ∧ FileEdge.target e = n.
Proof.
  intros Hst [p Hp].
  destruct (placed_level Hst _ _ _ Hp) as (d & _ & Hd & _).
  apply (levels_reached Hst) in Hd as (r & Hr & Hw).
  destruct d as [|d].
  - left. inversion Hw; subst.
    apply startNodes_elem in Hr as (node & Hnode & <- & _).
    by apply list_elem_of_fmap_2.
  - right. by eapply walk_last.
Qed.

Lemma addSingleFile_targets key fileData st :
  targetsAreNodes st →
  targetsAreNodes (StructureFirst.addSingleFile key fileData st).
Proof.
  intros Hst e. unfold StructureFirst.addSingleFile. cbn.
  rewrite fmap_app, !elem_of_app. intros [He|He].
  - left. by apply Hst.
  - right. apply list_elem_of_fmap in He as (dep & -> & _). cbn. left.
Qed.

Lemma addDirectoryFile_targets key entry st :
  targetsAreNodes st →
  targetsAreNodes (StructureFirst.addDirectoryFile key entry st).
Proof.
  intros Hst e. destruct entry as [filename fileData].
  unfold StructureFirst.addDirectoryFile. cbn.
  rewrite fmap_app, !elem_of_app. intros [He|He].
  - left. by apply Hst.
  - right. apply list_elem_of_fmap in He as (dep & -> & _). cbn. left.
Qed.

Lemma addEntry_targets st entry :
  targetsAreNodes st → targetsAreNodes (StructureFirst.addEntry st entry).
Proof.
  intros Hst. destruct entry as [key [fileData|files]]; cbn.
  - case_decide; [done|]. by apply addSingleFile_targets.
  - case_decide; [done|]. revert st Hst.
    induction files as [|file files IH]; intros st Hst; [done|].
    cbn. apply IH. by apply addDirectoryFile_targets.
Qed.

Lemma flatten_targets yamlData :
  targetsAreNodes (StructureFirst.flatten yamlData).
Proof.
  unfold StructureFirst.flatten.
  assert (targetsAreNodes
            {| nodes := [StructureFirst.structureNode yamlData];
               edges := [];
               agents := setAdd (StructureFirst.agentOf
                                   (StructureFirst.structureYaml yamlData)) [];
               randomCalls := 0 |}) as Hinit
    by (intros e He; by apply elem_of_nil in He).
  revert Hinit. generalize (StructureFirst.src yamlData).
  intros entries. generalize
    {| nodes := [StructureFirst.structureNode yamlData];
       edges := [];
       agents := setAdd (StructureFirst.agentOf
                           (StructureFirst.structureYaml yamlData)) [];
       randomCalls := 0 |}.
  induction entries as [|entry entries IH]; intros st Hst; [done|].
  cbn. apply IH. by apply addEntry_targets.
Qed.

(** With the edges of this flattener a path that is no node is never
    visited: the position map has entries for node ids only. *)
Lemma structure_first_places_nodes_only fuel yamlData positions n :
  calculateNodePositions spacing_literal fuel
    (nodes (StructureFirst.flatten yamlData))
    (edges (StructureFirst.flatten yamlData)) = Some positions →
  n ∉ FileNode.id <$> nodes (StructureFirst.flatten yamlData) →
  positions !! n = None.
Proof.
  rewrite calculateNodePositions_levels. intros Hpos Hn.
  destruct (calculateLevels _ _ _) as [st|] eqn:Hst; [|done].
  injection Hpos as <-.
  destruct (placeNodes _ _ !! n) as [p|] eqn:Hp; [|done]. exfalso.
  destruct (placed_is_node_or_target _ _ _ _ _ _ Hst (mk_is_Some _ _ Hp))
    as [Hin|(e & He & <-)]; [done|].
  by apply Hn, flatten_targets.
Qed.

(** ** Worked examples *)

Example extension_of_dotted_name : getFileExtension "app.test.ts" = "ts".
Proof. reflexivity. Qed.

Example extension_of_plain_name : getFileExtension "Makefile" = "Makefile".
Proof. reflexivity. Qed.

Example file_name_of_path : orEmpty (pop (split "/" "src/app/page.tsx")) = "page.tsx".
Proof. reflexivity. Qed.

Example diamond_positions :
  ∃ positions pm pa pu,
    calculateNodePositions spacing_constant 4 diamondNodes diamondEdges
    = Some positions ∧
    positions !! "src/main.ts" = Some pm ∧
    positions !! "src/a.ts" = Some pa ∧
    positions !! "src/util.ts" = Some pu ∧
    (Position.x pm == 0 ∧ Position.y pm == 0)%Q ∧
    (Position.x pa == -100 ∧ Position.y pa == 200)%Q ∧
    (Position.x pu == 0 ∧ Position.y pu == 400)%Q.
Proof.
  eexists _, _, _, _. split; [vm_compute; reflexivity|].
  do 3 (split; [vm_compute; reflexivity|]). by vm_compute.
Qed.

Lemma diamond_nodesPerLevel :
  nodesPerLevel <$> calculateLevels 4 diamondNodes diamondEdges
  = Some [ (0, ["src/main.ts"]); (1, ["src/a.ts"; "src/util.ts"]);
           (2, ["src/util.ts"]) ].
Proof. vm_compute. reflexivity. Qed.

(** Why the sum of the extremes needs its proviso: [util.ts] is listed at
    level 1 and again at level 2, where it ends; what remains on level 1 is
    [a.ts] alone, left of the centre. *)
Example moved_node_leaves_level_off_centre :
  ∃ positions,
    calculateNodePositions spacing_constant 4 diamondNodes diamondEdges
    = Some positions ∧
    levelMinX positions 200 (-100) ∧ levelMaxX positions 200 (-100).
Proof.
  exists (placeNodes spacing_constant
            [ (0, ["src/main.ts"]); (1, ["src/a.ts"; "src/util.ts"]);
              (2, ["src/util.ts"]) ]).
  split.
  { rewrite calculateNodePositions_levels.
    pose proof diamond_nodesPerLevel as Hn.
    destruct (calculateLevels 4 diamondNodes diamondEdges) as [st|]; [|done].
    cbn in *. by injection Hn as ->. }
  assert (∀ n p,
    placeNodes spacing_constant
      [ (0, ["src/main.ts"]); (1, ["src/a.ts"; "src/util.ts"]);
        (2, ["src/util.ts"]) ] !! n = Some p →
    (Position.y p == 200)%Q → (Position.x p == -100)%Q) as Hlevel.
  { intros n p. rewrite placeNodes_lookup. cbn [finalSlot lastIndex].
    destruct (decide ("src/util.ts" = n)) as [_|_].
    - intros [= <-] Hy. by vm_compute in Hy.
    - destruct (decide ("src/a.ts" = n)) as [_|_].
      + intros [= <-] _. by vm_compute.
      + destruct (decide ("src/main.ts" = n)) as [_|_]; [|done].
        intros [= <-] Hy. by vm_compute in Hy. }
  assert (∃ n p,
    placeNodes spacing_constant
      [ (0, ["src/main.ts"]); (1, ["src/a.ts"; "src/util.ts"]);
        (2, ["src/util.ts"]) ] !! n = Some p ∧
    (Position.y p == 200)%Q ∧ (Position.x p == -100)%Q) as Hex.
  { exists "src/a.ts", (slot spacing_constant 1 2 0).
    split; [by rewrite placeNodes_lookup|]. by vm_compute. }
  split; (split; [done|]); intros n p Hp Hy;
    rewrite (Hlevel _ _ Hp Hy); apply Qle_refl.
Qed.

(** * Further properties of the layout *)

(** X1: the position map the layout returns has an entry for exactly the ids
    the walk from the root nodes reaches; an id no root leads to has none.
    The id [__proto__] is left out: an assignment to that key sets the
    prototype of the map and adds no entry. *)
Theorem positions_exactly_reached cfg fuel nodes edges positions n :
  calculateNodePositions cfg fuel nodes edges = Some positions →
  n ≠ "__proto__" →
  (is_Some (positions !! n) ↔ ∃ d, reachedAt nodes edges n d).
Proof.
  rewrite calculateNodePositions_levels. intros Hpos _.
  destruct (calculateLevels fuel nodes edges) as [st|] eqn:Hst; [|done].
  injection Hpos as <-. split.
  - intros [p Hp]. destruct (placed_level Hst _ _ _ Hp) as (d & _ & Hd & _).
    exists d. by eapply levels_reached.
  - intros [d Hd]. by eapply reached_placed.
Qed.

Lemma positions_exactly_reached_witness :
  ∃ positions,
    (calculateNodePositions spacing_constant 4 diamondNodes diamondEdges
     = Some positions ∧ "src/util.ts" ≠ "__proto__") ∧
    (is_Some (positions !! "src/util.ts")
     ↔ ∃ d, reachedAt diamondNodes diamondEdges "src/util.ts" d).
Proof.
  eexists. split; [split; [vm_compute; reflexivity|done]|].
  apply (positions_exactly_reached spacing_constant 4);
    [vm_compute; reflexivity|done].
Defined.

Lemma startNodes_all_targets nodes edges :
  (∀ node, node ∈ nodes → isTarget edges (FileNode.id node) = true) →
  startNodes nodes edges = [].
Proof.
  intros Hall. unfold startNodes.
  induction nodes as [|node nodes IH]; [done|].
  rewrite filter_cons_False.
  - apply IH. intros node' Hnode'. apply Hall. by right.
  - rewrite (Hall node) by left. done.
Qed.

(** X2: when every node is the target of some edge there is no root node;
    the layout then visits nothing and returns the empty position map, at
    any call depth and whatever cycles the edges hold. *)
Theorem no_root_no_positions cfg fuel nodes edges :
  (∀ node, node ∈ nodes → isTarget edges (FileNode.id node) = true) →
  calculateNodePositions cfg fuel nodes edges = Some ∅.
Proof.
  intros Hall. unfold calculateNodePositions, calculateLevels.
  by rewrite startNodes_all_targets.
Qed.

Lemma no_root_no_positions_witness :
  (∀ node, node ∈ [nodeWithId "src/a.ts"; nodeWithId "src/b.ts"] →
     isTarget [dependencyEdge "src/a.ts" "src/b.ts";
               dependencyEdge "src/b.ts" "src/a.ts"] (FileNode.id node)
     = true) ∧
  calculateNodePositions spacing_constant 0
    [nodeWithId "src/a.ts"; nodeWithId "src/b.ts"]
    [dependencyEdge "src/a.ts" "src/b.ts"; dependencyEdge "src/b.ts" "src/a.ts"]
  = Some ∅.
Proof.
  assert (∀ node, node ∈ [nodeWithId "src/a.ts"; nodeWithId "src/b.ts"] →
     isTarget [dependencyEdge "src/a.ts" "src/b.ts";
               dependencyEdge "src/b.ts" "src/a.ts"] (FileNode.id node)
     = true) as Hall.
  { intros node Hnode. rewrite !elem_of_cons in Hnode.
    destruct Hnode as [->|[->|Hnode]]; [done..|by apply elem_of_nil in Hnode]. }
  split; [exact Hall|].
  exact (no_root_no_positions spacing_constant 0 _ _ Hall).
Defined.

Lemma no_edges_no_cycle nodes : ¬ cycleFromRoot nodes [].
Proof.
  intros (r & k & c & _ & _ & [j Hj]).
  inversion Hj as [|a e k' b He]; subst. by apply elem_of_nil in He.
Qed.

Lemma startNodes_no_edges nodes : startNodes nodes [] = FileNode.id <$> nodes.
Proof.
  unfold startNodes. induction nodes as [|node nodes IH]; [done|].
  rewrite filter_cons_True by done. by rewrite !fmap_cons, IH.
Qed.

Lemma allVisits_no_edges fuel nodes :
  allVisits (S fuel) nodes [] = Some ((λ r, (r, 0)) <$> (FileNode.id <$> nodes)).
Proof.
  unfold allVisits. rewrite startNodes_no_edges.
  generalize (FileNode.id <$> nodes). intros ids.
  assert (mapM (λ r, visitsFrom (S fuel) [] r 0) ids
          = Some ((λ r, [(r, 0)]) <$> ids)) as ->.
  { apply mapM_Some. induction ids as [|r ids IH]; by constructor. }
  cbn. f_equal. induction ids as [|r ids IH]; [done|]. cbn. by rewrite IH.
Qed.

(** X3: without edges every node is a root: the layout puts the nodes, in
    the order of the list, side by side on level 0, the node at index [i]
    of [n] nodes at [x = -(n - 1) * spacing / 2 + i * spacing] and
    [y = 0]. *)
Theorem without_edges_single_row cfg fuel nodes i node :
  NoDup (FileNode.id <$> nodes) →
  nodes !! i = Some node →
  ∃ positions p,
    calculateNodePositions cfg (S fuel) nodes [] = Some positions ∧
    positions !! FileNode.id node = Some p ∧
    (Position.x p == - ((num (length nodes) - 1) * HORIZONTAL_SPACING cfg) / 2
                     + num i * HORIZONTAL_SPACING cfg)%Q ∧
    (Position.y p == 0)%Q.
Proof.
  intros Hnd Hi.
  assert (∃ st, calculateLevels (S fuel) nodes [] = Some st) as [st Hst].
  { destruct (calculateLevels_returns nodes [] (no_edges_no_cycle nodes))
      as [st Hst].
    exists st. eapply calculateLevels_mono; [done|cbn; lia]. }
  assert (idsAt (nodesPerLevel st) 0 = FileNode.id <$> nodes) as Hids.
  { destruct (computed_visits Hst) as (vs & Hvs & ->).
    rewrite allVisits_no_edges in Hvs. injection Hvs as <-.
    destruct (applyVisits_nodesPerLevel
                ((λ r, (r, 0)) <$> (FileNode.id <$> nodes)) emptyLevelState)
      as [_ ->]; [constructor|].
    cbn. generalize (FileNode.id <$> nodes). intros ids.
    induction ids as [|r ids IH]; [done|].
    rewrite fmap_cons, filter_cons_True by done. by rewrite fmap_cons, IH. }
  assert (levels st !! FileNode.id node = Some 0) as Hlevel.
  { apply (levels_max Hst). split.
    - exists (FileNode.id node). split; [|constructor].
      rewrite startNodes_no_edges. apply list_elem_of_fmap_2.
      by eapply list_elem_of_lookup_2.
    - intros d' Hd'. by rewrite (root_reached_at_0 nodes [] _ _ eq_refl Hd'). }
  pose proof (placed_at_index _ _ _ _ cfg 0 i (FileNode.id node) Hst) as Hp.
  rewrite Hids in Hp. rewrite length_fmap in Hp.
  specialize (Hp Hnd ltac:(by rewrite list_lookup_fmap, Hi) Hlevel).
  exists (placeNodes cfg (nodesPerLevel st)), (slot cfg 0 (length nodes) i).
  split; [by rewrite calculateNodePositions_levels, Hst|].
  split; [done|]. split.
  - cbn. unfold startX, staggerX. cbn. ring.
  - apply slot_y_0.
Qed.

Lemma without_edges_single_row_witness :
  (NoDup (FileNode.id <$> chainNodes) ∧
   chainNodes !! 1 = Some (nodeWithId "src/a.ts")) ∧
  ∃ positions p,
    calculateNodePositions spacing_constant 1 chainNodes [] = Some positions ∧
    positions !! "src/a.ts" = Some p ∧
    (Position.x p
     == - ((num (length chainNodes) - 1) * HORIZONTAL_SPACING spacing_constant) / 2
        + num 1 * HORIZONTAL_SPACING spacing_constant)%Q ∧
    (Position.y p == 0)%Q.
Proof.
  assert (NoDup (FileNode.id <$> chainNodes)) as Hnd.
  { apply (bool_decide_unpack _). by vm_compute. }
  split; [by split|].
  exact (without_edges_single_row spacing_constant 0 chainNodes 1
           (nodeWithId "src/a.ts") Hnd eq_refl).
Defined.

(** * Further properties of the recursive flattener *)

Lemma forEachO_preserves {A S : Type} (P : S → Prop)
    (f : A → S → Outcome S) (xs : list A) :
  (∀ a s s', a ∈ xs → P s → f a s = Returned s' → P s') →
  ∀ s s', P s → forEachO f xs s = Returned s' → P s'.
Proof.
  induction xs as [|a xs IH]; intros Hf s s' Hs Hret.
  - by injection Hret as <-.
  - cbn in Hret. destruct (f a s) as [s1| |] eqn:Ha; try done.
    eapply IH; [|by eapply (Hf a); [left|..]|done].
    intros a' t t' Ha'. apply Hf. by right.
Qed.

(** An invariant of the state that every leaf keeps is kept by the whole
    traversal; [Q] is what the invariant may assume of the path. *)
Lemma processDirectory_preserves (Q : string → Prop) (P : FlatState → Prop)
    random :
  (∀ parentPath key, Q parentPath → Q (childPath parentPath key)) →
  (∀ st content path dependency,
     Q path → isYamlFile content = true →
     getProperty "dependency" content = JArr dependency → P st →
     P {| nodes := nodes st ++ [leafNode random content path (randomCalls st)];
          edges := edges st ++ (dependencyEdge path <$> dependency);
          agents := setAdd (getProperty "agent" content) (agents st);
          randomCalls := S (S (randomCalls st)) |}) →
  ∀ fuel content parentPath st st',
    Q parentPath → P st →
    processDirectory random fuel content parentPath st = Returned st' →
    P st'.
Proof.
  intros HQ Hleaf.
  induction fuel as [|fuel IH]; intros content parentPath st st' Hq Hp Hret;
    [done|].
  destruct (isYamlFile content) eqn:Hyaml.
  - rewrite processDirectory_leaf in Hret by done.
    destruct (getProperty "dependency" content) eqn:Hdeps; try done.
    injection Hret as <-. by apply Hleaf.
  - destruct (objectEntries content) as [entries|] eqn:Hentries.
    + rewrite (processDirectory_directory _ _ _ entries) in Hret by done.
      eapply (forEachO_preserves P); [|exact Hp|exact Hret].
      intros [key value] s s' _ Hs Hstep. eapply IH; [|done..]. by apply HQ.
    + cbn [processDirectory] in Hret. by rewrite Hyaml, Hentries in Hret.
Qed.

Lemma processDirectory_edge_sources random fuel content parentPath st :
  processDirectory random fuel content parentPath emptyFlatState = Returned st →
  ∀ e, e ∈ edges st →
    FileEdge.source e ∈ FileNode.id <$> nodes st ∧
    FileEdge.id e = FileEdge.source e +:+ "-" +:+ FileEdge.target e.
Proof.
  apply (processDirectory_preserves (λ _, True)
    (λ st, ∀ e, e ∈ edges st →
       FileEdge.source e ∈ FileNode.id <$> nodes st ∧
       FileEdge.id e = FileEdge.source e +:+ "-" +:+ FileEdge.target e));
    [done| |done|].
  - intros s c path deps _ _ _ Hs e. cbn.
    rewrite fmap_app, !elem_of_app. intros [He|He].
    + destruct (Hs e He). by split; [left|].
    + apply list_elem_of_fmap in He as (dep & -> & _). cbn.
      split; [right; left|done].
  - intros e He. by apply elem_of_nil in He.
Qed.

(** X4: in what the flattener returns every edge starts at a node of the
    node list, and its id is the source, a hyphen, and the target. *)
Theorem flattened_edges_start_at_nodes random fuel content parentPath st :
  processDirectory random fuel content parentPath emptyFlatState = Returned st →
  ∀ e, e ∈ edges st →
    FileEdge.source e ∈ FileNode.id <$> nodes st ∧
    FileEdge.id e = FileEdge.source e +:+ "-" +:+ FileEdge.target e.
Proof. apply processDirectory_edge_sources. Qed.

Lemma flattened_edges_start_at_nodes_witness :
  ∃ st,
    processDirectory randomZero 2
      (JObj [("a.ts", yamlFile "x" ["src/missing.ts"] "B")]) "src"
      emptyFlatState = Returned st ∧
    ∀ e, e ∈ edges st →
      FileEdge.source e ∈ FileNode.id <$> nodes st ∧
      FileEdge.id e = FileEdge.source e +:+ "-" +:+ FileEdge.target e.
Proof.
  eexists. split; [vm_compute; reflexivity|].
  apply (flattened_edges_start_at_nodes randomZero 2
           (JObj [("a.ts", yamlFile "x" ["src/missing.ts"] "B")]) "src").
  vm_compute. reflexivity.
Defined.

Lemma prefix_app a p q :
  String.prefix a p = true → String.prefix a (p +:+ q) = true.
Proof.
  revert p. induction a as [|c a IH]; intros p Hp.
  - by destruct (p +:+ q).
  - destruct p as [|d p]; [done|].
    change (String d p +:+ q) with (String d (p +:+ q)).
    simpl in *. destruct (ascii_dec c d); [by apply IH|done].
Qed.

Lemma underSrc_childPath parentPath key :
  underSrc parentPath → underSrc (childPath parentPath key).
Proof.
  intros [->|Hp]; right; unfold childPath.
  - rewrite decide_False by done. simpl. by destruct key.
  - case_decide; [by subst|]. by apply prefix_app.
Qed.

Lemma underSrc_not_inherited path :
  underSrc path → path ∉ objectPrototypeMembers.
Proof.
  intros Hp Hin. unfold objectPrototypeMembers in Hin.
  rewrite !elem_of_cons in Hin.
  destruct Hp as [->|Hp].
  - repeat (destruct Hin as [Heq|Hin]; [done|]). by apply elem_of_nil in Hin.
  - repeat (destruct Hin as [->|Hin]; [by vm_compute in Hp|]).
    by apply elem_of_nil in Hin.
Qed.

Lemma orEmpty_Some s : orEmpty (Some s) = s.
Proof. cbn. by case_decide. Qed.

Lemma last_segment sep path :
  (sep ∉ String.list_ascii_of_string (orEmpty (pop (split sep path)))) ∧
  (path = orEmpty (pop (split sep path)) ∨
   ∃ q, path = q +:+ String sep (orEmpty (pop (split sep path)))).
Proof.
  destruct (last_separator sep path) as [Hno|(q & r & -> & Hr)].
  - rewrite split_without by done. cbn [pop last]. rewrite orEmpty_Some.
    split; [done|by left].
  - rewrite split_at_last by done. unfold pop. rewrite last_snoc, orEmpty_Some.
    split; [done|]. right. by exists q.
Qed.

(** X5: every node the flattener returns for the tree under [src] has an id
    that is [src] or starts with [src/], hence is no name of a member of
    [Object.prototype]; its label holds no ['/'] and is the id itself or
    what follows the last ['/'] of the id; its extension is the extension
    of the label. *)
Theorem flattened_node_ids random fuel content st :
  processDirectory random fuel content "src" emptyFlatState = Returned st →
  ∀ node, node ∈ nodes st →
    (FileNode.id node = "src"
     ∨ String.prefix "src/" (FileNode.id node) = true) ∧
    (FileNode.id node ∉ objectPrototypeMembers) ∧
    ("/"%char ∉
       String.list_ascii_of_string (NodeData.label (FileNode.data node))) ∧
    (FileNode.id node = NodeData.label (FileNode.data node)
     ∨ ∃ q, FileNode.id node
            = q +:+ "/" +:+ NodeData.label (FileNode.data node)) ∧
    NodeData.extension (FileNode.data node)
    = getFileExtension (NodeData.label (FileNode.data node)).
Proof.
  apply (processDirectory_preserves underSrc
    (λ st, ∀ node, node ∈ nodes st →
       underSrc (FileNode.id node) ∧
       (FileNode.id node ∉ objectPrototypeMembers) ∧
       ("/"%char ∉
          String.list_ascii_of_string (NodeData.label (FileNode.data node))) ∧
       (FileNode.id node = NodeData.label (FileNode.data node)
        ∨ ∃ q, FileNode.id node
               = q +:+ "/" +:+ NodeData.label (FileNode.data node)) ∧
       NodeData.extension (FileNode.data node)
       = getFileExtension (NodeData.label (FileNode.data node))));
    [apply underSrc_childPath| |by left|].
  - intros s c path deps Hq _ _ Hs node. cbn.
    rewrite elem_of_app, list_elem_of_singleton. intros [Hnode| ->].
    + by apply Hs.
    + cbn. destruct (last_segment "/" path) as [Hno Hlast].
      split; [done|]. split; [by apply underSrc_not_inherited|].
      split; [done|]. by split.
  - intros node Hnode. by apply elem_of_nil in Hnode.
Qed.

Lemma flattened_node_ids_witness :
  ∃ st,
    processDirectory randomZero 3
      (JObj [("app", JObj [("page.tsx", yamlFile "page" [] "A")])]) "src"
      emptyFlatState = Returned st ∧
    ∀ node, node ∈ nodes st →
      (FileNode.id node = "src"
       ∨ String.prefix "src/" (FileNode.id node) = true) ∧
      (FileNode.id node ∉ objectPrototypeMembers) ∧
      ("/"%char ∉
         String.list_ascii_of_string (NodeData.label (FileNode.data node))) ∧
      (FileNode.id node = NodeData.label (FileNode.data node)
       ∨ ∃ q, FileNode.id node
              = q +:+ "/" +:+ NodeData.label (FileNode.data node)) ∧
      NodeData.extension (FileNode.data node)
      = getFileExtension (NodeData.label (FileNode.data node)).
Proof.
  eexists. split; [vm_compute; reflexivity|].
  apply (flattened_node_ids randomZero 3
           (JObj [("app", JObj [("page.tsx", yamlFile "page" [] "A")])])).
  vm_compute. reflexivity.
Defined.

(** * The agent set *)

Lemma sameValueZero_sym a b : sameValueZero a b = sameValueZero b a.
Proof.
  destruct a, b; try done; cbn.
  - apply bool_decide_ext. naive_solver.
  - destruct (Qeq_bool n n0) eqn:H1, (Qeq_bool n0 n) eqn:H2; try done.
    + apply Qeq_bool_iff in H1. symmetry in H1. apply Qeq_bool_iff in H1.
      congruence.
    + apply Qeq_bool_iff in H2. symmetry in H2. apply Qeq_bool_iff in H2.
      congruence.
  - apply bool_decide_ext. naive_solver.
Qed.

Lemma existsb_elem {A : Type} (f : A → bool) (xs : list A) :
  existsb f xs = true ↔ ∃ x, x ∈ xs ∧ f x = true.
Proof.
  rewrite existsb_exists. split; intros (x & Hx & Hf); exists x;
    by rewrite list_elem_of_In in *.
Qed.

(** Pushing a node and adding its agent keeps [agentsRecorded]. *)
Lemma agentsRecorded_push nodes agents node :
  agentsRecorded nodes agents →
  agentsRecorded (nodes ++ [node])
    (setAdd (NodeData.agent (FileNode.data node)) agents).
Proof.
  intros (Hin & Hof & Hdistinct & Hlen). unfold setAdd.
  destruct (existsb _ agents) eqn:Hex.
  - apply existsb_elem in Hex as (b & Hb & Hsame).
    split; [|split; [|split]].
    + intros n [Hn|Hn%list_elem_of_singleton]%elem_of_app.
      * by apply Hin.
      * subst n. exists b. by split; [|right].
    + intros c Hc. destruct (Hof c Hc) as (n & Hn & Hagent).
      exists n. split; [|done]. apply elem_of_app. by left.
    + done.
    + rewrite length_app. cbn. lia.
  - assert (∀ b, b ∈ agents →
              sameValueZero (NodeData.agent (FileNode.data node)) b = false)
      as Hnew.
    { intros b Hb. destruct (sameValueZero _ b) eqn:Hsame; [|done].
      assert (existsb (sameValueZero (NodeData.agent (FileNode.data node)))
                agents = true) as Htrue
        by (apply existsb_elem; by exists b).
      congruence. }
    split; [|split; [|split]].
    + intros n [Hn|Hn%list_elem_of_singleton]%elem_of_app.
      * destruct (Hin n Hn) as (b & Hb & Hsame). exists b.
        split; [|done]. apply elem_of_app. by left.
      * subst n. exists (NodeData.agent (FileNode.data node)).
        split; [|by left]. apply elem_of_app. right. by left.
    + intros c [Hc|Hc%list_elem_of_singleton]%elem_of_app.
      * destruct (Hof c Hc) as (n & Hn & Hagent).
        exists n. split; [|done]. apply elem_of_app. by left.
      * subst c. exists node. split; [|done]. apply elem_of_app. right.
        by left.
    + intros i j a b Hi Hj Hsame.
      apply lookup_app_Some in Hi as [Hi|[Hi Hi']];
        apply lookup_app_Some in Hj as [Hj|[Hj Hj']].
      * by eapply Hdistinct.
      * apply list_lookup_singleton_Some in Hj' as [_ <-].
        rewrite sameValueZero_sym, Hnew in Hsame; [done|].
        by eapply list_elem_of_lookup_2.
      * apply list_lookup_singleton_Some in Hi' as [_ <-].
        rewrite Hnew in Hsame; [done|]. by eapply list_elem_of_lookup_2.
      * apply list_lookup_singleton_Some in Hi' as [Hi' _].
        apply list_lookup_singleton_Some in Hj' as [Hj' _]. lia.
    + rewrite !length_app. cbn. lia.
Qed.

Lemma foldl_preserves {A B : Type} (P : A → Prop) (f : A → B → A)
    (xs : list B) :
  (∀ a b, b ∈ xs → P a → P (f a b)) → ∀ a, P a → P (foldl f a xs).
Proof.
  induction xs as [|b xs IH]; intros Hf a Ha; [done|].
  cbn. apply IH; [|apply Hf; [left|done]].
  intros a' b' Hb'. apply Hf. by right.
Qed.

Lemma agentsRecorded_nil : agentsRecorded [] [].
Proof.
  split; [|split; [|split]]; [| | |done].
  - intros n Hn. by apply elem_of_nil in Hn.
  - intros b Hb. by apply elem_of_nil in Hb.
  - intros i j a b Hi. by rewrite lookup_nil in Hi.
Qed.

Lemma shownAgents_elem a agents :
  a ∈ shownAgents agents ↔ a ∈ agents ∧ truthy a = true.
Proof.
  unfold shownAgents. rewrite !list_elem_of_In, filter_In. done.
Qed.

(** X6: in what the recursive flattener returns, the agent set holds the
    agent of every node (the value itself, or an entry that
    [Set.prototype.add] takes for the same value), every entry of the set is
    the agent of a node, no two entries are the same value, the set is no
    larger than the node list, and every agent listed below the graph is a
    truthy agent of a node. *)
Theorem flattened_agents random fuel content parentPath st :
  processDirectory random fuel content parentPath emptyFlatState = Returned st →
  (∀ node, node ∈ nodes st →
     ∃ b, b ∈ agents st ∧
          (b = NodeData.agent (FileNode.data node)
           ∨ sameValueZero (NodeData.agent (FileNode.data node)) b = true)) ∧
  (∀ b, b ∈ agents st →
     ∃ node, node ∈ nodes st ∧ NodeData.agent (FileNode.data node) = b) ∧
  (∀ i j a b, agents st !! i = Some a → agents st !! j = Some b →
     sameValueZero a b = true → i = j) ∧
  length (agents st) ≤ length (nodes st) ∧
  (∀ a, a ∈ shownAgents (agents st) →
     truthy a = true ∧
     ∃ node, node ∈ nodes st ∧ NodeData.agent (FileNode.data node) = a).
Proof.
  intros Hret.
  assert (agentsRecorded (nodes st) (agents st)) as Hrec.
  { revert Hret.
    apply (processDirectory_preserves (λ _, True)
             (λ st, agentsRecorded (nodes st) (agents st))); [done| |done|].
    - intros s c path deps _ _ _ Hs. cbn.
      by apply (agentsRecorded_push (nodes s) (agents s)
                  (leafNode random c path (randomCalls s))).
    - apply agentsRecorded_nil. }
  destruct Hrec as (Hin & Hof & Hdistinct & Hlen).
  do 4 (split; [done|]).
  intros a [Ha Htruthy]%shownAgents_elem. split; [done|]. by apply Hof.
Qed.

Lemma flattened_agents_witness :
  ∃ st,
    processDirectory randomZero 2
      (JObj [("a.ts", yamlFile "x" [] "B"); ("b.ts", yamlFile "y" [] "B")])
      "src" emptyFlatState = Returned st ∧
    (∀ node, node ∈ nodes st →
       ∃ b, b ∈ agents st ∧
            (b = NodeData.agent (FileNode.data node)
             ∨ sameValueZero (NodeData.agent (FileNode.data node)) b = true)) ∧
    (∀ b, b ∈ agents st →
       ∃ node, node ∈ nodes st ∧ NodeData.agent (FileNode.data node) = b) ∧
    (∀ i j a b, agents st !! i = Some a → agents st !! j = Some b →
       sameValueZero a b = true → i = j) ∧
    length (agents st) ≤ length (nodes st) ∧
    (∀ a, a ∈ shownAgents (agents st) →
       truthy a = true ∧
       ∃ node, node ∈ nodes st ∧ NodeData.agent (FileNode.data node) = a).
Proof.
  eexists. split; [vm_compute; reflexivity|].
  apply (flattened_agents randomZero 2
           (JObj [("a.ts", yamlFile "x" [] "B"); ("b.ts", yamlFile "y" [] "B")])
           "src").
  vm_compute. reflexivity.
Defined.

(** X7: the flattener that pushes the [structure.yaml] node first keeps the
    same relation between its agent set and its node list. *)
Theorem structure_first_agents yamlData :
  agentsRecorded (nodes (StructureFirst.flatten yamlData))
                 (agents (StructureFirst.flatten yamlData)) ∧
  (∀ a, a ∈ shownAgents (agents (StructureFirst.flatten yamlData)) →
     truthy a = true ∧
     ∃ node, node ∈ nodes (StructureFirst.flatten yamlData) ∧
             NodeData.agent (FileNode.data node) = a).
Proof.
  assert (agentsRecorded (nodes (StructureFirst.flatten yamlData))
                         (agents (StructureFirst.flatten yamlData))) as Hrec.
  { unfold StructureFirst.flatten.
    apply (foldl_preserves
             (λ st, agentsRecorded (nodes st) (agents st))).
    - intros st [key value] _ Hst. unfold StructureFirst.addEntry.
      case_decide; [done|]. destruct value as [fileData|files].
      + apply (agentsRecorded_push (nodes st) (agents st)
                 (StructureFirst.fileNode _ _ _ _ _)), Hst.
      + revert Hst.
        apply (foldl_preserves
                 (λ st, agentsRecorded (nodes st) (agents st))).
        intros s [filename fileData] _ Hs.
        apply (agentsRecorded_push (nodes s) (agents s)
                 (StructureFirst.fileNode _ _ _ _ _)), Hs.
    - apply (agentsRecorded_push [] []
               (StructureFirst.structureNode yamlData)), agentsRecorded_nil. }
  split; [done|]. destruct Hrec as (_ & Hof & _).
  intros a [Ha Htruthy]%shownAgents_elem. split; [done|]. by apply Hof.
Qed.

(** * When the recursive flattener returns *)

Lemma forEachO_never {A S : Type} (f : A → S → Outcome S) (xs : list A) a :
  a ∈ xs → (∀ s s', f a s ≠ Returned s') →
  ∀ s s', forEachO f xs s ≠ Returned s'.
Proof.
  induction xs as [|x xs IH]; intros Ha Hf s s'.
  - by apply elem_of_nil in Ha.
  - cbn. apply elem_of_cons in Ha as [->|Ha].
    + destruct (f x s) as [s1| |] eqn:Hx; [|done..]. by apply Hf in Hx.
    + destruct (f x s) as [s1| |]; [|done..]. by apply IH.
Qed.

Lemma forEachO_returns {A S : Type} (f : A → S → Outcome S) (xs : list A) :
  (∀ a s, a ∈ xs → ∃ s', f a s = Returned s') →
  ∀ s, ∃ s', forEachO f xs s = Returned s'.
Proof.
  induction xs as [|x xs IH]; intros Hf s; [by eexists|].
  cbn. destruct (Hf x s) as [s1 ->]; [left|].
  apply IH. intros a t Ha. apply Hf. by right.
Qed.

Lemma failsAt_never random value :
  failsAt value →
  ∀ fuel path st st', processDirectory random fuel value path st ≠ Returned st'.
Proof.
  intros Hfails [|fuel] path st st'; [done|].
  destruct value as [| | | |s|items|props]; try done.
  - destruct s as [|c rest]; [done|].
    by rewrite processDirectory_string_overflows.
  - destruct Hfails as [Hleaf Hdeps]. rewrite processDirectory_leaf by done.
    destruct (getProperty "dependency" (JObj props)) as [| | | | |items|]
      eqn:Hd; try done.
    by destruct (Hdeps items).
Qed.

Lemma nesting_entries content entries key value :
  isYamlFile content = false → ¬ failsAt content →
  objectEntries content = Some entries → (key, value) ∈ entries →
  nesting value < nesting content.
Proof.
  intros Hleaf Hfails Hentries Hin.
  destruct content as [| | | |s|items|props]; try done.
  - injection Hentries as <-. by apply elem_of_nil in Hin.
  - injection Hentries as <-. by apply elem_of_nil in Hin.
  - injection Hentries as <-. destruct s as [|c rest].
    + by apply elem_of_nil in Hin.
    + by destruct Hfails.
  - injection Hentries as <-.
    apply list_elem_of_lookup in Hin as [i Hi]. rewrite list_lookup_imap in Hi.
    destruct (items !! i) as [item|]; [|done]. injection Hi as _ <-.
    cbn. lia.
  - injection Hentries as <-. cbn [nesting]. rewrite Hleaf.
    apply Nat.lt_succ_r. clear Hleaf Hfails. induction props as [|[k v] props IH].
    + by apply elem_of_nil in Hin.
    + apply elem_of_cons in Hin as [Heq|Hin].
      * injection Heq as _ <-. lia.
      * specialize (IH Hin). lia.
Qed.

Lemma processDirectory_returns random fuel :
  ∀ content parentPath st,
    (∀ path v, visitedAt content parentPath path v → ¬ failsAt v) →
    nesting content < fuel →
    ∃ st', processDirectory random fuel content parentPath st = Returned st'.
Proof.
  induction fuel as [|fuel IH]; intros content parentPath st Hok Hfuel; [lia|].
  assert (¬ failsAt content) as Hhere by (apply (Hok parentPath); constructor).
  destruct (isYamlFile content) eqn:Hleaf.
  - rewrite processDirectory_leaf by done.
    destruct content as [| | | | | |props]; try done.
    destruct (getProperty "dependency" (JObj props)) eqn:Hd;
      try (by eexists); exfalso; apply Hhere;
      (split; [done|intros dep; by rewrite Hd]).
  - destruct (objectEntries content) as [entries|] eqn:Hentries.
    + rewrite (processDirectory_directory _ _ _ entries) by done.
      apply forEachO_returns. intros [key value] s Hin. apply IH.
      * intros path v Hv. apply (Hok path). by eapply visitedAt_below.
      * pose proof (nesting_entries _ _ _ _ Hleaf Hhere Hentries Hin). lia.
    + by destruct content.
Qed.

(** X8: a call of the flattener does not return, whatever the call depth
    allowed and the state it starts in, when its traversal arrives at
    [null] or [undefined], at a non-empty string, or at a leaf whose
    [dependency] is not a sequence. *)
Theorem failing_value_never_returns content parentPath path v :
  visitedAt content parentPath path v → failsAt v →
  ∀ random fuel st st',
    processDirectory random fuel content parentPath st ≠ Returned st'.
Proof.
  intros Hvisited Hfails random.
  induction Hvisited as [content path|content parentPath entries key value
                                       path v Hleaf Hentries Hin Hvisited IH];
    intros fuel st st'.
  - by apply failsAt_never.
  - destruct fuel as [|fuel]; [done|].
    rewrite (processDirectory_directory _ _ _ entries) by done.
    apply (forEachO_never _ _ (key, value)); [done|].
    intros s s'. by apply IH.
Qed.

Lemma failing_value_never_returns_witness :
  (visitedAt (JObj [("a.ts", yamlFile "x" [] "A"); ("notes", JStr "todo")])
     "src" "src/notes" (JStr "todo") ∧
   failsAt (JStr "todo")) ∧
  ∀ random fuel st st',
    processDirectory random fuel
      (JObj [("a.ts", yamlFile "x" [] "A"); ("notes", JStr "todo")]) "src" st
    ≠ Returned st'.
Proof.
  assert (visitedAt (JObj [("a.ts", yamlFile "x" [] "A"); ("notes", JStr "todo")])
            "src" "src/notes" (JStr "todo")) as Hvisited.
  { eapply (visitedAt_below _ _ _ "notes" (JStr "todo"));
      [reflexivity|reflexivity|right; left|apply visitedAt_here]. }
  assert (failsAt (JStr "todo")) as Hfails by done.
  split; [by split|].
  exact (failing_value_never_returns _ _ _ _ Hvisited Hfails).
Defined.

(** X9: conversely, when the traversal arrives at no such value, the call
    returns as soon as the call depth allowed exceeds the nesting of the
    tree. *)
Theorem flattener_returns random fuel content parentPath st :
  (∀ path v, visitedAt content parentPath path v → ¬ failsAt v) →
  nesting content < fuel →
  ∃ st', processDirectory random fuel content parentPath st = Returned st'.
Proof. apply processDirectory_returns. Qed.

Lemma flattener_returns_witness :
  ((∀ path v, visitedAt (JObj [("a.ts", yamlFile "x" [] "A")]) "src" path v →
      ¬ failsAt v) ∧
   nesting (JObj [("a.ts", yamlFile "x" [] "A")]) < 2) ∧
  ∃ st',
    processDirectory randomZero 2 (JObj [("a.ts", yamlFile "x" [] "A")]) "src"
      emptyFlatState = Returned st'.
Proof.
  assert (∀ path v,
            visitedAt (JObj [("a.ts", yamlFile "x" [] "A")]) "src" path v →
            ¬ failsAt v) as Hok.
  { intros path v Hv. inversion Hv as [|? ? entries key value ? ? _ He Hin Hv'];
      subst.
    - intros [Hleaf _]. done.
    - injection He as <-. apply list_elem_of_singleton in Hin.
      injection Hin as -> ->.
      inversion Hv' as [|? ? ? ? ? ? ? Hleaf]; subst.
      + intros [_ Hdeps]. by apply (Hdeps []).
      + done. }
  assert (nesting (JObj [("a.ts", yamlFile "x" [] "A")]) < 2) as Hfuel
    by (vm_compute; lia).
  split; [by split|].
  exact (flattener_returns randomZero 2 _ "src" emptyFlatState Hok Hfuel).
Defined.

(** * The flattener that starts with [structure.yaml] *)

Lemma chars_app a b :
  String.list_ascii_of_string (a +:+ b)
  = String.list_ascii_of_string a ++ String.list_ascii_of_string b.
Proof. induction a as [|c a IH]; [done|]. simpl. by f_equal. Qed.

Lemma under_src_prefix k : String.prefix "src/" ("src/" +:+ k) = true.
Proof. cbn. by destruct k. Qed.

Lemma structureFirstShape_push yamlData st k fileNode newEdges agents' calls' :
  structureFirstShape yamlData st →
  FileNode.id fileNode = "src/" +:+ k → k ≠ "structure.yaml" →
  (∀ e, e ∈ newEdges →
     FileEdge.target e = FileNode.id fileNode ∧
     FileEdge.id e = FileEdge.target e +:+ "-" +:+ FileEdge.source e) →
  structureFirstShape yamlData
    {| nodes := nodes st ++ [fileNode]; edges := edges st ++ newEdges;
       agents := agents'; randomCalls := calls' |}.
Proof.
  intros (rest & Hnodes & Hrest & Hedges) Hid Hk Hnew.
  exists (rest ++ [fileNode]). cbn. split; [by rewrite Hnodes|]. split.
  - intros node [Hnode|Hnode%list_elem_of_singleton]%elem_of_app;
      [by apply Hrest|].
    subst node. rewrite Hid. split; [apply under_src_prefix|].
    intros Heq. apply Hk. simpl in Heq. by injection Heq.
  - intros e [He|He]%elem_of_app.
    + destruct (Hedges e He) as [Ht Hi]. split; [|done].
      rewrite fmap_app, elem_of_app. by left.
    + destruct (Hnew e He) as [Ht Hi]. split; [|done].
      rewrite Ht, fmap_app, elem_of_app. right. cbn. left.
Qed.

Lemma directory_path_not_structure key filename :
  key +:+ "/" +:+ filename ≠ "structure.yaml".
Proof.
  intros Heq.
  assert ("/"%char ∈ String.list_ascii_of_string "structure.yaml") as Hin.
  { rewrite <- Heq, chars_app, elem_of_app. right. cbn. left. }
  revert Hin. apply (bool_decide_unpack _). by vm_compute.
Qed.

Lemma flatten_shape yamlData :
  structureFirstShape yamlData (StructureFirst.flatten yamlData).
Proof.
  unfold StructureFirst.flatten.
  apply (foldl_preserves (structureFirstShape yamlData)).
  - intros st [key value] _ Hst. unfold StructureFirst.addEntry.
    case_decide as Hkey; [done|]. destruct value as [fileData|files].
    + apply (structureFirstShape_push _ _ key); [done|done|done|].
      intros e (dep & -> & _)%list_elem_of_fmap. by split.
    + revert Hst. apply (foldl_preserves (structureFirstShape yamlData)).
      intros s [filename fileData] _ Hs.
      apply (structureFirstShape_push _ _ (key +:+ "/" +:+ filename));
        [done|done|apply directory_path_not_structure|].
      intros e (dep & -> & _)%list_elem_of_fmap. by split.
  - exists []. split; [done|]. split.
    + intros node Hnode. by apply elem_of_nil in Hnode.
    + intros e He. by apply elem_of_nil in He.
Qed.

Lemma flatten_structure_root yamlData :
  isTarget (edges (StructureFirst.flatten yamlData)) "src/structure.yaml"
  = false.
Proof.
  destruct (flatten_shape yamlData) as (rest & Hnodes & Hrest & Hedges).
  destruct (isTarget _ _) eqn:Ht; [|done].
  apply isTarget_true in Ht as (e & He & Htarget).
  destruct (Hedges e He) as [Hin _]. rewrite Htarget in Hin.
  apply list_elem_of_fmap in Hin as (node & Hid & Hnode).
  by destruct (Hrest node Hnode) as [_ []].
Qed.

Lemma flatten_initial_positions yamlData node :
  node ∈ nodes (StructureFirst.flatten yamlData) →
  FileNode.position node = {| Position.x := 0; Position.y := 0 |}.
Proof.
  revert node. unfold StructureFirst.flatten.
  apply (foldl_preserves
           (λ st, ∀ node, node ∈ nodes st →
              FileNode.position node = {| Position.x := 0; Position.y := 0 |})).
  - intros st [key value] _ Hst. unfold StructureFirst.addEntry.
    case_decide; [done|]. destruct value as [fileData|files].
    + intros node [Hn|Hn%list_elem_of_singleton]%elem_of_app;
        [by apply Hst|by subst].
    + revert Hst.
      apply (foldl_preserves
               (λ st, ∀ node, node ∈ nodes st →
                  FileNode.position node
                  = {| Position.x := 0; Position.y := 0 |})).
      intros s [filename fileData] _ Hs.
      intros node [Hn|Hn%list_elem_of_singleton]%elem_of_app;
        [by apply Hs|by subst].
  - intros node Hn%list_elem_of_singleton. by subst.
Qed.

(** X10: whatever the input, the node list of this flattener starts with
    the [structure.yaml] node; every other node has an id that starts with
    [src/] and is not [src/structure.yaml]; every edge ends at one of these
    other nodes, so no edge ends at the [structure.yaml] node, which is
    therefore a root of the layout; and an edge is named after its target
    and its source. *)
Theorem structure_first_shape yamlData :
  (∃ rest,
     nodes (StructureFirst.flatten yamlData)
     = StructureFirst.structureNode yamlData :: rest ∧
     (∀ node, node ∈ rest →
        String.prefix "src/" (FileNode.id node) = true ∧
        FileNode.id node ≠ "src/structure.yaml") ∧
     (∀ e, e ∈ edges (StructureFirst.flatten yamlData) →
        FileEdge.target e ∈ FileNode.id <$> rest ∧
        FileEdge.id e = FileEdge.target e +:+ "-" +:+ FileEdge.source e)) ∧
  isTarget (edges (StructureFirst.flatten yamlData)) "src/structure.yaml"
  = false ∧
  "src/structure.yaml"
  ∈ startNodes (nodes (StructureFirst.flatten yamlData))
               (edges (StructureFirst.flatten yamlData)).
Proof.
  split; [apply flatten_shape|]. split; [apply flatten_structure_root|].
  apply startNodes_elem. exists (StructureFirst.structureNode yamlData).
  split; [|split; [done|apply flatten_structure_root]].
  destruct (flatten_shape yamlData) as (rest & -> & _). left.
Qed.

(** X11: when this [generateNodesAndEdges] returns, the first node of the
    graph is the [structure.yaml] node, placed on level 0 ([y = 0]); every
    node keeps its id, data and style; a node the walk from the roots
    reaches has the position the layout computed for it, and any other node
    stays at [(0, 0)]; and the layout has placed nothing but nodes. *)
Theorem structure_first_graph fuel yamlData g :
  StructureFirst.generateNodesAndEdges fuel yamlData = Returned g →
  ∃ positions first rest,
    calculateNodePositions spacing_literal fuel
      (nodes (StructureFirst.flatten yamlData))
      (edges (StructureFirst.flatten yamlData)) = Some positions ∧
    graphNodes g = first :: rest ∧
    FileNode.id first = "src/structure.yaml" ∧
    FileNode.data first
    = FileNode.data (StructureFirst.structureNode yamlData) ∧
    (Position.y (FileNode.position first) == 0)%Q ∧
    (∀ n, is_Some (positions !! n) →
       n ∈ FileNode.id <$> nodes (StructureFirst.flatten yamlData)) ∧
    (∀ i node, graphNodes g !! i = Some node →
       ∃ node0,
         nodes (StructureFirst.flatten yamlData) !! i = Some node0 ∧
         FileNode.id node = FileNode.id node0 ∧
         FileNode.data node = FileNode.data node0 ∧
         FileNode.style node = FileNode.style node0 ∧
         match positions !! FileNode.id node0 with
         | Some p => FileNode.position node = p
         | None => FileNode.position node = {| Position.x := 0; Position.y := 0 |}
         end).
Proof.
  unfold StructureFirst.generateNodesAndEdges.
  destruct (calculateNodePositions _ _ _ _) as [positions|] eqn:Hpos; [|done].
  intros [= <-]. cbn [graphNodes].
  pose proof Hpos as Hlevels. rewrite calculateNodePositions_levels in Hlevels.
  destruct (calculateLevels _ _ _) as [st|] eqn:Hst; [|done].
  injection Hlevels as Hpositions.
  destruct (flatten_shape yamlData) as (others & Hnodes & Hothers & Hedges).
  assert (reachedAt (nodes (StructureFirst.flatten yamlData))
            (edges (StructureFirst.flatten yamlData)) "src/structure.yaml" 0)
    as Hreached.
  { exists "src/structure.yaml". split; [|constructor].
    apply startNodes_elem. exists (StructureFirst.structureNode yamlData).
    split; [|split; [done|apply flatten_structure_root]].
    rewrite Hnodes. left. }
  assert (levels st !! "src/structure.yaml" = Some 0) as Hlevel.
  { apply (levels_max Hst). split; [done|]. intros d' Hd'.
    by rewrite (root_reached_at_0 _ _ _ _ (flatten_structure_root yamlData) Hd'). }
  destruct (reached_placed Hst spacing_literal _ _ Hreached) as [p Hp].
  rewrite Hpositions in Hp.
  exists positions,
    (applyPositions positions (StructureFirst.structureNode yamlData)),
    (applyPositions positions <$> others).
  split; [done|]. split; [by rewrite Hnodes|].
  unfold applyPositions at 1 2 3. cbn [StructureFirst.structureNode
    StructureFirst.fileNode FileNode.id]. rewrite Hp. cbn.
  split; [done|]. split; [done|]. split.
  { rewrite <- Hpositions in Hp.
    destruct (placed_level Hst _ _ _ Hp) as (d & j & Hd & _ & ->).
    replace d with 0 by congruence. apply slot_y_0. }
  split.
  { intros n [q Hq].
    destruct (decide (n ∈ FileNode.id <$>
                nodes (StructureFirst.flatten yamlData))) as [|Hn]; [done|].
    pose proof (structure_first_places_nodes_only _ _ _ _ Hpos Hn). congruence. }
  intros i node Hi. rewrite list_lookup_fmap in Hi.
  destruct (nodes (StructureFirst.flatten yamlData) !! i) as [node0|] eqn:Hi0;
    [|done].
  injection Hi as <-. exists node0. split; [done|]. unfold applyPositions.
  destruct (positions !! FileNode.id node0) as [q|] eqn:Hq; cbn; [done|].
  do 3 (split; [done|]).
  apply (flatten_initial_positions yamlData). by eapply list_elem_of_lookup_2.
Qed.

Lemma structure_first_graph_witness :
  ∃ g,
    StructureFirst.generateNodesAndEdges 3 docsYamlData = Returned g ∧
    ∃ positions first rest,
      calculateNodePositions spacing_literal 3
        (nodes (StructureFirst.flatten docsYamlData))
        (edges (StructureFirst.flatten docsYamlData)) = Some positions ∧
      graphNodes g = first :: rest ∧
      FileNode.id first = "src/structure.yaml" ∧
      FileNode.data first
      = FileNode.data (StructureFirst.structureNode docsYamlData) ∧
      (Position.y (FileNode.position first) == 0)%Q ∧
      (∀ n, is_Some (positions !! n) →
         n ∈ FileNode.id <$> nodes (StructureFirst.flatten docsYamlData)) ∧
      (∀ i node, graphNodes g !! i = Some node →
         ∃ node0,
           nodes (StructureFirst.flatten docsYamlData) !! i = Some node0 ∧
           FileNode.id node = FileNode.id node0 ∧
           FileNode.data node = FileNode.data node0 ∧
           FileNode.style node = FileNode.style node0 ∧
           match positions !! FileNode.id node0 with
           | Some p => FileNode.position node = p
           | None =>
               FileNode.position node = {| Position.x := 0; Position.y := 0 |}
           end).
Proof.
  eexists. split; [vm_compute; reflexivity|].
  apply (structure_first_graph 3 docsYamlData). vm_compute. reflexivity.
Defined.

(** * Trees without a dependency cycle *)

(** Walking the edges backwards from a node: on an edge list without a
    cycle whose sources are nodes, the way back ends at a root. *)
Lemma reached_from_below nodes edges :
  (∀ c, ¬ onCycle edges c) →
  (∀ e, e ∈ edges → FileEdge.source e ∈ FileNode.id <$> nodes) →
  ∀ k m j n (p : list string),
    m ∈ FileNode.id <$> nodes → walk edges m j n → NoDup p →
    (∀ a, a ∈ p → a ∈ FileNode.id <$> nodes ∧ ∃ i, walk edges m (S i) a) →
    length nodes < k + length p →
    ∃ d, reachedAt nodes edges n d.
Proof.
  intros Hacyclic Hsources.
  induction k as [|k IH]; intros m j n p Hm Hwalk Hnd Hp Hlen.
  - assert (p ⊆+ FileNode.id <$> nodes) as Hsub
      by (apply NoDup_submseteq; [done|]; intros a Ha; by apply Hp).
    apply submseteq_length in Hsub. rewrite length_fmap in Hsub. lia.
  - destruct (isTarget edges m) eqn:Htarget.
    + apply isTarget_true in Htarget as (e & He & Hte).
      apply (IH (FileEdge.source e) (S j) n (m :: p)).
      * by apply Hsources.
      * apply (walk_edge _ _ e); [done|done|by rewrite Hte].
      * apply NoDup_cons. split; [|done].
        intros Hin. destruct (Hp m Hin) as [_ [i Hi]].
        by apply (Hacyclic m); exists i.
      * intros a [->|Ha]%elem_of_cons.
        -- split; [done|]. exists 0.
           apply (walk_edge _ _ e); [done|done|]. rewrite Hte. constructor.
        -- destruct (Hp a Ha) as [Hin [i Hi]]. split; [done|]. exists (S i).
           apply (walk_edge _ _ e); [done|done|by rewrite Hte].
      * cbn. lia.
    + exists j, m. split; [|done]. apply startNodes_elem.
      apply list_elem_of_fmap in Hm as (node & -> & Hnode). by exists node.
Qed.

Lemma acyclic_all_reached nodes edges node :
  (∀ c, ¬ onCycle edges c) →
  (∀ e, e ∈ edges → FileEdge.source e ∈ FileNode.id <$> nodes) →
  node ∈ nodes → ∃ d, reachedAt nodes edges (FileNode.id node) d.
Proof.
  intros Hacyclic Hsources Hnode.
  apply (reached_from_below nodes edges Hacyclic Hsources
           (S (length nodes)) (FileNode.id node) 0 _ []).
  - by apply list_elem_of_fmap_2.
  - constructor.
  - constructor.
  - intros a Ha. by apply elem_of_nil in Ha.
  - cbn. lia.
Qed.

Lemma applyPositions_placed positions node :
  is_Some (positions !! FileNode.id node) →
  applyPositions positions node
  = applyPositions positions (withoutPosition node).
Proof. intros [p Hp]. unfold applyPositions. cbn. by rewrite Hp. Qed.

(** X12: when the dependencies of the tree hold no cycle and
    [generateNodesAndEdges] returns, the layout has placed every node, every
    node of the graph carries the position the layout computed for it, and
    the graph does not depend on what [Math.random()] drew. *)
Theorem acyclic_graph_fully_placed random fuel yamlData g :
  generateNodesAndEdges random fuel yamlData = Returned g →
  (∀ c, ¬ onCycle (graphEdges g) c) →
  (∃ positions,
     calculateNodePositions spacing_constant fuel (graphNodes g) (graphEdges g)
     = Some positions ∧
     ∀ node, node ∈ graphNodes g →
       positions !! FileNode.id node = Some (FileNode.position node)) ∧
  ∀ random', generateNodesAndEdges random' fuel yamlData = Returned g.
Proof.
  unfold generateNodesAndEdges.
  destruct (readSrc yamlData) as [src|]; [|done].
  destruct (processDirectory random fuel src "src" emptyFlatState)
    as [st| |] eqn:Hst; [|done..].
  destruct (calculateNodePositions spacing_constant fuel (nodes st) (edges st))
    as [positions|] eqn:Hpos; [|done].
  intros [= <-]. cbn [graphNodes graphEdges]. intros Hacyclic.
  assert (∀ node, node ∈ nodes st →
            is_Some (positions !! FileNode.id node)) as Hplaced.
  { intros node Hnode.
    destruct (acyclic_all_reached (nodes st) (edges st) node Hacyclic)
      as [d Hd]; [|done|].
    - intros e He. by apply (processDirectory_edge_sources _ _ _ _ _ Hst).
    - rewrite calculateNodePositions_levels in Hpos.
      destruct (calculateLevels _ _ _) as [ls|] eqn:Hls; [|done].
      injection Hpos as <-. by apply (reached_placed Hls _ _ d). }
  split.
  - exists positions. split.
    + rewrite <- Hpos. apply calculateNodePositions_ids.
      rewrite <- list_fmap_compose. apply list_fmap_ext.
      intros ? node ?. cbn. unfold applyPositions.
      by destruct (positions !! _).
    + intros node' (node & -> & Hnode)%list_elem_of_fmap.
      destruct (Hplaced node Hnode) as [p Hp].
      unfold applyPositions. by rewrite Hp.
  - intros random'.
    pose proof (processDirectory_withoutPositions random random' fuel src "src"
                  emptyFlatState emptyFlatState eq_refl) as Hpd.
    rewrite Hst in Hpd.
    destruct (processDirectory random' fuel src "src" emptyFlatState)
      as [st'| |]; [|done..].
    injection Hpd as Hn He Ha _.
    pose proof (withoutPosition_ids _ _ Hn) as Hids.
    rewrite <- He, <- Ha.
    rewrite <- (calculateNodePositions_ids _ _ _ _ _ Hids), Hpos.
    assert (applyPositions positions <$> nodes st'
            = applyPositions positions <$> nodes st) as Hsame;
      [|by rewrite Hsame].
    transitivity (applyPositions positions <$> (withoutPosition <$> nodes st')).
    + rewrite <- list_fmap_compose. apply list_fmap_ext.
      intros i node Hi. cbn. apply applyPositions_placed.
      assert (FileNode.id node ∈ FileNode.id <$> nodes st) as Hin.
      { rewrite Hids. apply list_elem_of_fmap_2.
        by eapply list_elem_of_lookup_2. }
      apply list_elem_of_fmap in Hin as (node0 & -> & Hnode0).
      by apply Hplaced.
    + rewrite <- Hn, <- list_fmap_compose. symmetry. apply list_fmap_ext.
      intros i node Hi. cbn. apply applyPositions_placed, Hplaced.
      by eapply list_elem_of_lookup_2.
Qed.

Lemma acyclic_graph_fully_placed_witness :
  ∃ g,
    (generateNodesAndEdges randomZero 3 chainTree = Returned g ∧
     ∀ c, ¬ onCycle (graphEdges g) c) ∧
    (∃ positions,
       calculateNodePositions spacing_constant 3 (graphNodes g) (graphEdges g)
       = Some positions ∧
       ∀ node, node ∈ graphNodes g →
         positions !! FileNode.id node = Some (FileNode.position node)) ∧
    ∀ random', generateNodesAndEdges random' 3 chainTree = Returned g.
Proof.
  eexists.
  assert (generateNodesAndEdges randomZero 3 chainTree = Returned _) as Hg
    by (vm_compute; reflexivity).
  match type of Hg with _ = Returned ?g =>
    assert (∀ c, ¬ onCycle (graphEdges g) c) as Hacyclic
  end.
  { intros c [k Hk]. cbn in Hk.
    inversion Hk as [|? e ? ? He Hsource Hrest]; subst.
    apply list_elem_of_singleton in He. subst e. cbn in Hrest.
    inversion Hrest as [|? e ? ? He Hsource _]; subst.
    apply list_elem_of_singleton in He. by subst e. }
  split; [by split|].
  exact (acyclic_graph_fully_placed randomZero 3 chainTree _ Hg Hacyclic).
Defined.

(** * The content preview of a node *)

Lemma append_empty s : s +:+ "" = s.
Proof.
  induction s as [|c s IH]; [done|].
  change (String c s +:+ "") with (String c (s +:+ "")). by rewrite IH.
Qed.

Lemma append_append a b c : (a +:+ b) +:+ c = a +:+ (b +:+ c).
Proof.
  induction a as [|d a IH]; [done|].
  change ((String d a +:+ b) +:+ c) with (String d ((a +:+ b) +:+ c)).
  change (String d a +:+ (b +:+ c)) with (String d (a +:+ (b +:+ c))).
  by rewrite IH.
Qed.

Lemma join_cons sep x y ys :
  join sep (x :: y :: ys) = x +:+ sep +:+ join sep (y :: ys).
Proof. done. Qed.

Lemma join_String sep c piece pieces :
  join sep (String c piece :: pieces) = String c (join sep (piece :: pieces)).
Proof. by destruct pieces. Qed.

(** Joining what [split] returns gives the string back. *)
Lemma join_split sep s : join (String sep "") (split sep s) = s.
Proof.
  induction s as [|c rest IH]; [done|].
  rewrite split_cons.
  destruct (split_nonempty sep rest) as (piece & pieces & Hs).
  rewrite Hs in *. case_decide as Hc.
  - subst c. rewrite join_cons, IH. done.
  - by rewrite join_String, IH.
Qed.

Lemma split_pieces sep s piece :
  piece ∈ split sep s → sep ∉ String.list_ascii_of_string piece.
Proof.
  revert piece. induction s as [|c rest IH]; intros piece.
  - intros ->%list_elem_of_singleton. apply not_elem_of_nil.
  - rewrite split_cons.
    destruct (split_nonempty sep rest) as (first & pieces & Hs).
    rewrite Hs in *. case_decide as Hc.
    + intros [->|Hin]%elem_of_cons; [apply not_elem_of_nil|by apply IH].
    + intros [->|Hin]%elem_of_cons.
      * cbn [String.list_ascii_of_string]. apply not_elem_of_cons.
        split; [congruence|]. apply IH. left.
      * apply IH. by right.
Qed.

Lemma split_first sep x t :
  sep ∉ String.list_ascii_of_string x →
  split sep (x +:+ String sep t) = x :: split sep t.
Proof.
  induction x as [|c x IH]; intros Hx.
  - change ("" +:+ String sep t) with (String sep t).
    by rewrite split_cons, decide_True.
  - cbn [String.list_ascii_of_string] in Hx.
    apply not_elem_of_cons in Hx as [Hc Hx].
    change (String c x +:+ String sep t) with (String c (x +:+ String sep t)).
    rewrite split_cons, decide_False by congruence. by rewrite IH.
Qed.

(** Splitting what [join] returns gives the pieces back, when there is a
    piece and no piece holds the separator. *)
Lemma split_join sep pieces :
  pieces ≠ [] →
  (∀ piece, piece ∈ pieces → sep ∉ String.list_ascii_of_string piece) →
  split sep (join (String sep "") pieces) = pieces.
Proof.
  induction pieces as [|x [|y ys] IH]; intros Hne Hp; [done| |].
  - cbn [join]. apply split_without, Hp. left.
  - rewrite join_cons.
    change (x +:+ String sep "" +:+ join (String sep "") (y :: ys))
      with (x +:+ String sep (join (String sep "") (y :: ys))).
    rewrite split_first by (apply Hp; left).
    rewrite IH; [done|done|]. intros piece Hin. apply Hp. by right.
Qed.

Lemma join_app sep xs ys :
  xs ≠ [] → ∃ rest, join sep (xs ++ ys) = join sep xs +:+ rest.
Proof.
  induction xs as [|x [|x' xs] IH]; intros Hne; [done| |].
  - destruct ys as [|y ys].
    + exists "". cbn. by rewrite append_empty.
    + by exists (sep +:+ join sep (y :: ys)).
  - destruct IH as [rest Hrest]; [done|]. exists rest.
    cbn [app] in *. rewrite (join_cons sep x x' (xs ++ ys)), Hrest.
    by rewrite join_cons, !append_append.
Qed.

(** X13: for a node whose content is a string, [CustomNode] prints the
    first two lines of the content: what it prints splits at the line
    breaks into the first two pieces of the content, it is a prefix of the
    content, it is the whole content when the content has at most one line
    break, and printing the preview of the preview changes nothing. *)
Theorem content_preview_first_two_lines s :
  ∃ p,
    contentPreview (JStr s) = Returned (Some p) ∧
    split newline p = take 2 (split newline s) ∧
    (∃ rest, s = p +:+ rest) ∧
    (length (split newline s) ≤ 2 → p = s) ∧
    contentPreview (JStr p) = Returned (Some p).
Proof.
  exists (join (String newline "") (take 2 (split newline s))).
  split; [done|].
  assert (take 2 (split newline s) ≠ []) as Hne.
  { by destruct (split_nonempty newline s) as (a & b & ->). }
  assert (split newline (join (String newline "") (take 2 (split newline s)))
          = take 2 (split newline s)) as Hsplit.
  { apply split_join; [done|]. intros piece Hin.
    apply (split_pieces newline s). by eapply subseteq_take. }
  split; [done|]. split; [|split].
  - destruct (join_app (String newline "") (take 2 (split newline s))
                (drop 2 (split newline s)) Hne) as [rest Hrest].
    exists rest. by rewrite <- Hrest, take_drop, join_split.
  - intros Hlen. rewrite take_ge by done. apply join_split.
  - cbn [contentPreview]. by rewrite Hsplit, take_idemp.
Qed.

(** * The grid of [handleAutoLayout] *)

Lemma gridPosition_inj i j :
  (Position.x (gridPosition i) == Position.x (gridPosition j))%Q →
  (Position.y (gridPosition i) == Position.y (gridPosition j))%Q →
  i = j.
Proof.
  unfold gridPosition. cbn [Position.x Position.y].
  unfold Constant.defaultHorizontalSpacing, Constant.defaultVerticalSpacing.
  intros Hx Hy.
  assert (i mod 3 = j mod 3) as Hmod by (apply num_inj; lra).
  assert (i / 3 = j / 3) as Hdiv by (apply num_inj; lra).
  rewrite (Nat.div_mod_eq i 3), (Nat.div_mod_eq j 3). congruence.
Qed.

Lemma autoLayout_lookup nodes i :
  autoLayout nodes !! i
  = (λ node,
       {| FileNode.id := FileNode.id node;
          FileNode.type := FileNode.type node;
          FileNode.data := FileNode.data node;
          FileNode.position := gridPosition i;
          FileNode.style := FileNode.style node |}) <$> nodes !! i.
Proof. unfold autoLayout. by rewrite list_lookup_imap. Qed.

(** X14: the automatic layout keeps the number, the order, the ids, the
    data and the styles of the nodes, puts the node at index [i] in column
    [i mod 3] and row [i / 3] of a grid, so that no two nodes get the same
    position and every [x] is 0, 400 or 800, and running it twice equals
    running it once. *)
Theorem autoLayout_grid nodes :
  length (autoLayout nodes) = length nodes ∧
  (∀ i node, nodes !! i = Some node →
     ∃ node', autoLayout nodes !! i = Some node' ∧
       FileNode.id node' = FileNode.id node ∧
       FileNode.type node' = FileNode.type node ∧
       FileNode.data node' = FileNode.data node ∧
       FileNode.style node' = FileNode.style node ∧
       (Position.x (FileNode.position node')
        == num (i mod 3) * Constant.defaultHorizontalSpacing)%Q ∧
       (Position.y (FileNode.position node')
        == num (i / 3) * Constant.defaultVerticalSpacing)%Q) ∧
  (∀ i j a b,
     autoLayout nodes !! i = Some a → autoLayout nodes !! j = Some b →
     (Position.x (FileNode.position a) == Position.x (FileNode.position b))%Q →
     (Position.y (FileNode.position a) == Position.y (FileNode.position b))%Q →
     i = j) ∧
  (∀ node, node ∈ autoLayout nodes →
     (Position.x (FileNode.position node) == 0)%Q
     ∨ (Position.x (FileNode.position node) == 400)%Q
     ∨ (Position.x (FileNode.position node) == 800)%Q) ∧
  autoLayout (autoLayout nodes) = autoLayout nodes.
Proof.
  split; [apply length_imap|]. split; [|split; [|split]].
  - intros i node Hi. eexists. rewrite autoLayout_lookup, Hi. cbn.
    by repeat split.
  - intros i j a b Ha Hb. rewrite autoLayout_lookup in Ha, Hb.
    destruct (nodes !! i) as [na|]; [|done].
    destruct (nodes !! j) as [nb|]; [|done].
    injection Ha as <-. injection Hb as <-. cbn [FileNode.position].
    apply gridPosition_inj.
  - intros node [i Hi]%list_elem_of_lookup. rewrite autoLayout_lookup in Hi.
    destruct (nodes !! i) as [n|]; [|done]. injection Hi as <-.
    cbn [FileNode.position]. unfold gridPosition. cbn [Position.x].
    pose proof (Nat.mod_upper_bound i 3 ltac:(done)) as Hlt.
    destruct (i mod 3) as [|[|[|k]]];
      [left; by vm_compute|right; left; by vm_compute
      |right; right; by vm_compute|lia].
  - apply list_eq. intros i. rewrite !autoLayout_lookup.
    by destruct (nodes !! i).
Qed.

(** * The state of the page *)

Lemma foldl_snoc {A B : Type} (f : A → B → A) a xs x :
  foldl f a (xs ++ [x]) = f (foldl f a xs) x.
Proof. by rewrite foldl_app. Qed.

(** X15: whatever is typed, parsed and reset, in whatever order, the page
    never shows the error line and the graph together; the error is absent
    or the one fixed message; and when the graph is shown its data is what
    [parseYaml] returned for a text that is not blank and was due for
    parsing. *)
Theorem page_error_or_graph parseYaml isBlank events :
  (errorShown (foldl (pageStep parseYaml isBlank) initialPageState events)
   = true →
   graphShown (foldl (pageStep parseYaml isBlank) initialPageState events)
   = false) ∧
  (parseError (foldl (pageStep parseYaml isBlank) initialPageState events)
   = None
   ∨ parseError (foldl (pageStep parseYaml isBlank) initialPageState events)
     = Some parseFailureMessage) ∧
  (graphShown (foldl (pageStep parseYaml isBlank) initialPageState events)
   = true →
   ∃ text,
     ParseDue text ∈ events ∧ isBlank text = false ∧
     parseYaml text
     = Some (yamlData
               (foldl (pageStep parseYaml isBlank) initialPageState events))).
Proof.
  induction events as [|event events IH] using rev_ind.
  - cbn. split; [done|]. split; [by left|done].
  - rewrite foldl_snoc.
    destruct IH as (Hboth & Herror & Hgraph).
    set (st := foldl (pageStep parseYaml isBlank) initialPageState events) in *.
    destruct event as [text|text|]; cbn [pageStep].
    + split; [done|]. split; [done|]. intros Hshown.
      destruct (Hgraph Hshown) as (t & Hin & Hblank & Hparse).
      exists t. split; [|done]. apply elem_of_app. by left.
    + unfold parseInputYaml. destruct (isBlank text) eqn:Hblank.
      * split; [done|]. split; [by left|done].
      * destruct (parseYaml text) as [data|] eqn:Hparse.
        -- split; [done|]. split; [by left|]. intros _. exists text.
           split; [|done]. apply elem_of_app. right. left.
        -- split; [done|]. split; [by right|done].
    + split; [done|]. split; [by left|done].
Qed.

(** * The colour of a flattened node *)

Lemma processDirectory_extension random fuel content parentPath st :
  processDirectory random fuel content parentPath emptyFlatState = Returned st →
  ∀ node, node ∈ nodes st →
    NodeData.extension (FileNode.data node)
    = getFileExtension (NodeData.label (FileNode.data node)).
Proof.
  apply (processDirectory_preserves (λ _, True)
    (λ st, ∀ node, node ∈ nodes st →
       NodeData.extension (FileNode.data node)
       = getFileExtension (NodeData.label (FileNode.data node))));
    [done| |done|].
  - intros s c path deps _ _ _ Hs node. cbn.
    rewrite elem_of_app, list_elem_of_singleton. intros [Hnode| ->];
      [by apply Hs|done].
  - intros node Hnode. by apply elem_of_nil in Hnode.
Qed.

Lemma toLowerCase_dot s :
  "."%char ∉ String.list_ascii_of_string (toLowerCase s) →
  "."%char ∉ String.list_ascii_of_string s.
Proof.
  induction s as [|c s IH]; [done|]. cbn.
  rewrite !not_elem_of_cons. intros [Hc Hs]. split; [|by apply IH].
  intros <-. by apply Hc.
Qed.

Lemma colorMap_key_without_dot key hex :
  (key, hex) ∈ colorMap → "."%char ∉ String.list_ascii_of_string key.
Proof.
  unfold colorMap. intros Hin.
  repeat (apply elem_of_cons in Hin as [[= -> ->]|Hin];
          [apply (bool_decide_unpack _); by vm_compute|]).
  by apply elem_of_nil in Hin.
Qed.

Lemma getExtensionColor_key extension key hex :
  (key, hex) ∈ colorMap → toLowerCase extension = key →
  getExtensionColor (Some extension) = Color hex.
Proof.
  intros Hin Hlow.
  change (getExtensionColor (Some extension))
    with (lookupOr colorMap (toLowerCase extension) Constant.defaultColor).
  rewrite Hlow. clear Hlow. unfold colorMap in Hin.
  repeat (apply elem_of_cons in Hin as [[= -> ->]|Hin]; [reflexivity|]).
  by apply elem_of_nil in Hin.
Qed.

(** X16: a node the flattener returns whose label ends in a dot and a
    suffix that, in lower case, is a key of the colour table has that
    suffix for its extension, and [CustomNode] draws it in the colour the
    table gives for the key. *)
Theorem flattened_node_colour random fuel content parentPath st node
    stem suffix key hex :
  processDirectory random fuel content parentPath emptyFlatState = Returned st →
  node ∈ nodes st →
  NodeData.label (FileNode.data node) = stem +:+ "." +:+ suffix →
  (key, hex) ∈ colorMap → toLowerCase suffix = key →
  NodeData.extension (FileNode.data node) = suffix ∧
  getExtensionColor (Some (NodeData.extension (FileNode.data node)))
  = Color hex.
Proof.
  intros Hst Hnode Hlabel Hkey Hlow.
  assert (NodeData.extension (FileNode.data node) = suffix) as Hext.
  { rewrite (processDirectory_extension _ _ _ _ _ Hst node Hnode), Hlabel.
    apply (getFileExtension_after stem suffix), toLowerCase_dot.
    rewrite Hlow. by eapply colorMap_key_without_dot. }
  split; [done|]. rewrite Hext. by eapply getExtensionColor_key.
Qed.

Lemma flattened_node_colour_witness :
  ∃ st node,
    (processDirectory randomZero 2
       (JObj [("Page.TSX", yamlFile "page" [] "A")]) "src" emptyFlatState
     = Returned st ∧
     node ∈ nodes st ∧
     NodeData.label (FileNode.data node) = "Page" +:+ "." +:+ "TSX" ∧
     ("tsx", Constant.tsxColor) ∈ colorMap ∧ toLowerCase "TSX" = "tsx") ∧
    NodeData.extension (FileNode.data node) = "TSX" ∧
    getExtensionColor (Some (NodeData.extension (FileNode.data node)))
    = Color Constant.tsxColor.
Proof.
  eexists _, _.
  assert (processDirectory randomZero 2
            (JObj [("Page.TSX", yamlFile "page" [] "A")]) "src" emptyFlatState
          = Returned _) as Hst by (vm_compute; reflexivity).
  assert (("tsx", Constant.tsxColor) ∈ colorMap) as Hkey
    by (apply (bool_decide_unpack _); by vm_compute).
  split.
  { split; [exact Hst|]. split; [left|]. split; [reflexivity|].
    split; [exact Hkey|reflexivity]. }
  exact (flattened_node_colour randomZero 2 _ "src" _ _ "Page" "TSX" "tsx"
           Constant.tsxColor Hst ltac:(left) eq_refl Hkey eq_refl).
Defined.

(** * The nodes of the recursive flattener and the leaves of the tree *)

Lemma leavesFlattened_app (isLeaf1 isLeaf2 isLeaf : string → JsValue → Prop)
    nodes1 edges1 nodes2 edges2 :
  leavesFlattened isLeaf1 nodes1 edges1 →
  leavesFlattened isLeaf2 nodes2 edges2 →
  (∀ path leaf, isLeaf path leaf ↔ isLeaf1 path leaf ∨ isLeaf2 path leaf) →
  leavesFlattened isLeaf (nodes1 ++ nodes2) (edges1 ++ edges2).
Proof.
  intros (Hn1 & Hl1 & He1) (Hn2 & Hl2 & He2) Hleaf.
  split; [|split].
  - intros node [Hnode|Hnode]%elem_of_app.
    + destruct (Hn1 node Hnode) as (leaf & Hleaf1 & Hof).
      exists leaf. split; [|done]. apply Hleaf. by left.
    + destruct (Hn2 node Hnode) as (leaf & Hleaf2 & Hof).
      exists leaf. split; [|done]. apply Hleaf. by right.
  - intros path leaf [Hleaf1|Hleaf2]%Hleaf.
    + destruct (Hl1 path leaf Hleaf1) as (node & Hnode & Hof).
      exists node. split; [|done]. apply elem_of_app. by left.
    + destruct (Hl2 path leaf Hleaf2) as (node & Hnode & Hof).
      exists node. split; [|done]. apply elem_of_app. by right.
  - intros e [He|He]%elem_of_app.
    + destruct (He1 e He) as (leaf & deps & Hleaf1 & Hdeps & Hin).
      exists leaf, deps. split; [|done]. apply Hleaf. by left.
    + destruct (He2 e He) as (leaf & deps & Hleaf2 & Hdeps & Hin).
      exists leaf, deps. split; [|done]. apply Hleaf. by right.
Qed.

Lemma leafIn_cons key value entries parentPath path leaf :
  leafIn ((key, value) :: entries) parentPath path leaf ↔
  leafAt value (childPath parentPath key) path leaf
  ∨ leafIn entries parentPath path leaf.
Proof.
  split.
  - intros (k & v & [[= -> ->]|Hin]%elem_of_cons & Hleaf); [by left|].
    right. by exists k, v.
  - intros [Hleaf|(k & v & Hin & Hleaf)].
    + exists key, value. split; [left|done].
    + exists k, v. split; [by right|done].
Qed.

Lemma leafAt_leaf content parentPath path leaf :
  isYamlFile content = true →
  leafAt content parentPath path leaf ↔ path = parentPath ∧ leaf = content.
Proof.
  intros Hyaml. split.
  - intros Hleaf. inversion Hleaf; subst; [done|congruence].
  - intros [-> ->]. by constructor.
Qed.

Lemma leafAt_directory content entries parentPath path leaf :
  isYamlFile content = false → objectEntries content = Some entries →
  leafAt content parentPath path leaf ↔ leafIn entries parentPath path leaf.
Proof.
  intros Hyaml Hentries. split.
  - intros Hleaf. inversion Hleaf as [|? ? entries' key value]; subst;
      [congruence|].
    exists key, value. split; [congruence|done].
  - intros (key & value & Hin & Hleaf). by eapply leafAt_below.
Qed.

Lemma processDirectory_leaves random fuel :
  ∀ content parentPath st st',
    processDirectory random fuel content parentPath st = Returned st' →
    ∃ newNodes newEdges,
      nodes st' = nodes st ++ newNodes ∧ edges st' = edges st ++ newEdges ∧
      leavesFlattened (leafAt content parentPath) newNodes newEdges.
Proof.
  induction fuel as [|fuel IH]; intros content parentPath st st' Hret; [done|].
  destruct (isYamlFile content) eqn:Hyaml.
  - rewrite processDirectory_leaf in Hret by done.
    destruct (getProperty "dependency" content) as [| | | | |deps|] eqn:Hdeps;
      try done.
    injection Hret as <-. eexists _, _. split; [done|]. split; [done|].
    split; [|split].
    + intros node ->%list_elem_of_singleton. exists content.
      split; [by apply leafAt_leaf|done].
    + intros path leaf [-> ->]%leafAt_leaf; [|done].
      eexists. split; [left|done].
    + intros e (dep & -> & Hdep)%list_elem_of_fmap. exists content, deps.
      split; [by apply leafAt_leaf|done].
  - destruct (objectEntries content) as [entries|] eqn:Hentries.
    + rewrite (processDirectory_directory _ _ _ entries) in Hret by done.
      assert (∃ newNodes newEdges,
                nodes st' = nodes st ++ newNodes ∧
                edges st' = edges st ++ newEdges ∧
                leavesFlattened (leafIn entries parentPath) newNodes newEdges)
        as (newNodes & newEdges & Hn & He & Hflat).
      { clear Hentries Hyaml. revert st Hret.
        induction entries as [|[key value] entries IHentries]; intros st Hret.
        - injection Hret as <-. exists [], []. rewrite !app_nil_r.
          split; [done|]. split; [done|]. split; [|split].
          + intros node Hnode. by apply elem_of_nil in Hnode.
          + intros path leaf (k & v & Hin & _). by apply elem_of_nil in Hin.
          + intros e He. by apply elem_of_nil in He.
        - cbn [forEachO] in Hret.
          destruct (processDirectory random fuel value
                      (childPath parentPath key) st) as [s1| |] eqn:Hvalue;
            [|done..].
          destruct (IH _ _ _ _ Hvalue) as (n1 & e1 & Hn1 & He1 & Hflat1).
          destruct (IHentries _ Hret) as (n2 & e2 & Hn2 & He2 & Hflat2).
          exists (n1 ++ n2), (e1 ++ e2).
          split; [by rewrite Hn2, Hn1, app_assoc|].
          split; [by rewrite He2, He1, app_assoc|].
          eapply leavesFlattened_app; [done|done|].
          intros path leaf. apply leafIn_cons. }
      exists newNodes, newEdges. split; [done|]. split; [done|].
      destruct Hflat as (Hnodes & Hleaves & Hedges). split; [|split].
      * intros node Hnode. destruct (Hnodes node Hnode) as (leaf & Hin & Hof).
        exists leaf. split; [by eapply leafAt_directory|done].
      * intros path leaf Hleaf. apply Hleaves. by eapply leafAt_directory.
      * intros e He'. destruct (Hedges e He') as (leaf & deps & Hin & Hd).
        exists leaf, deps. split; [by eapply leafAt_directory|done].
    + cbn [processDirectory] in Hret. by rewrite Hyaml, Hentries in Hret.
Qed.

(** X17: the nodes the flattener returns are the leaves of the tree: every
    node has the path of a leaf for its id and the content and the agent of
    that leaf, every leaf has such a node, and every edge runs from the
    path of a leaf to an entry of the [dependency] of that leaf. *)
Theorem flattened_nodes_are_leaves random fuel content parentPath st :
  processDirectory random fuel content parentPath emptyFlatState = Returned st →
  (∀ node, node ∈ nodes st →
     ∃ leaf,
       leafAt content parentPath (FileNode.id node) leaf ∧
       NodeData.content (FileNode.data node) = getProperty "content" leaf ∧
       NodeData.agent (FileNode.data node) = getProperty "agent" leaf) ∧
  (∀ path leaf, leafAt content parentPath path leaf →
     ∃ node,
       node ∈ nodes st ∧ FileNode.id node = path ∧
       NodeData.content (FileNode.data node) = getProperty "content" leaf ∧
       NodeData.agent (FileNode.data node) = getProperty "agent" leaf) ∧
  (∀ e, e ∈ edges st →
     ∃ leaf dependency,
       leafAt content parentPath (FileEdge.source e) leaf ∧
       getProperty "dependency" leaf = JArr dependency ∧
       FileEdge.target e ∈ dependency).
Proof.
  intros Hret.
  destruct (processDirectory_leaves _ _ _ _ _ _ Hret)
    as (newNodes & newEdges & Hn & He & Hnodes & Hleaves & Hedges).
  cbn in Hn, He. subst newNodes newEdges. split; [|split].
  - intros node Hnode. destruct (Hnodes node Hnode) as (leaf & Hleaf & Hof).
    exists leaf. split; [done|]. by destruct Hof as (_ & Hc & Ha).
  - intros path leaf Hleaf.
    destruct (Hleaves path leaf Hleaf) as (node & Hnode & Hof).
    by exists node.
  - done.
Qed.

Lemma flattened_nodes_are_leaves_witness :
  ∃ st,
    processDirectory randomZero 3
      (JObj [("app", JObj [("page.tsx", yamlFile "page" ["src/a.ts"] "A")])])
      "src" emptyFlatState = Returned st ∧
    (∀ node, node ∈ nodes st →
       ∃ leaf,
         leafAt
           (JObj [("app", JObj [("page.tsx", yamlFile "page" ["src/a.ts"] "A")])])
           "src" (FileNode.id node) leaf ∧
         NodeData.content (FileNode.data node) = getProperty "content" leaf ∧
         NodeData.agent (FileNode.data node) = getProperty "agent" leaf) ∧
    (∀ path leaf,
       leafAt
         (JObj [("app", JObj [("page.tsx", yamlFile "page" ["src/a.ts"] "A")])])
         "src" path leaf →
       ∃ node,
         node ∈ nodes st ∧ FileNode.id node = path ∧
         NodeData.content (FileNode.data node) = getProperty "content" leaf ∧
         NodeData.agent (FileNode.data node) = getProperty "agent" leaf) ∧
    (∀ e, e ∈ edges st →
       ∃ leaf dependency,
         leafAt
           (JObj [("app", JObj [("page.tsx", yamlFile "page" ["src/a.ts"] "A")])])
           "src" (FileEdge.source e) leaf ∧
         getProperty "dependency" leaf = JArr dependency ∧
         FileEdge.target e ∈ dependency).
Proof.
  eexists. split; [vm_compute; reflexivity|].
  apply (flattened_nodes_are_leaves randomZero 3
           (JObj [("app", JObj [("page.tsx", yamlFile "page" ["src/a.ts"] "A")])])
           "src").
  vm_compute. reflexivity.
Defined.



(** * How deep the levels go *)

Lemma visitsFrom_depth edges fuel :
  ∀ n l vs, visitsFrom fuel edges n l = Some vs →
    ∀ k m, walk edges n k m → k < fuel.
Proof.
  induction fuel as [|fuel IH]; intros n l vs Hvs k m Hwalk; [done|].
  cbn in Hvs. destruct (mapM _ _) as [below|] eqn:Hbelow; [|done].
  apply mapM_Some in Hbelow.
  inversion Hwalk as [|a e k' b He Hs Hwalk']; subst; [lia|].
  assert (e ∈ filter (λ edge, FileEdge.source edge = FileEdge.source e) edges)
    as Hin by (by apply list_elem_of_filter).
  apply list_elem_of_lookup in Hin as [i Hi].
  destruct (Forall2_lookup_l _ _ _ _ _ Hbelow Hi) as (vs' & Hvs' & Hev).
  cbn in Hev. pose proof (IH _ _ _ Hev _ _ Hwalk'). lia.
Qed.

Lemma calculateLevels_at_edges fuel nodes edges st :
  calculateLevels fuel nodes edges = Some st →
  calculateLevels (S (length edges)) nodes edges = Some st.
Proof.
  intros Hst.
  destruct (calculateLevels_returns nodes edges
              (returned_no_cycle _ _ _ _ Hst)) as [st' Hst'].
  rewrite Hst'. f_equal.
  pose proof (calculateLevels_mono _ (fuel `max` S (length edges)) _ _ _ Hst
                ltac:(lia)) as H1.
  pose proof (calculateLevels_mono _ (fuel `max` S (length edges)) _ _ _ Hst'
                ltac:(lia)) as H2.
  congruence.
Qed.

Lemma reached_depth fuel nodes edges st n d :
  calculateLevels fuel nodes edges = Some st →
  reachedAt nodes edges n d → d ≤ length edges.
Proof.
  intros Hst%calculateLevels_at_edges (r & Hr & Hwalk).
  rewrite calculateLevels_visits in Hst.
  destruct (allVisits _ _ _) as [vs|] eqn:Hvs; [|done].
  unfold allVisits in Hvs.
  destruct (mapM _ _) as [vss|] eqn:Hvss; [|done].
  apply mapM_Some in Hvss.
  apply list_elem_of_lookup in Hr as [i Hi].
  destruct (Forall2_lookup_l _ _ _ _ _ Hvss Hi) as (vs' & _ & Hev).
  cbn beta in Hev. pose proof (visitsFrom_depth _ _ _ _ _ Hev _ _ Hwalk). lia.
Qed.

(** X19: when the layout returns, no level is deeper than the number of
    edges: the level recorded for an id that names no member of
    [Object.prototype] is at most [length edges], a layout that returns at
    some call depth returns the same at call depth [length edges + 1], and
    every position lies on a row [y = d * spacing] with
    [d ≤ length edges]. *)
Theorem levels_bounded_by_edges cfg fuel nodes edges positions :
  calculateNodePositions cfg fuel nodes edges = Some positions →
  calculateNodePositions cfg (S (length edges)) nodes edges = Some positions ∧
  (∃ st, calculateLevels fuel nodes edges = Some st ∧
         ∀ n d, n ∉ objectPrototypeMembers →
                levels st !! n = Some d → d ≤ length edges) ∧
  ∀ n p, positions !! n = Some p →
    ∃ d, d ≤ length edges ∧ (Position.y p == num d * VERTICAL_SPACING cfg)%Q.
Proof.
  rewrite !calculateNodePositions_levels. intros Hpos.
  destruct (calculateLevels fuel nodes edges) as [st|] eqn:Hst; [|done].
  injection Hpos as <-.
  rewrite (calculateLevels_at_edges _ _ _ _ Hst).
  split; [done|]. split.
  - exists st. split; [done|]. intros n d _ Hd.
    apply (reached_depth _ _ _ _ _ _ Hst (levels_reached Hst _ _ Hd)).
  - intros n p Hp.
    destruct (placed_level Hst _ _ _ Hp) as (d & j & Hd & _ & ->).
    exists d. split; [|done].
    apply (reached_depth _ _ _ _ _ _ Hst (levels_reached Hst _ _ Hd)).
Qed.

Lemma levels_bounded_by_edges_witness :
  ∃ positions,
    calculateNodePositions spacing_constant 7 diamondNodes diamondEdges
    = Some positions ∧
    calculateNodePositions spacing_constant (S (length diamondEdges))
      diamondNodes diamondEdges = Some positions ∧
    (∃ st, calculateLevels 7 diamondNodes diamondEdges = Some st ∧
           ∀ n d, n ∉ objectPrototypeMembers →
                  levels st !! n = Some d → d ≤ length diamondEdges) ∧
    ∀ n p, positions !! n = Some p →
      ∃ d, d ≤ length diamondEdges ∧
           (Position.y p == num d * VERTICAL_SPACING spacing_constant)%Q.
Proof.
  eexists. split; [vm_compute; reflexivity|].
  apply (levels_bounded_by_edges spacing_constant 7 diamondNodes diamondEdges).
  vm_compute. reflexivity.
Defined.

(** * The call depth allowed *)

Lemma forEachO_stable {A S : Type} (f g : A → S → Outcome S) (xs : list A) :
  (∀ a s o, a ∈ xs → f a s = o → o ≠ RangeError → g a s = o) →
  ∀ s o, forEachO f xs s = o → o ≠ RangeError → forEachO g xs s = o.
Proof.
  induction xs as [|a xs IH]; intros Hfg s o Hf Ho; [done|].
  cbn in *. destruct (f a s) as [s1| |] eqn:Ha.
  - rewrite (Hfg a s (Returned s1)) by (done || left).
    apply IH; [|done..]. intros a' s' o' Ha'. apply Hfg. by right.
  - rewrite (Hfg a s TypeError) by (done || left). done.
  - by subst o.
Qed.

Lemma processDirectory_stable random fuel :
  ∀ fuel' content parentPath st o,
    processDirectory random fuel content parentPath st = o →
    o ≠ RangeError → fuel ≤ fuel' →
    processDirectory random fuel' content parentPath st = o.
Proof.
  induction fuel as [|fuel IH]; intros fuel' content parentPath st o Ho Hne Hle.
  - by subst o.
  - destruct fuel' as [|fuel']; [lia|].
    destruct (isYamlFile content) eqn:Hyaml.
    + rewrite processDirectory_leaf in Ho by done.
      by rewrite processDirectory_leaf.
    + destruct (objectEntries content) as [entries|] eqn:Hentries.
      * rewrite (processDirectory_directory _ fuel _ entries) in Ho by done.
        rewrite (processDirectory_directory _ fuel' _ entries) by done.
        revert Ho Hne. apply forEachO_stable.
        intros [key value] s o' _ Ho' Hne'. apply IH; [done|done|lia].
      * cbn [processDirectory] in *. by rewrite Hyaml, Hentries in *.
Qed.

(** X20: what [generateNodesAndEdges] does (the graph it returns, or the
    [TypeError] it throws) at one call depth, it does at every larger one:
    only the exhaustion of the call stack depends on the depth allowed. *)
Theorem generateNodesAndEdges_stable random fuel fuel' yamlData o :
  generateNodesAndEdges random fuel yamlData = o →
  o ≠ RangeError → fuel ≤ fuel' →
  generateNodesAndEdges random fuel' yamlData = o.
Proof.
  unfold generateNodesAndEdges. intros Ho Hne Hle.
  destruct (readSrc yamlData) as [src|]; [|done].
  destruct (processDirectory random fuel src "src" emptyFlatState)
    as [st| |] eqn:Hst; [| |by subst o].
  - rewrite (processDirectory_stable _ _ fuel' _ _ _ _ Hst) by done.
    rewrite calculateNodePositions_levels in *.
    destruct (calculateLevels fuel (nodes st) (edges st)) as [ls|] eqn:Hls;
      [|by subst o].
    by rewrite (calculateLevels_mono _ fuel' _ _ _ Hls Hle).
  - by rewrite (processDirectory_stable _ _ fuel' _ _ _ _ Hst).
Qed.

Lemma generateNodesAndEdges_stable_witness :
  ∃ g,
    (generateNodesAndEdges randomZero 3 chainTree = Returned g ∧
     Returned g ≠ RangeError ∧ 3 ≤ 5) ∧
    generateNodesAndEdges randomZero 5 chainTree = Returned g.
Proof.
  eexists.
  assert (generateNodesAndEdges randomZero 3 chainTree = Returned _) as Hg
    by (vm_compute; reflexivity).
  split; [split; [exact Hg|split; [done|lia]]|].
  exact (generateNodesAndEdges_stable randomZero 3 5 chainTree _ Hg
           ltac:(done) ltac:(lia)).
Defined.
